(** * html_substring: truncation of an HTML document to a number of
      visible characters (src/main.ts)

    The program is one function, [html_substring], whose nested helper
    closures ([openTag], [closeTag], [openTags], [addSuffix], [flushWord])
    mutate the variables of the enclosing call.  The embedding keeps those
    variables in a record [State] that every helper takes and returns, and
    keeps what the closures only read (the table of void elements,
    [chars], [length], [opts]) in a class [Call].

    Characters are the elements of [Array.from(source)], modelled as the
    code points 0..255 (type [ascii]); [length] is an integer ([Z]).  A
    loop that JavaScript bounds by [i < chars.length] is a recursion over
    the rest of [chars]; the two loops that are not bounded that way (the
    main loop, whose cursor is moved back by the helpers, and the loop of
    the comment case) take fuel, and [Diverge] stands for running out of
    it. *)

From Stdlib Require Import List String Ascii ZArith Lia Bool Arith DecimalString.
Import ListNotations.

Local Open Scope string_scope.
Local Open Scope nat_scope.
Local Open Scope list_scope.

(** ** Options *)

(** [suffix: (() => string) | string | null] *)
Inductive Suffix : Type :=
| SuffixText (s : string)
| SuffixProducer (f : unit -> string).

(** [typeof suffix === 'function' ? suffix() : suffix] *)
Definition suffixText (suffix : Suffix) : string :=
  match suffix with
  | SuffixText s => s
  | SuffixProducer f => f tt
  end.

Record Options : Type := mkOptions {
  breakWords : bool;
  suffix : option Suffix;
  shouldEncloseSuffixInTags : bool
}.

Definition DEFAULT_OPTIONS : Options :=
  {| breakWords := true; shouldEncloseSuffixInTags := false; suffix := None |}.

(** [typeof options === 'string']: the string is the suffix, the rest is
    [DEFAULT_OPTIONS]. *)
Definition options_of_string (options : string) : Options :=
  {| breakWords := breakWords DEFAULT_OPTIONS;
     shouldEncloseSuffixInTags := shouldEncloseSuffixInTags DEFAULT_OPTIONS;
     suffix := Some (SuffixText options) |}.

(** ** Character classes *)

Definition code (c : ascii) : nat := nat_of_ascii c.

Definition between (lo hi n : nat) : bool := (lo <=? n) && (n <=? hi).

(** [input.toLowerCase() !== input.toUpperCase()] on the code points
    0..255: the ASCII letters, the micro sign (its upper case is the Greek
    capital mu), and the Latin-1 letters, without the multiplication and
    division signs and without the ordinal indicators. *)
Definition isLetter (input : ascii) : bool :=
  let n := code input in
  between 65 90 n || between 97 122 n || (n =? 181)
  || between 192 214 n || between 216 246 n || between 248 255 n.

Definition isNumber (input : ascii) : bool := between 48 57 (code input).

(** [' \t\r\n'.indexOf(input) !== -1] *)
Definition isWhitespace (input : ascii) : bool :=
  let n := code input in
  (n =? 32) || (n =? 9) || (n =? 13) || (n =? 10).

(** [chars[k] === c], where [chars[k]] is [undefined] out of range. *)
Definition charIs (x : option ascii) (c : ascii) : bool :=
  match x with
  | Some y => Ascii.eqb y c
  | None => false
  end.

(** [s += x] for [x = chars[k]]: out of range JavaScript appends the text
    of [undefined]. *)
Definition jsText (x : option ascii) : string :=
  match x with
  | Some y => String y ""
  | None => "undefined"
  end.

(** [s[s.length - 1]] *)
Fixpoint lastChar (s : string) : option ascii :=
  match s with
  | EmptyString => None
  | String c EmptyString => Some c
  | String _ s' => lastChar s'
  end.

(** [xs.join('')] for an array of characters and for an array of strings *)
Definition join (xs : list ascii) : string := string_of_list_ascii xs.

Definition joinAll (xs : list string) : string := String.concat "" xs.

(** [chars.slice(a, b)] *)
Definition slice {A : Type} (a b : nat) (xs : list A) : list A :=
  firstn (b - a) (skipn a xs).

(** ** The state of one call *)

Record State : Type := mkState {
  current : Z;                           (* current text length *)
  i : nat;                               (* current source position *)
  openedQueue : list (string * string);  (* nonflushed open tags *)
  closeQueue : list string;              (* list of tags to be closed *)
  result : string;
  suffixAdded : bool;
  cw : list ascii;                       (* current word *)
  cwEmpty : bool
}.

Definition set_current (st : State) (v : Z) : State :=
  mkState v (i st) (openedQueue st) (closeQueue st) (result st)
          (suffixAdded st) (cw st) (cwEmpty st).
Definition set_i (st : State) (v : nat) : State :=
  mkState (current st) v (openedQueue st) (closeQueue st) (result st)
          (suffixAdded st) (cw st) (cwEmpty st).
Definition set_openedQueue (st : State) (v : list (string * string)) : State :=
  mkState (current st) (i st) v (closeQueue st) (result st)
          (suffixAdded st) (cw st) (cwEmpty st).
Definition set_closeQueue (st : State) (v : list string) : State :=
  mkState (current st) (i st) (openedQueue st) v (result st)
          (suffixAdded st) (cw st) (cwEmpty st).
Definition set_result (st : State) (v : string) : State :=
  mkState (current st) (i st) (openedQueue st) (closeQueue st) v
          (suffixAdded st) (cw st) (cwEmpty st).
Definition set_suffixAdded (st : State) (v : bool) : State :=
  mkState (current st) (i st) (openedQueue st) (closeQueue st) (result st)
          v (cw st) (cwEmpty st).
Definition set_cw (st : State) (v : list ascii) : State :=
  mkState (current st) (i st) (openedQueue st) (closeQueue st) (result st)
          (suffixAdded st) v (cwEmpty st).
Definition set_cwEmpty (st : State) (v : bool) : State :=
  mkState (current st) (i st) (openedQueue st) (closeQueue st) (result st)
          (suffixAdded st) (cw st) v.

(** [result += piece] *)
Definition emit (st : State) (piece : string) : State :=
  set_result st (result st ++ piece)%string.

Definition initial : State :=
  {| current := 0; i := 0; openedQueue := []; closeQueue := [];
     result := ""; suffixAdded := false; cw := []; cwEmpty := true |}.

(** What one pass through the body of [mainloop] does next; [Diverge]
    stands for a loop that does not end. *)
Inductive Flow : Type :=
| Continue (st : State)
| Break (st : State)
| Throw (tag : string) (offset : nat)
| Diverge.

(** What a call does: it returns a string, throws [HtmlSubstringError]
    (the message holds the tag and the offset), or does not return. *)
Inductive Outcome : Type :=
| Returns (s : string)
| Throws (tag : string) (offset : nat)
| Diverges.

(** The message of the error: [`Unexpected closing tag '${tag}' on offset
    ${offset}`]. *)
Definition decimal (n : nat) : string :=
  NilEmpty.string_of_uint (Nat.to_uint n).

Definition HtmlSubstringError_message (tag : string) (offset : nat) : string :=
  ("Unexpected closing tag '" ++ tag ++ "' on offset " ++ decimal offset)%string.

(** ** The scanning loops *)

(** First loop of [openTag]: [rest] is what is left of [chars] from [i]
    on; [c] is the last character read ([None] for the initial ['']). *)
Fixpoint openTag_name (rest : list ascii) (i : nat) (tag : string)
         (c : option ascii) : nat * string * option ascii :=
  match rest with
  | [] => (i, tag, c)
  | x :: rest' =>
      if negb (isLetter x) && negb (isNumber x) then (S i, tag, Some x)
      else openTag_name rest' (S i) (tag ++ String x "")%string (Some x)
  end.

(** Second loop of [openTag] and the loop of [closeTag]: copy up to the
    next ['>']. *)
Fixpoint upToGt (rest : list ascii) (i : nat) (acc : string)
         (c : option ascii) : nat * string * option ascii :=
  match rest with
  | [] => (i, acc, c)
  | x :: rest' =>
      if Ascii.eqb x ">" then (S i, acc, Some x)
      else upToGt rest' (S i) (acc ++ String x "")%string (Some x)
  end.

(** The loop of the ['&'] case: [(i, true)] when [';'] was found, with [i]
    just after it; [(start, false)] on white space (the rewind);
    [(chars.length, false)] when the input ends. *)
Fixpoint entityLoop (rest : list ascii) (i start : nat) : nat * bool :=
  match rest with
  | [] => (i, false)
  | x :: rest' =>
      if isWhitespace x then (start, false)
      else if Ascii.eqb x ";" then (S i, true)
      else entityLoop rest' (S i) start
  end.

(** The loop over [closeQueue.pop()]; [stack] is the array read from its
    end (top first). *)
Fixpoint popSearch (stack : list string) (closing : string)
  : bool * list string :=
  match stack with
  | [] => (false, [])
  | top :: below =>
      if String.eqb top closing then (true, below)
      else popSearch below closing
  end.

(** What the closures of a call read and never write: the table
    [html-tags/void] of void elements (imported from a package), the
    characters [Array.from(source)], the limit and the options. *)
Class Call : Type := mkCall {
  voidHtmlTags : list string;
  chars : list ascii;
  length : Z;
  opts : Options
}.

Section Call.

Context {call : Call}.

(** List of tags having optional closing tag *)
Definition optionalVoidHtmlTags : list string := ["li"].

Definition indexOf (xs : list string) (x : string) : bool :=
  existsb (String.eqb x) xs.

Definition isVoidTag (tag : string) : bool := indexOf voidHtmlTags tag.
Definition isOptionalVoidTag (tag : string) : bool :=
  indexOf optionalVoidHtmlTags tag.
Definition haveToHaveClosingTag (tag : string) : bool :=
  negb (isVoidTag tag || isOptionalVoidTag tag).

Definition at_ (k : nat) : option ascii := nth_error chars k.

Definition openTag (st : State) : option (string * string) * State :=
  let tagStart := i st in
  let '(i1, tag, c1) := openTag_name (skipn (i st) chars) (i st) "" None in
  let '(i2, other, c2) :=
    if (0 <? String.length tag) && (i1 <? Datatypes.length chars)
       && negb (charIs c1 ">")
    then upToGt (skipn i1 chars) i1
                (match c1 with Some x => String x "" | None => "" end) c1
    else (i1, "", c1) in
  if (String.length tag =? 0) || negb (charIs c2 ">")
  then (None, set_i (set_cw st (cw st ++ ["<"%char])) tagStart)
  else (Some (tag, other), set_i st i2).

Definition closeTag (st : State) : string * State :=
  let '(i1, tag, _) := upToGt (skipn (i st) chars) (i st) "" None in
  (tag, set_i st i1).

Definition closingOf (tag : string) : string := ("</" ++ tag ++ ">")%string.

Fixpoint openTags_loop (onlyVoid : bool) (queue : list (string * string))
         (result : string) (closeQueue : list string)
  : list (string * string) * string * list string :=
  match queue with
  | [] => ([], result, closeQueue)
  | (tag, other) :: queue' =>
      let isVoid := isVoidTag tag in
      let isOptionalVoid := isOptionalVoidTag tag in
      let isXHTMLClosed := charIs (lastChar other) "/" in
      if onlyVoid && negb (isVoid || isXHTMLClosed)
      then ((tag, other) :: queue', result, closeQueue)
      else
        openTags_loop onlyVoid queue'
          (result ++ ("<" ++ tag ++ other ++ ">"))%string
          (if negb (isVoid || isOptionalVoid || isXHTMLClosed)
           then closeQueue ++ [closingOf tag]
           else closeQueue)
  end.

Definition openTags (onlyVoid : bool) (st : State) : State :=
  let '(queue, result', closeQueue') :=
    openTags_loop onlyVoid (openedQueue st) (result st) (closeQueue st) in
  set_closeQueue (set_result (set_openedQueue st queue) result') closeQueue'.

Definition addSuffix (result : string) (st : State) : string * State :=
  match suffix opts with
  | Some suffix =>
      if negb (suffixAdded st)
      then ((result ++ suffixText suffix)%string, set_suffixAdded st true)
      else (result, st)
  | None => (result, st)
  end.

(** [result = addSuffix(result)] *)
Definition addSuffixToResult (st : State) : State :=
  let '(r, st') := addSuffix (result st) st in set_result st' r.

Definition getResultWithSuffixAfterClosingTags (result : string)
           (closeQueue : list string) (flushed : bool) (st : State) : string :=
  let resultWithoutSuffix := joinAll (result :: closeQueue) in
  if flushed then resultWithoutSuffix
  else fst (addSuffix resultWithoutSuffix st).

Definition getResultWithSuffixBeforeClosingTags (result : string)
           (closeQueue : list string) (flushed : bool) (st : State) : string :=
  let resultWithSuffix := if flushed then result else fst (addSuffix result st) in
  joinAll (resultWithSuffix :: closeQueue).

Definition flushWord (st : State) : bool * State :=
  if breakWords opts then
    if (Datatypes.length (cw st) =? 0) then (true, st)
    else
      let addable :=
        Z.max (Z.min (length - current st)
                     (Z.of_nat (Datatypes.length (cw st)))) 0 in
      if (addable =? 0)%Z then (false, st)
      else
        let st1 := openTags false st in
        let st2 := emit st1 (join (firstn (Z.to_nat addable) (cw st1))) in
        let st3 := set_current st2 (current st2 + addable) in
        (true, set_cw st3 (skipn (Z.to_nat addable) (cw st3)))
  else
    if (Datatypes.length (cw st) =? 0) then (true, st)
    else if (current st + Z.of_nat (Datatypes.length (cw st)) <=? length)%Z
    then
      let st1 := openTags false st in
      let st2 := emit st1 (join (cw st1)) in
      let st3 := set_current st2
                   (current st2 + Z.of_nat (Datatypes.length (cw st2))) in
      (true, set_cw st3 [])
    else (false, st).

(** The loop of the comment case; [fuel] bounds the number of passes. *)
Fixpoint commentLoop (fuel : nat) (st : State) {struct fuel} : option State :=
  if negb (charIs (at_ (i st)) "-")
     && negb (charIs (at_ (i st + 1)) "-")
     && negb (charIs (at_ (i st + 2)) ">")
  then
    match fuel with
    | O => None
    | S fuel' =>
        let st1 := set_current st (current st + 1) in
        let st2 := emit st1 (jsText (at_ (i st1))) in
        commentLoop fuel' (set_i st2 (i st2 + 1))
    end
  else Some st.

(** [case '<'], after the word was flushed *)
Definition tagCase (fuel : nat) (st : State) : Flow :=
  if charIs (at_ (i st)) "!" then
    if charIs (at_ (i st + 1)) "-" && charIs (at_ (i st + 2)) "-" then
      (* comment *)
      match commentLoop fuel (set_i st (i st + 2)) with
      | Some st1 => Continue (set_i st1 (i st1 + 2))
      | None => Diverge
      end
    else
      Continue (emit (set_current st (current st + 1)) "<")
  else if charIs (at_ (i st)) "/" then
    let st1 := openTags false st in
    let offset := i st1 - 1 in
    let st2 := set_i st1 (i st1 + 1) in
    let '(tag, st3) := closeTag st2 in
    let '(success, stack) :=
      if haveToHaveClosingTag tag
      then popSearch (rev (closeQueue st3)) (closingOf tag)
      else (true, rev (closeQueue st3)) in
    if negb success then Throw tag offset
    else
      let st4 := set_closeQueue st3 (rev stack) in
      let st5 :=
        if (length <=? current st4)%Z && shouldEncloseSuffixInTags opts
        then addSuffixToResult st4
        else st4 in
      Continue (emit st5 (closingOf tag))
  else
    (* open tag *)
    match openTag st with
    | (Some tag, st1) =>
        Continue (set_openedQueue st1 (openedQueue st1 ++ [tag]))
    | (None, st1) => Continue st1
    end.

(** One pass through the body of [mainloop]: [c = chars[i++]] has been
    done, [st] holds the advanced [i]. *)
Definition step (fuel : nat) (c : ascii) (st : State) : Flow :=
  if Ascii.eqb c "<" then
    match flushWord st with
    | (false, st1) => Break st1
    | (true, st1) => tagCase fuel st1
    end
  else if Ascii.eqb c "&" then
    let offset := i st - 1 in
    let st1 := emit st "&" in
    let st2 := set_current st1 (current st1 + 1) in
    match entityLoop (skipn (i st2) chars) (i st2) (offset + 1) with
    | (i', true) =>
        Continue (emit (set_i st2 i') (join (slice (offset + 1) i' chars)))
    | (i', false) => Continue (set_i st2 i')
    end
  else
    let flushed :=
      if negb (isLetter c) && negb (cwEmpty st)
      then flushWord (set_cwEmpty st true)
      else (true, st) in
    match flushed with
    | (false, st1) => Break st1
    | (true, st1) =>
        let st2 := if negb (isWhitespace c) then set_cwEmpty st1 false else st1 in
        Continue (set_cw st2 (cw st2 ++ [c]))
    end.

(** [mainloop: while (current < length && i < chars.length)] *)
Fixpoint mainloop (fuel : nat) (st : State) {struct fuel} : Flow :=
  if (current st <? length)%Z then
    match at_ (i st) with
    | None => Break st
    | Some c =>
        match fuel with
        | O => Diverge
        | S fuel' =>
            match step fuel' c (set_i st (i st + 1)) with
            | Continue st' => mainloop fuel' st'
            | other => other
            end
        end
    end
  else Break st.

(** The statements after the loop. *)
Definition finish (st : State) : string :=
  let st1 := openTags true st in
  let '(flushed, st2) := flushWord st1 in
  let st3 := set_closeQueue st2 (rev (closeQueue st2)) in
  if shouldEncloseSuffixInTags opts
  then getResultWithSuffixBeforeClosingTags (result st3) (closeQueue st3) flushed st3
  else getResultWithSuffixAfterClosingTags (result st3) (closeQueue st3) flushed st3.

Definition run (fuel : nat) : Outcome :=
  match mainloop fuel initial with
  | Break st => Returns (finish st)
  | Throw tag offset => Throws tag offset
  | Continue _ => Diverges
  | Diverge => Diverges
  end.

End Call.

(** The call as a whole; the loop gets one pass per character of the
    source. *)
Definition html_substring_of (call : Call) : Outcome :=
  run (Datatypes.length chars).

(** [html_substring(source, length, options)], with [chars =
    Array.from(source)]. *)
Definition html_substring (voidHtmlTags : list string) (source : string)
           (length : Z) (options : Options) : Outcome :=
  html_substring_of
    (mkCall voidHtmlTags (list_ascii_of_string source) length options).

(** Modelled from the spec: the table [html-tags/void] is data of a package,
    not of the sources; these are the void elements of HTML, among them the
    [img] and [br] the glossary names. *)
Definition htmlVoidTags : list string :=
  ["area"; "base"; "br"; "col"; "embed"; "hr"; "img"; "input"; "link";
   "menuitem"; "meta"; "param"; "source"; "track"; "wbr"].

Definition truncate (source : string) (length : Z) (options : Options) : Outcome :=
  html_substring htmlVoidTags source length options.

(** ** States the scan passes through *)

(** [reachable st]: the condition of [mainloop] is evaluated in state
    [st], at the start or after some number of complete passes. *)
Inductive reachable {call : Call} : State -> Prop :=
| reach_initial : reachable initial
| reach_pass st c fuel st' :
    reachable st ->
    (current st <? length)%Z = true ->
    at_ (i st) = Some c ->
    step fuel c (set_i st (i st + 1)) = Continue st' ->
    reachable st'.

(** [unmatchedClosingAt st tag]: in state [st] the loop goes on (the budget
    is not used up), the next characters are ["</"], the pending word can
    be flushed, the name up to ['>'] is [tag], an element that has to have
    a closing tag, and [closeQueue] (after the queued open tags were
    written) holds no ["</tag>"]. *)
Definition unmatchedClosingAt {call : Call} (st : State) (tag : string) : Prop :=
  (current st <? length)%Z = true
  /\ at_ (i st) = Some "<"%char
  /\ at_ (i st + 1) = Some "/"%char
  /\ exists st1,
       flushWord (set_i st (i st + 1)) = (true, st1)
       /\ tag = fst (closeTag (set_i (openTags false st1) (i st + 2)))
       /\ haveToHaveClosingTag tag = true
       /\ ~ In (closingOf tag) (closeQueue (openTags false st1)).

(** A character that is neither ['<'] nor ['&']: it goes to the default
    case of the loop. *)
Definition isPlain (c : ascii) : bool :=
  negb (Ascii.eqb c "<") && negb (Ascii.eqb c "&").

(** What holds of the states of the scan of a source without markup:
    [result] and the pending word together are the part of the source read
    so far, [current] is the length of [result], within the budget, and
    no tag is queued or open. *)
Definition plainInv {call : Call} (st : State) : Prop :=
  (result st ++ join (cw st))%string = join (firstn (i st) chars)
  /\ current st = Z.of_nat (String.length (result st))
  /\ (current st <= length)%Z
  /\ openedQueue st = []
  /\ closeQueue st = []
  /\ suffixAdded st = false
  /\ (cwEmpty st = false -> cw st <> [])
  /\ i st <= Datatypes.length chars.

(** [passes n st]: the state after [n] complete passes of the loop from
    [st], when there are that many. *)
Fixpoint passes {call : Call} (n : nat) (st : State) : option State :=
  match n with
  | O => Some st
  | S n' =>
      if (current st <? length)%Z then
        match at_ (i st) with
        | Some c =>
            match step 0 c (set_i st (i st + 1)) with
            | Continue st' => passes n' st'
            | _ => None
            end
        | None => None
        end
      else None
  end.

(** ** What is written to [result], piece by piece

    [result] is only ever appended to.  The log of a call lists what was
    appended, in order and with the reason; [render] of the log is the
    returned string ([run_log_sound] below). *)
Inductive Piece : Type :=
| Text (s : string)               (* characters counted in [current] *)
| EntityRest (s : string)         (* what follows the ['&'] of an entity *)
| Opening (tag other : string)    (* an open tag, written by [openTags] *)
| Closing (tag : string) (dropped : list string)
                                  (* a closing tag of the source; [dropped]
                                     are the entries [closeQueue.pop()]
                                     removed before the matching one *)
| Closer (closing : string)       (* an entry of [closeQueue], at the end *)
| SuffixPiece (s : string).       (* the suffix, appended by [addSuffix] *)

Definition render1 (p : Piece) : string :=
  match p with
  | Text s => s
  | EntityRest s => s
  | Opening tag other => ("<" ++ tag ++ other ++ ">")%string
  | Closing tag _ => closingOf tag
  | Closer closing => closing
  | SuffixPiece s => s
  end.

Fixpoint render (ps : list Piece) : string :=
  match ps with
  | [] => ""
  | p :: ps' => (render1 p ++ render ps')%string
  end.

(** The entries the loop over [closeQueue.pop()] removes before it finds
    [closing] (all of them when it is not there). *)
Fixpoint popDropped (stack : list string) (closing : string) : list string :=
  match stack with
  | [] => []
  | top :: below =>
      if String.eqb top closing then [] else top :: popDropped below closing
  end.

Section Log.

Context {call : Call}.

(** An open tag that [openTags] pushes a closing tag for. *)
Definition closable (tag other : string) : bool :=
  negb (isVoidTag tag || isOptionalVoidTag tag || charIs (lastChar other) "/").

Fixpoint openTags_log (onlyVoid : bool) (queue : list (string * string))
  : list Piece :=
  match queue with
  | [] => []
  | (tag, other) :: queue' =>
      if onlyVoid && negb (isVoidTag tag || charIs (lastChar other) "/")
      then []
      else Opening tag other :: openTags_log onlyVoid queue'
  end.

Definition addSuffix_log (st : State) : list Piece :=
  match suffix opts with
  | Some suffix =>
      if negb (suffixAdded st) then [SuffixPiece (suffixText suffix)] else []
  | None => []
  end.

(** A successful [flushWord] on a word that is not empty writes the queued
    open tags and then the characters it takes from the front of [cw]. *)
Definition flushWord_log (st : State) : list Piece :=
  match flushWord st with
  | (true, st') =>
      if Datatypes.length (cw st) =? 0 then []
      else openTags_log false (openedQueue st)
           ++ [Text (join (firstn (Datatypes.length (cw st)
                                   - Datatypes.length (cw st')) (cw st)))]
  | (false, _) => []
  end.

Definition tagCase_log (st : State) : list Piece :=
  if charIs (at_ (i st)) "!" then
    if charIs (at_ (i st + 1)) "-" && charIs (at_ (i st + 2)) "-" then []
    else [Text "<"]
  else if charIs (at_ (i st)) "/" then
    let st1 := openTags false st in
    let '(tag, st3) := closeTag (set_i st1 (i st1 + 1)) in
    let dropped :=
      if haveToHaveClosingTag tag
      then popDropped (rev (closeQueue st3)) (closingOf tag)
      else [] in
    openTags_log false (openedQueue st)
    ++ (if (length <=? current st3)%Z && shouldEncloseSuffixInTags opts
        then addSuffix_log st3 else [])
    ++ [Closing tag dropped]
  else [].

Definition step_log (c : ascii) (st : State) : list Piece :=
  if Ascii.eqb c "<" then
    match flushWord st with
    | (false, _) => []
    | (true, st1) => flushWord_log st ++ tagCase_log st1
    end
  else if Ascii.eqb c "&" then
    match entityLoop (skipn (i st) chars) (i st) (i st - 1 + 1) with
    | (i', true) => [Text "&"; EntityRest (join (slice (i st - 1 + 1) i' chars))]
    | (_, false) => [Text "&"]
    end
  else
    if negb (isLetter c) && negb (cwEmpty st)
    then flushWord_log (set_cwEmpty st true)
    else [].

Fixpoint mainloop_log (fuel : nat) (st : State) {struct fuel} : list Piece :=
  if (current st <? length)%Z then
    match at_ (i st) with
    | None => []
    | Some c =>
        match fuel with
        | O => []
        | S fuel' =>
            step_log c (set_i st (i st + 1))
            ++ match step fuel' c (set_i st (i st + 1)) with
               | Continue st' => mainloop_log fuel' st'
               | _ => []
               end
        end
    end
  else [].

Definition finish_log (st : State) : list Piece :=
  let st1 := openTags true st in
  let '(flushed, st2) := flushWord st1 in
  let closers := map Closer (rev (closeQueue st2)) in
  let suffix := if flushed then [] else addSuffix_log st2 in
  openTags_log true (openedQueue st)
  ++ flushWord_log st1
  ++ (if shouldEncloseSuffixInTags opts
      then suffix ++ closers
      else closers ++ suffix).

Definition run_log (fuel : nat) : list Piece :=
  mainloop_log fuel initial
  ++ match mainloop fuel initial with
     | Break st => finish_log st
     | _ => []
     end.

(** Balanced markup: every closable open tag is closed by the next closing
    tag at its level.  [stack] holds the names of the elements that are
    open, innermost first; closing tags of elements that need none are
    passed over, as is text. *)
Fixpoint balancedFrom (stack : list string) (ps : list Piece) : bool :=
  match ps with
  | [] => match stack with [] => true | _ => false end
  | Opening tag other :: ps' =>
      balancedFrom (if closable tag other then tag :: stack else stack) ps'
  | Closing tag _ :: ps' =>
      if haveToHaveClosingTag tag then
        match stack with
        | top :: below => String.eqb top tag && balancedFrom below ps'
        | [] => false
        end
      else balancedFrom stack ps'
  | Closer closing :: ps' =>
      match stack with
      | top :: below => String.eqb (closingOf top) closing && balancedFrom below ps'
      | [] => false
      end
  | _ :: ps' => balancedFrom stack ps'
  end.

Definition balanced (ps : list Piece) : bool := balancedFrom [] ps.

(** [flag b] is 1 when [b] holds. *)
Definition flag (b : bool) : nat := if b then 1 else 0.

(** How many times the suffix was appended. *)
Definition suffixCount (ps : list Piece) : nat :=
  Datatypes.length (filter (fun p => match p with
                                     | SuffixPiece _ => true
                                     | _ => false
                                     end) ps).

(** No closing tag of the source made the scan drop an entry of
    [closeQueue]. *)
Definition noDrops (ps : list Piece) : bool :=
  forallb (fun p => match p with
                    | Closing _ (_ :: _) => false
                    | _ => true
                    end) ps.

(** [extends st ps st']: from [st] to [st'] the pieces [ps] were written
    to [result]; unless a piece dropped entries, [closeQueue] went on
    holding the closing tags of the open elements; and the suffix was
    written exactly when the latch [suffixAdded] was set. *)
Definition extends (st : State) (ps : list Piece) (st' : State) : Prop :=
  result st' = (result st ++ render ps)%string
  /\ (noDrops ps = true ->
      forall stack, rev (closeQueue st) = map closingOf stack ->
        exists stack',
          rev (closeQueue st') = map closingOf stack'
          /\ forall qs, balancedFrom stack (ps ++ qs) = balancedFrom stack' qs)
  /\ suffixCount ps + flag (suffixAdded st) = flag (suffixAdded st').

(** [dropsFail st ps]: when a piece of [ps] dropped entries of
    [closeQueue], the markup cannot be balanced, whatever is written
    afterwards. *)
Definition dropsFail (st : State) (ps : list Piece) : Prop :=
  noDrops ps = false ->
  forall stack, rev (closeQueue st) = map closingOf stack ->
    forall qs, balancedFrom stack (ps ++ qs) = false.

End Log.

(** The log of a call, and of [html_substring(source, length, options)]. *)
Definition html_substring_log_of (call : Call) : list Piece :=
  run_log (Datatypes.length chars).

Definition html_substring_log (voidHtmlTags : list string) (source : string)
           (length : Z) (options : Options) : list Piece :=
  html_substring_log_of
    (mkCall voidHtmlTags (list_ascii_of_string source) length options).

(** Whether the markup written by a call is balanced. *)
Definition html_substring_balanced (voidHtmlTags : list string)
           (source : string) (length : Z) (options : Options) : bool :=
  let call := mkCall voidHtmlTags (list_ascii_of_string source) length options in
  @balanced call (html_substring_log_of call).

(** Whether the [flushWord] after the loop reports failure
    ([flushed = false]). *)
Definition lastFlushFails (call : Call) : bool :=
  match mainloop (Datatypes.length chars) initial with
  | Break st => negb (fst (flushWord (openTags true st)))
  | _ => false
  end.

(** [flushWordAt st0]: the call comes to a [flushWord()] in state [st0].
    The code calls [flushWord] at three places: at the start of the case
    ['<'] (line 230); in the default case, on a character that is not a
    letter when a word has begun, after [cwEmpty = true] (lines 322-327);
    and after the loop, behind [openTags(true)] (lines 336-337). *)
Inductive flushWordAt {call : Call} : State -> Prop :=
| flush_before_tag st :
    reachable st ->
    (current st <? length)%Z = true ->
    at_ (i st) = Some "<"%char ->
    flushWordAt (set_i st (i st + 1))
| flush_behind_word st c :
    reachable st ->
    (current st <? length)%Z = true ->
    at_ (i st) = Some c ->
    isPlain c = true ->
    isLetter c = false ->
    cwEmpty st = false ->
    flushWordAt (set_cwEmpty (set_i st (i st + 1)) true)
| flush_after_loop st :
    mainloop (Datatypes.length chars) initial = Break st ->
    flushWordAt (openTags true st).

(** [flushedText s]: [s] is what a [flushWord()] of the call wrote of its
    pending word: without [breakWords] the whole word, which fits the
    budget; with [breakWords] the first [min (length - current) cw.length]
    characters of it, at least one. *)
Definition flushedText {call : Call} (s : string) : Prop :=
  exists st0,
    flushWordAt st0 /\ cw st0 <> []
    /\ if breakWords opts
       then exists n,
              Z.of_nat n = Z.min (length - current st0)
                                 (Z.of_nat (Datatypes.length (cw st0)))
              /\ 1 <= n
              /\ s = join (firstn n (cw st0))
       else s = join (cw st0)
            /\ (current st0 + Z.of_nat (Datatypes.length (cw st0))
                <= length)%Z.

(** The text of a log comes from the pending words: a text piece is what
    a [flushWord()] wrote, or the ['&'] of the entity case, or the ['<']
    of the case ["<!"]. *)
Definition textFromWords {call : Call} (p : Piece) : Prop :=
  match p with
  | Text s => s = "&" \/ s = "<" \/ flushedText s
  | _ => True
  end.

(** A piece that is a tag written by the code or the suffix: no character
    of a word. *)
Definition tagOrSuffix (p : Piece) : bool :=
  match p with
  | Opening _ _ | Closer _ | SuffixPiece _ => true
  | Text _ | EntityRest _ | Closing _ _ => false
  end.

(** The number of places at which [sub] occurs in [s]. *)
Fixpoint occurrences (sub s : string) : nat :=
  (if String.prefix sub s then 1 else 0)
  + match s with
    | EmptyString => 0
    | String _ s' => occurrences sub s'
    end.

(** ** Notions for the further properties *)

(** No ['<'] of the characters is followed by ['/']. *)
Fixpoint noClosingTag (cs : list ascii) : bool :=
  match cs with
  | [] => true
  | c :: rest =>
      negb (Ascii.eqb c "<" && match rest with
                               | x :: _ => Ascii.eqb x "/"
                               | [] => false
                               end)
      && noClosingTag rest
  end.

(** A character of a tag name: [isLetter(c) || isNumber(c)]. *)
Definition isAlnum (c : ascii) : bool := isLetter c || isNumber c.

Definition notGt (c : ascii) : bool := negb (Ascii.eqb c ">").

(** A character the loop of the ['&'] case reads on: neither white space
    nor [';']. *)
Definition entityChar (c : ascii) : bool :=
  negb (isWhitespace c) && negb (Ascii.eqb c ";").

(** The characters counted in [current]: the lengths of the text pieces. *)
Fixpoint textUnits (ps : list Piece) : nat :=
  match ps with
  | [] => 0
  | Text s :: ps' => String.length s + textUnits ps'
  | _ :: ps' => textUnits ps'
  end.

(** The longest front part of a list whose elements satisfy [p], and what
    is behind it. *)
Fixpoint leading {A : Type} (p : A -> bool) (xs : list A) : list A :=
  match xs with
  | [] => []
  | x :: xs' => if p x then x :: leading p xs' else []
  end.

Fixpoint behind {A : Type} (p : A -> bool) (xs : list A) : list A :=
  match xs with
  | [] => []
  | x :: xs' => if p x then behind p xs' else xs
  end.

(** [text] stands somewhere in the source, character by character. *)
Definition occursInSource {call : Call} (text : string) : Prop :=
  exists k, join (slice k (k + String.length text) chars) = text.

(** The open tag [(tag, other)] as [openTag] reads it at [st]: a name of
    letters and digits that is not empty, then [other], which holds no
    ['>'] and does not begin with a letter or a digit, then ['>']. *)
Definition openTagAhead {call : Call} (st : State) (tag other : string)
           (st' : State) : Prop :=
  exists name attrs rest,
    skipn (i st) chars = name ++ attrs ++ ">"%char :: rest
    /\ name <> []
    /\ forallb isAlnum name = true
    /\ forallb notGt attrs = true
    /\ match attrs with [] => True | a :: _ => isAlnum a = false end
    /\ tag = join name
    /\ other = join attrs
    /\ st' = set_i st (i st + Datatypes.length name
                       + Datatypes.length attrs + 1).

(** What [openTags] keeps queued under [onlyVoid]: a tag that is neither
    void nor closed by a ['/'] stops it. *)
Definition writtenAtEnd {call : Call} (entry : string * string) : bool :=
  isVoidTag (fst entry) || charIs (lastChar (snd entry)) "/".

Definition openText (entry : string * string) : string :=
  ("<" ++ fst entry ++ snd entry ++ ">")%string.

(** The entries that [openTags onlyVoid] goes past. *)
Definition writtenWhen {call : Call} (onlyVoid : bool)
           (entry : string * string) : bool :=
  negb onlyVoid || writtenAtEnd entry.

(** The closing tag that [openTags] pushes for an entry that needs one. *)
Definition needsCloser {call : Call} (entry : string * string) : bool :=
  closable (fst entry) (snd entry).

(** A place of the source at which no word is cut: the start, the end,
    or just before a character that is not a letter. *)
Definition wordBoundary {call : Call} (k : nat) : bool :=
  (k =? 0)
  || match at_ k with Some c => negb (isLetter c) | None => true end.

(** Conditions on the entries of the two queues and on the tags of a log,
    for a condition [Qe] on open tags and a condition [Ce] on closing
    tags. *)
Definition entriesOk (Qe : string -> string -> Prop) (Ce : string -> Prop)
           (st : State) : Prop :=
  Forall (fun entry => Qe (fst entry) (snd entry)) (openedQueue st)
  /\ Forall Ce (closeQueue st).

Definition pieceOk (Qe : string -> string -> Prop) (Ce : string -> Prop)
           (p : Piece) : Prop :=
  match p with
  | Opening tag other => Qe tag other
  | Closer closing => Ce closing
  | _ => True
  end.

(** * Properties *)

(** ** Facts about strings and lists *)

Lemma sapp_assoc (a b c : string) : ((a ++ b) ++ c = a ++ (b ++ c))%string.
Proof. induction a as [|x a IH]; simpl; [reflexivity | now rewrite IH]. Qed.

Lemma sapp_nil_r (a : string) : (a ++ "" = a)%string.
Proof. induction a as [|x a IH]; simpl; [reflexivity | now rewrite IH]. Qed.

Lemma join_app (xs ys : list ascii) : join (xs ++ ys) = (join xs ++ join ys)%string.
Proof. induction xs as [|x xs IH]; simpl; [reflexivity | now rewrite IH]. Qed.

Lemma slength_app (a b : string) :
  String.length (a ++ b)%string = String.length a + String.length b.
Proof. induction a as [|x a IH]; simpl; [reflexivity | now rewrite IH]. Qed.

Lemma joinAll_cons (x : string) (xs : list string) :
  joinAll (x :: xs) = (x ++ joinAll xs)%string.
Proof.
  destruct xs as [|y ys]; [simpl; now rewrite sapp_nil_r | reflexivity].
Qed.

Lemma render_app (ps qs : list Piece) :
  render (ps ++ qs) = (render ps ++ render qs)%string.
Proof.
  induction ps as [|p ps IH]; simpl; [reflexivity|].
  now rewrite IH, sapp_assoc.
Qed.

Lemma render_closers (xs : list string) : render (map Closer xs) = joinAll xs.
Proof.
  induction xs as [|x xs IH]; [reflexivity|].
  rewrite joinAll_cons, <- IH. reflexivity.
Qed.

Lemma slength_join (xs : list ascii) : String.length (join xs) = Datatypes.length xs.
Proof. induction xs as [|x xs IH]; simpl; [reflexivity | now rewrite IH]. Qed.

(** ** The loops advance *)

Lemma openTag_name_ge rest k tag c :
  k <= fst (fst (openTag_name rest k tag c)).
Proof.
  revert k tag c; induction rest as [|x rest IH]; intros k tag c; simpl.
  - lia.
  - destruct (negb (isLetter x) && negb (isNumber x)); simpl; [lia|].
    specialize (IH (S k) (tag ++ String x "")%string (Some x)); lia.
Qed.

Lemma upToGt_ge rest k acc c : k <= fst (fst (upToGt rest k acc c)).
Proof.
  revert k acc c; induction rest as [|x rest IH]; intros k acc c; simpl.
  - lia.
  - destruct (Ascii.eqb x ">"); simpl; [lia|].
    specialize (IH (S k) (acc ++ String x "")%string (Some x)); lia.
Qed.

Lemma entityLoop_ge rest k start :
  start <= k -> start <= fst (entityLoop rest k start).
Proof.
  revert k; induction rest as [|x rest IH]; intros k Hk; simpl.
  - exact Hk.
  - destruct (isWhitespace x); simpl; [lia|].
    destruct (Ascii.eqb x ";"); simpl; [lia|].
    apply IH; lia.
Qed.

Section CallFacts.

Context {call : Call}.

Lemma openTags_i onlyVoid st : i (openTags onlyVoid st) = i st.
Proof.
  unfold openTags.
  destruct (openTags_loop _ _ _ _) as [[q r] cq]; reflexivity.
Qed.

Lemma flushWord_i st : i (snd (flushWord st)) = i st.
Proof.
  unfold flushWord.
  repeat match goal with
         | |- context [if ?b then _ else _] => destruct b
         end; simpl; try reflexivity; apply openTags_i.
Qed.

(** The loop of the comment case is entered on the second ['-'] of
    ["<!--"], where its condition is already false: it makes no pass. *)
Lemma commentLoop_none fuel st :
  charIs (at_ (i st)) "-" = true -> commentLoop fuel st = Some st.
Proof.
  intros H. destruct fuel; simpl; rewrite H; reflexivity.
Qed.

Lemma tagCase_fuel fuel st : tagCase fuel st = tagCase 0 st.
Proof.
  unfold tagCase.
  destruct (charIs (at_ (i st)) "!"); [|reflexivity].
  destruct (charIs (at_ (i st + 1)) "-" && charIs (at_ (i st + 2)) "-") eqn:E;
    [|reflexivity].
  apply andb_prop in E as [_ E].
  now rewrite !commentLoop_none by exact E.
Qed.

Lemma step_fuel fuel c st : step fuel c st = step 0 c st.
Proof.
  unfold step.
  destruct (Ascii.eqb c "<"); [|reflexivity].
  destruct (flushWord st) as [[|] st1]; [apply tagCase_fuel | reflexivity].
Qed.

Lemma openTag_i st : i st <= i (snd (openTag st)).
Proof.
  unfold openTag.
  pose proof (openTag_name_ge (skipn (i st) chars) (i st) "" None) as H1.
  destruct (openTag_name _ _ _ _) as [[i1 tag] c1]; simpl in H1.
  match goal with
  | |- context [if ?b then upToGt ?r ?k ?a ?c else _] =>
      pose proof (upToGt_ge r k a c) as H2; destruct b
  end.
  - destruct (upToGt _ _ _ _) as [[i2 other] c2]; simpl in H2.
    destruct ((String.length tag =? 0) || negb (charIs c2 ">")); simpl; lia.
  - destruct ((String.length tag =? 0) || negb (charIs c1 ">")); simpl; lia.
Qed.

Lemma closeTag_i st : i st <= i (snd (closeTag st)).
Proof.
  unfold closeTag.
  pose proof (upToGt_ge (skipn (i st) chars) (i st) "" None) as H.
  destruct (upToGt _ _ _ _) as [[i1 tag] c1]; simpl in *; lia.
Qed.

Lemma addSuffix_i r st : i (snd (addSuffix r st)) = i st.
Proof.
  unfold addSuffix.
  destruct (suffix opts); [destruct (negb (suffixAdded st))|]; reflexivity.
Qed.

Lemma tagCase_i fuel st st' :
  tagCase fuel st = Continue st' -> i st <= i st'.
Proof.
  rewrite tagCase_fuel. unfold tagCase.
  destruct (charIs (at_ (i st)) "!").
  { destruct (charIs (at_ (i st + 1)) "-" && charIs (at_ (i st + 2)) "-") eqn:E.
    - apply andb_prop in E as [_ E].
      rewrite commentLoop_none by exact E.
      intros [= <-]; simpl; lia.
    - intros [= <-]; simpl; lia. }
  destruct (charIs (at_ (i st)) "/").
  { pose proof (closeTag_i (set_i (openTags false st) (i (openTags false st) + 1))) as H.
    destruct (closeTag _) as [tag st3]; simpl in H.
    rewrite openTags_i in H.
    match goal with
    | |- context [let '(a, b) := ?e in _] => destruct e as [success stack]
    end.
    destruct (negb success); [discriminate|].
    match goal with
    | |- context [if ?b then _ else _] => destruct b
    end.
    - pose proof (addSuffix_i (result (set_closeQueue st3 (rev stack)))
                              (set_closeQueue st3 (rev stack))) as H2.
      unfold addSuffixToResult.
      destruct (addSuffix _ _) as [r st4]; simpl in H2.
      intros [= <-]; simpl; lia.
    - intros [= <-]; simpl; lia. }
  pose proof (openTag_i st) as H.
  destruct (openTag st) as [[tag|] st1]; simpl in H; intros [= <-]; simpl; lia.
Qed.

Lemma step_i fuel c st st' :
  1 <= i st -> step fuel c st = Continue st' -> i st <= i st'.
Proof.
  intros Hi. unfold step.
  destruct (Ascii.eqb c "<").
  { pose proof (flushWord_i st) as H.
    destruct (flushWord st) as [[|] st1]; simpl in H; [|discriminate].
    intros E. apply tagCase_i in E. lia. }
  destruct (Ascii.eqb c "&").
  { simpl.
    pose proof (entityLoop_ge (skipn (i st) chars) (i st) (i st - 1 + 1)) as H.
    destruct (entityLoop _ _ _) as [i' [|]]; simpl in H;
      intros [= <-]; simpl; lia. }
  match goal with
  | |- context [if ?b then flushWord ?s else _] =>
      pose proof (flushWord_i s) as H; destruct b
  end.
  - destruct (flushWord _) as [[|] st1]; simpl in H; [|discriminate].
    intros [= <-]. destruct (negb (isWhitespace c)); simpl; lia.
  - intros [= <-]. destruct (negb (isWhitespace c)); simpl; lia.
Qed.

(** No pass of the main loop diverges: the only loop in it that takes fuel
    is the loop of the comment case, which makes no pass. *)
Lemma step_not_diverge fuel c st : step fuel c st <> Diverge.
Proof.
  unfold step.
  destruct (Ascii.eqb c "<").
  { destruct (flushWord st) as [[|] st1]; [|discriminate].
    unfold tagCase.
    destruct (charIs _ "!").
    { destruct (charIs _ "-" && charIs _ "-") eqn:E; [|discriminate].
      apply andb_prop in E as [_ E].
      now rewrite commentLoop_none by exact E. }
    destruct (charIs _ "/").
    { destruct (closeTag _) as [tag st3].
      match goal with
      | |- context [let '(a, b) := ?e in _] => destruct e as [success stack]
      end.
      destruct (negb success); discriminate. }
    destruct (openTag _) as [[tag|] st2]; discriminate. }
  destruct (Ascii.eqb c "&").
  { simpl. destruct (entityLoop _ _ _) as [i' [|]]; discriminate. }
  match goal with
  | |- context [if ?b then flushWord ?s else _] => destruct b
  end; [destruct (flushWord _) as [[|] st1]|]; discriminate.
Qed.

(** Every pass of [mainloop] moves [i] forward, so as many passes as the
    source has characters left are enough: the loop then ends by its
    condition, by [break] or by [throw], and more fuel changes nothing. *)
Lemma mainloop_enough fuel :
  forall st, Datatypes.length chars - i st <= fuel ->
    (forall k, mainloop (fuel + k) st = mainloop fuel st)
    /\ mainloop fuel st <> Diverge
    /\ (forall st', mainloop fuel st <> Continue st').
Proof.
  induction fuel as [|fuel IH]; intros st Hfuel.
  - assert (E : at_ (i st) = None) by (apply nth_error_None; lia).
    assert (M : forall n, mainloop n st = Break st).
    { intros [|n]; simpl; rewrite E; destruct (current st <? length)%Z; reflexivity. }
    repeat split; intros; rewrite ?M; congruence.
  - assert (M : forall n, mainloop (S n) st =
                 if (current st <? length)%Z then
                   match at_ (i st) with
                   | None => Break st
                   | Some c =>
                       match step 0 c (set_i st (i st + 1)) with
                       | Continue st' => mainloop n st'
                       | other => other
                       end
                   end
                 else Break st).
    { intros n. simpl. destruct (current st <? length)%Z; [|reflexivity].
      destruct (at_ (i st)); [|reflexivity]. now rewrite step_fuel. }
    change (S fuel + ?k) with (S (fuel + k)).
    assert (G : forall c st', step 0 c (set_i st (i st + 1)) = Continue st' ->
                              Datatypes.length chars - i st' <= fuel).
    { intros c st' E. apply step_i in E; simpl in *; lia. }
    repeat split; intros; rewrite !M.
    + destruct (current st <? length)%Z; [|reflexivity].
      destruct (at_ (i st)) as [c|]; [|reflexivity].
      destruct (step 0 c _) as [st'| | |] eqn:E; try reflexivity.
      apply IH, (G c), E.
    + destruct (current st <? length)%Z; [|discriminate].
      destruct (at_ (i st)) as [c|]; [|discriminate].
      destruct (step 0 c _) as [st'| | |] eqn:E; try discriminate.
      * apply IH, (G c), E.
      * now apply step_not_diverge in E.
    + destruct (current st <? length)%Z; [|discriminate].
      destruct (at_ (i st)) as [c|]; [|discriminate].
      destruct (step 0 c _) as [st1| | |] eqn:E; try discriminate.
      apply IH, (G c), E.
Qed.

End CallFacts.

(** ** The log is what is written *)

Section LogSound.

Context {call : Call}.

Lemma openTags_loop_sound onlyVoid queue :
  forall r cq,
    snd (fst (openTags_loop onlyVoid queue r cq))
    = (r ++ render (openTags_log onlyVoid queue))%string.
Proof.
  induction queue as [|[tag other] queue IH]; intros r cq; simpl.
  - now rewrite sapp_nil_r.
  - destruct (onlyVoid && negb (isVoidTag tag || charIs (lastChar other) "/")).
    + simpl. now rewrite sapp_nil_r.
    + rewrite IH. cbn [render render1]. now rewrite sapp_assoc.
Qed.

Lemma openTags_result onlyVoid st :
  result (openTags onlyVoid st)
  = (result st ++ render (openTags_log onlyVoid (openedQueue st)))%string.
Proof.
  unfold openTags.
  pose proof (openTags_loop_sound onlyVoid (openedQueue st) (result st)
                                  (closeQueue st)) as H.
  destruct (openTags_loop _ _ _ _) as [[q r] cq]; exact H.
Qed.

Lemma openTags_frame onlyVoid st :
  current (openTags onlyVoid st) = current st
  /\ cw (openTags onlyVoid st) = cw st
  /\ cwEmpty (openTags onlyVoid st) = cwEmpty st
  /\ suffixAdded (openTags onlyVoid st) = suffixAdded st.
Proof.
  unfold openTags.
  destruct (openTags_loop _ _ _ _) as [[q r] cq]; repeat split.
Qed.

Lemma flushWord_false st st' : flushWord st = (false, st') -> st' = st.
Proof.
  unfold flushWord.
  repeat match goal with
         | |- context [if ?b then _ else _] => destruct b
         end; congruence.
Qed.

(** What a successful [flushWord] does to a word that is not empty: it
    writes the queued open tags, moves [n] characters from the front of
    [cw] to [result] and counts them; [n] is the whole word without
    [breakWords], and what the budget allows with it. *)
Lemma flushWord_true st st' :
  flushWord st = (true, st') ->
  (cw st = [] /\ st' = st)
  \/ (exists n,
        1 <= n <= Datatypes.length (cw st)
        /\ (Z.of_nat n <= length - current st)%Z
        /\ (if breakWords opts
            then Z.of_nat n = Z.min (length - current st)
                                    (Z.of_nat (Datatypes.length (cw st)))
            else n = Datatypes.length (cw st))
        /\ result st' = (result (openTags false st)
                         ++ join (firstn n (cw st)))%string
        /\ current st' = (current st + Z.of_nat n)%Z
        /\ cw st' = skipn n (cw st)
        /\ cwEmpty st' = cwEmpty st
        /\ suffixAdded st' = suffixAdded st
        /\ i st' = i st
        /\ openedQueue st' = openedQueue (openTags false st)
        /\ closeQueue st' = closeQueue (openTags false st)).
Proof.
  unfold flushWord.
  destruct (openTags_frame false st) as (Ec & Ew & Ee & Es).
  pose proof (openTags_i false st) as Ei.
  destruct (breakWords opts).
  - destruct (Datatypes.length (cw st) =? 0) eqn:E0.
    { intros [= <-]. left. apply Nat.eqb_eq in E0.
      now destruct (cw st). }
    apply Nat.eqb_neq in E0.
    set (addable := Z.max (Z.min (length - current st)
                                 (Z.of_nat (Datatypes.length (cw st)))) 0).
    destruct (addable =? 0)%Z eqn:Ea; [discriminate|].
    apply Z.eqb_neq in Ea.
    intros [= <-]. right. exists (Z.to_nat addable).
    assert (Hp : (0 < addable)%Z) by (unfold addable in *; lia).
    simpl. rewrite Ec, Ew, Ee, Es, Ei.
    repeat split; try reflexivity; unfold addable in *; lia.
  - destruct (Datatypes.length (cw st) =? 0) eqn:E0.
    { intros [= <-]. left. apply Nat.eqb_eq in E0.
      now destruct (cw st). }
    apply Nat.eqb_neq in E0.
    destruct (current st + Z.of_nat (Datatypes.length (cw st)) <=? length)%Z eqn:El;
      [|discriminate].
    apply Z.leb_le in El.
    intros [= <-]. right. exists (Datatypes.length (cw st)).
    simpl. rewrite Ec, Ew, Ee, Es, Ei.
    rewrite firstn_all, skipn_all.
    repeat split; try reflexivity; lia.
Qed.

Lemma addSuffix_sound r st :
  fst (addSuffix r st) = (r ++ render (addSuffix_log st))%string.
Proof.
  unfold addSuffix, addSuffix_log.
  destruct (suffix opts) as [sfx|]; [destruct (negb (suffixAdded st))|];
    simpl; now rewrite ?sapp_nil_r.
Qed.

End LogSound.

(** ** From state to state *)

Lemma suffixCount_app ps qs :
  suffixCount (ps ++ qs) = suffixCount ps + suffixCount qs.
Proof. unfold suffixCount. now rewrite filter_app, length_app. Qed.

Lemma noDrops_app ps qs : noDrops (ps ++ qs) = noDrops ps && noDrops qs.
Proof. apply forallb_app. Qed.

Lemma sapp_inj_r (a b c : string) : (a ++ c = b ++ c)%string -> a = b.
Proof.
  revert b; induction a as [|x a IH]; intros [|y b] H; simpl in H.
  - reflexivity.
  - apply (f_equal String.length) in H. simpl in H.
    rewrite slength_app in H. lia.
  - apply (f_equal String.length) in H. simpl in H.
    rewrite slength_app in H. lia.
  - injection H as -> H. f_equal. now apply IH.
Qed.

Lemma closingOf_inj a b : closingOf a = closingOf b -> a = b.
Proof.
  unfold closingOf. simpl. intros [= H]. now apply sapp_inj_r in H.
Qed.

Lemma popSearch_In stack closing :
  fst (popSearch stack closing) = true <-> In closing stack.
Proof.
  induction stack as [|top below IH]; simpl.
  - split; [discriminate | tauto].
  - destruct (String.eqb top closing) eqn:E.
    + apply String.eqb_eq in E. simpl. tauto.
    + apply String.eqb_neq in E. rewrite IH. tauto.
Qed.

Section Extends.

Context {call : Call}.

Lemma extends_same st st' :
  result st' = result st -> closeQueue st' = closeQueue st ->
  suffixAdded st' = suffixAdded st -> extends st [] st'.
Proof.
  intros Hr Hq Hs. unfold extends. rewrite Hr, Hq, Hs. simpl.
  rewrite sapp_nil_r. repeat split.
  intros _ stack H. now exists stack.
Qed.

Lemma extends_refl st : extends st [] st.
Proof. now apply extends_same. Qed.

Lemma extends_trans st1 ps st2 qs st3 :
  extends st1 ps st2 -> extends st2 qs st3 -> extends st1 (ps ++ qs) st3.
Proof.
  intros (Hr1 & Hb1 & Hs1) (Hr2 & Hb2 & Hs2). repeat split.
  - now rewrite Hr2, Hr1, render_app, sapp_assoc.
  - rewrite noDrops_app. intros [Hn1 Hn2]%andb_prop stack Hstack.
    destruct (Hb1 Hn1 stack Hstack) as (stack2 & Hstack2 & Hbal1).
    destruct (Hb2 Hn2 stack2 Hstack2) as (stack3 & Hstack3 & Hbal2).
    exists stack3. split; [exact Hstack3|].
    intros rest. now rewrite <- app_assoc, Hbal1, Hbal2.
  - rewrite suffixCount_app. lia.
Qed.

Lemma extends_pre st1 st2 ps st3 :
  extends st1 [] st2 -> extends st2 ps st3 -> extends st1 ps st3.
Proof. intros H1 H2. exact (extends_trans _ _ _ _ _ H1 H2). Qed.

Lemma extends_post st1 ps st2 st3 :
  extends st1 ps st2 -> extends st2 [] st3 -> extends st1 ps st3.
Proof.
  intros H1 H2. rewrite <- (app_nil_r ps). exact (extends_trans _ _ _ _ _ H1 H2).
Qed.

(** Text, and the rest of an entity, leave the open elements as they
    are. *)
Lemma extends_plain st p s :
  p = Text s \/ p = EntityRest s -> extends st [p] (emit st s).
Proof.
  intros Hp. repeat split.
  - destruct Hp as [-> | ->]; simpl; now rewrite sapp_nil_r.
  - intros _ stack Hstack. exists stack. split; [exact Hstack|].
    intros qs. destruct Hp as [-> | ->]; reflexivity.
  - destruct Hp as [-> | ->]; reflexivity.
Qed.

Lemma openTags_loop_extends onlyVoid queue :
  forall r cq stack,
    rev cq = map closingOf stack ->
    exists stack',
      rev (snd (openTags_loop onlyVoid queue r cq)) = map closingOf stack'
      /\ forall qs, balancedFrom stack (openTags_log onlyVoid queue ++ qs)
                    = balancedFrom stack' qs.
Proof.
  induction queue as [|[tag other] queue IH]; intros r cq stack Hstack; simpl.
  - now exists stack.
  - destruct (onlyVoid && negb (isVoidTag tag || charIs (lastChar other) "/")).
    + now exists stack.
    + change (negb (isVoidTag tag || isOptionalVoidTag tag
                      || charIs (lastChar other) "/"))
        with (closable tag other).
      destruct (closable tag other) eqn:Ec.
      * destruct (IH (r ++ String "<" (tag ++ other ++ ">"))%string
                     (cq ++ [closingOf tag]) (tag :: stack))
          as (stack' & H1 & H2).
        { rewrite rev_app_distr. simpl. now rewrite Hstack. }
        exists stack'. split; [exact H1|].
        intros qs. simpl. rewrite Ec. apply H2.
      * destruct (IH (r ++ String "<" (tag ++ other ++ ">"))%string cq stack Hstack)
          as (stack' & H1 & H2).
        exists stack'. split; [exact H1|].
        intros qs. simpl. rewrite Ec. apply H2.
Qed.

Lemma suffixCount_openTags_log onlyVoid queue :
  suffixCount (openTags_log onlyVoid queue) = 0.
Proof.
  induction queue as [|[tag other] queue IH]; simpl; [reflexivity|].
  now destruct (onlyVoid && negb (isVoidTag tag || charIs (lastChar other) "/")).
Qed.

Lemma openTags_extends onlyVoid st :
  extends st (openTags_log onlyVoid (openedQueue st)) (openTags onlyVoid st).
Proof.
  repeat split.
  - apply openTags_result.
  - intros _ stack Hstack.
    destruct (openTags_loop_extends onlyVoid (openedQueue st) (result st)
                (closeQueue st) stack Hstack) as (stack' & H1 & H2).
    exists stack'. split; [|exact H2].
    unfold openTags.
    destruct (openTags_loop _ _ _ _) as [[q r] cq]; exact H1.
  - rewrite suffixCount_openTags_log.
    now destruct (openTags_frame onlyVoid st) as (_ & _ & _ & ->).
Qed.

Lemma flushWord_extends st :
  extends st (flushWord_log st) (snd (flushWord st)).
Proof.
  unfold flushWord_log.
  destruct (flushWord st) as [[|] st'] eqn:E; simpl.
  - destruct (flushWord_true _ _ E)
      as [[Hw ->] | (n & Hn & _ & _ & Hr & _ & Hc & _ & Hs & _ & _ & Hq)].
    + rewrite Hw. apply extends_refl.
    + destruct (Datatypes.length (cw st) =? 0) eqn:E0.
      { apply Nat.eqb_eq in E0. lia. }
      rewrite Hc, length_skipn.
      replace (Datatypes.length (cw st) - (Datatypes.length (cw st) - n)) with n by lia.
      apply extends_trans with (st2 := openTags false st).
      * apply openTags_extends.
      * destruct (extends_plain (openTags false st) (Text (join (firstn n (cw st))))
                    (join (firstn n (cw st))) (or_introl eq_refl)) as (H1 & H2 & H3).
        destruct (openTags_frame false st) as (_ & _ & _ & Hs').
        unfold extends. rewrite Hr, Hq, Hs. simpl in *.
        rewrite Hs' in *. repeat split; assumption.
  - apply flushWord_false in E as ->. apply extends_refl.
Qed.

Lemma addSuffix_extends st :
  extends st (addSuffix_log st) (addSuffixToResult st).
Proof.
  unfold addSuffixToResult, addSuffix, addSuffix_log.
  destruct (suffix opts) as [sfx|].
  - destruct (suffixAdded st) eqn:Es; simpl.
    + apply extends_same; reflexivity.
    + repeat split; simpl.
      * now rewrite sapp_nil_r.
      * intros _ stack Hstack. now exists stack.
      * now rewrite Es.
  - apply extends_same; reflexivity.
Qed.

Lemma addSuffix_commute st q :
  addSuffixToResult (set_closeQueue st q)
  = set_closeQueue (addSuffixToResult st) q.
Proof.
  unfold addSuffixToResult, addSuffix.
  destruct (suffix opts) as [sfx|]; [|reflexivity].
  cbn [suffixAdded set_closeQueue].
  destruct (negb (suffixAdded st)); reflexivity.
Qed.

Lemma addSuffix_closeQueue st :
  closeQueue (addSuffixToResult st) = closeQueue st.
Proof.
  unfold addSuffixToResult, addSuffix.
  destruct (suffix opts) as [sfx|]; [|reflexivity].
  destruct (negb (suffixAdded st)); reflexivity.
Qed.

(** The closing tag of the source: the search in [closeQueue], then the
    tag itself. *)
Lemma closing_extends st tag :
  let found :=
    if haveToHaveClosingTag tag
    then popSearch (rev (closeQueue st)) (closingOf tag)
    else (true, rev (closeQueue st)) in
  let dropped :=
    if haveToHaveClosingTag tag
    then popDropped (rev (closeQueue st)) (closingOf tag)
    else [] in
  fst found = true ->
  extends st [Closing tag dropped]
          (emit (set_closeQueue st (rev (snd found))) (closingOf tag)).
Proof.
  intros found dropped Hfound. repeat split.
  - simpl. now rewrite sapp_nil_r.
  - simpl. intros Hdrop stack Hstack. subst found dropped.
    destruct (haveToHaveClosingTag tag) eqn:Eh; simpl in *.
    + rewrite Hstack in *.
      destruct stack as [|top below]; cbn [popSearch popDropped map fst snd] in *;
        [discriminate|].
      destruct (String.eqb (closingOf top) (closingOf tag)) eqn:E;
        [|discriminate].
      apply String.eqb_eq, closingOf_inj in E as ->.
      exists below. split.
      * apply rev_involutive.
      * intros qs. cbn [app balancedFrom]. rewrite ?Eh, String.eqb_refl. reflexivity.
    + exists stack. split.
      * now rewrite rev_involutive.
      * intros qs. cbn [app balancedFrom]. now rewrite ?Eh.
Qed.

Lemma openTag_frame st :
  result (snd (openTag st)) = result st
  /\ closeQueue (snd (openTag st)) = closeQueue st
  /\ suffixAdded (snd (openTag st)) = suffixAdded st
  /\ current (snd (openTag st)) = current st
  /\ openedQueue (snd (openTag st)) = openedQueue st.
Proof.
  unfold openTag.
  destruct (openTag_name _ _ _ _) as [[i1 tag] c1].
  match goal with
  | |- context [if ?b then upToGt ?r ?k ?a ?c else _] => destruct b
  end.
  - destruct (upToGt _ _ _ _) as [[i2 other] c2].
    destruct ((String.length tag =? 0) || negb (charIs c2 ">")); repeat split.
  - destruct ((String.length tag =? 0) || negb (charIs c1 ">")); repeat split.
Qed.

Lemma closeTag_frame st : snd (closeTag st) = set_i st (i (snd (closeTag st))).
Proof.
  unfold closeTag. now destruct (upToGt _ _ _ _) as [[i1 tag] c1].
Qed.

Lemma tagCase_extends fuel st st' :
  tagCase fuel st = Continue st' -> extends st (tagCase_log st) st'.
Proof.
  rewrite tagCase_fuel. unfold tagCase, tagCase_log.
  destruct (charIs (at_ (i st)) "!").
  { destruct (charIs (at_ (i st + 1)) "-" && charIs (at_ (i st + 2)) "-") eqn:E.
    - apply andb_prop in E as [_ E].
      rewrite commentLoop_none by exact E.
      intros [= <-]. now apply extends_same.
    - intros [= <-].
      apply (extends_trans st [] (set_current st (current st + 1))).
      + now apply extends_same.
      + apply extends_plain. now left. }
  destruct (charIs (at_ (i st)) "/"); cycle 1.
  { destruct (openTag_frame st) as (Hr & Hq & Hs & _).
    destruct (openTag st) as [[tag|] st1]; simpl in *;
      intros [= <-]; now apply extends_same. }
  set (st1 := openTags false st).
  pose proof (closeTag_frame (set_i st1 (i st1 + 1))) as Hc.
  destruct (closeTag (set_i st1 (i st1 + 1))) as [tag st3]. simpl in Hc.
  pose proof (closing_extends st3 tag) as Hclose. cbv zeta in Hclose.
  destruct (if haveToHaveClosingTag tag
            then popSearch (rev (closeQueue st3)) (closingOf tag)
            else (true, rev (closeQueue st3))) as [success stack] eqn:Ef.
  destruct success; [|discriminate]. simpl negb. cbv iota.
  simpl in Hclose. specialize (Hclose eq_refl).
  assert (H13 : extends st1 [] st3) by (rewrite Hc; now apply extends_same).
  intros [= <-].
  apply (extends_trans st _ st1); [apply openTags_extends|].
  apply (extends_trans st1 [] st3 _ _ H13).
  change (current (set_closeQueue st3 (rev stack))) with (current st3).
  destruct ((length <=? current st3)%Z && shouldEncloseSuffixInTags opts);
    [|exact Hclose].
  rewrite addSuffix_commute.
  apply (extends_trans st3 _ (addSuffixToResult st3)); [apply addSuffix_extends|].
  pose proof (closing_extends (addSuffixToResult st3) tag) as Hclose'.
  cbv zeta in Hclose'.
  rewrite addSuffix_closeQueue, Ef in Hclose'. now apply Hclose'.
Qed.

Lemma tagCase_not_break fuel st st' : tagCase fuel st <> Break st'.
Proof.
  rewrite tagCase_fuel. unfold tagCase.
  destruct (charIs (at_ (i st)) "!").
  { destruct (charIs _ "-" && charIs _ "-") eqn:E; [|discriminate].
    apply andb_prop in E as [_ E].
    now rewrite commentLoop_none by exact E. }
  destruct (charIs (at_ (i st)) "/").
  { destruct (closeTag _) as [tag st3].
    match goal with
    | |- context [let '(a, b) := ?e in _] => destruct e as [success stack]
    end.
    destruct (negb success); discriminate. }
  destruct (openTag st) as [[tag|] st1]; discriminate.
Qed.

Lemma step_extends fuel c st st' :
  step fuel c st = Continue st' \/ step fuel c st = Break st' ->
  extends st (step_log c st) st'.
Proof.
  unfold step, step_log.
  destruct (Ascii.eqb c "<").
  { pose proof (flushWord_extends st) as Hf.
    destruct (flushWord st) as [[|] st1] eqn:E; simpl in Hf.
    - intros [H | H]; [|now apply tagCase_not_break in H].
      apply (extends_trans st _ st1 _ _ Hf). now apply tagCase_extends in H.
    - apply flushWord_false in E as ->. intros [[=] | [= <-]].
      apply extends_refl. }
  destruct (Ascii.eqb c "&").
  { cbv zeta. cbn [i emit set_current set_result].
    assert (H1 : extends st [Text "&"]
                         (set_current (emit st "&") (current (emit st "&") + 1))).
    { apply (extends_post st _ (emit st "&")).
      - apply extends_plain. now left.
      - now apply extends_same. }
    destruct (entityLoop _ _ _) as [i' [|]]; (intros [[= <-] | [=]]).
    - apply (extends_trans _ [Text "&"] _ [EntityRest _] _ H1).
      eapply extends_pre; [|apply extends_plain; now right].
      now apply extends_same.
    - apply (extends_post _ _ _ _ H1). now apply extends_same. }
  destruct (negb (isLetter c) && negb (cwEmpty st)).
  - pose proof (flushWord_extends (set_cwEmpty st true)) as Hf.
    destruct (flushWord (set_cwEmpty st true)) as [[|] st1] eqn:E; simpl in Hf.
    + intros [[= <-] | [=]].
      apply (extends_pre st (set_cwEmpty st true)); [now apply extends_same|].
      apply (extends_post _ _ st1 _ Hf).
      destruct (negb (isWhitespace c)); now apply extends_same.
    + apply flushWord_false in E as ->. intros [[=] | [= <-]].
      apply (extends_pre st (set_cwEmpty st true)); [now apply extends_same|].
      exact Hf.
  - intros [[= <-] | [=]].
    destruct (negb (isWhitespace c)); now apply extends_same.
Qed.

Lemma mainloop_extends fuel :
  forall st st', mainloop fuel st = Break st' ->
                 extends st (mainloop_log fuel st) st'.
Proof.
  induction fuel as [|fuel IH]; intros st st'; simpl.
  - destruct (current st <? length)%Z; [destruct (at_ (i st))|];
      intros [= <-]; apply extends_refl.
  - destruct (current st <? length)%Z; [destruct (at_ (i st)) as [c|]|];
      try (intros [= <-]; apply extends_refl).
    pose proof (step_extends fuel c (set_i st (i st + 1))) as Hs.
    destruct (step fuel c (set_i st (i st + 1))) as [st1|st1| |];
      try discriminate.
    + intros H. apply IH in H.
      apply (extends_pre st (set_i st (i st + 1))); [now apply extends_same|].
      apply (extends_trans _ _ st1); [apply Hs; now left | exact H].
    + intros [= <-]. rewrite app_nil_r.
      apply (extends_pre st (set_i st (i st + 1))); [now apply extends_same|].
      apply Hs; now right.
Qed.

(** *** The statements after the loop *)

Lemma noDrops_openTags_log onlyVoid queue :
  noDrops (openTags_log onlyVoid queue) = true.
Proof.
  induction queue as [|[tag other] queue IH]; simpl; [reflexivity|].
  now destruct (onlyVoid && negb (isVoidTag tag || charIs (lastChar other) "/")).
Qed.

Lemma noDrops_flushWord_log st : noDrops (flushWord_log st) = true.
Proof.
  unfold flushWord_log.
  destruct (flushWord st) as [[|] st']; [|reflexivity].
  destruct (Datatypes.length (cw st) =? 0); [reflexivity|].
  now rewrite noDrops_app, noDrops_openTags_log.
Qed.

Lemma suffixCount_flushWord_log st : suffixCount (flushWord_log st) = 0.
Proof.
  unfold flushWord_log.
  destruct (flushWord st) as [[|] st']; [|reflexivity].
  destruct (Datatypes.length (cw st) =? 0); [reflexivity|].
  now rewrite suffixCount_app, suffixCount_openTags_log.
Qed.

Lemma balancedFrom_closers stack qs :
  balancedFrom stack (map Closer (map closingOf stack) ++ qs)
  = balancedFrom [] qs.
Proof.
  induction stack as [|top below IH]; [reflexivity|].
  cbn [map app balancedFrom]. now rewrite String.eqb_refl, IH.
Qed.

Lemma balancedFrom_addSuffix_log stack st qs :
  balancedFrom stack (addSuffix_log st ++ qs) = balancedFrom stack qs.
Proof.
  unfold addSuffix_log.
  destruct (suffix opts) as [sfx|]; [destruct (negb (suffixAdded st))|];
    reflexivity.
Qed.

Lemma suffixCount_addSuffix_log st :
  suffixCount (addSuffix_log st) + flag (suffixAdded st)
  = match suffix opts with Some _ => 1 | None => flag (suffixAdded st) end.
Proof.
  unfold addSuffix_log.
  destruct (suffix opts) as [sfx|]; [destruct (suffixAdded st)|]; reflexivity.
Qed.

(** The part of [finish] before the closing tags: the void tags of the
    queue and the last word. *)
Lemma finish_extends st :
  extends st (openTags_log true (openedQueue st)
              ++ flushWord_log (openTags true st))
          (snd (flushWord (openTags true st))).
Proof.
  eapply extends_trans; [apply openTags_extends | apply flushWord_extends].
Qed.

Lemma finish_log_eq st :
  finish_log st
  = (openTags_log true (openedQueue st) ++ flushWord_log (openTags true st))
    ++ (let st2 := snd (flushWord (openTags true st)) in
        let closers := map Closer (rev (closeQueue st2)) in
        let suffix := if fst (flushWord (openTags true st)) then []
                      else addSuffix_log st2 in
        if shouldEncloseSuffixInTags opts
        then suffix ++ closers else closers ++ suffix).
Proof.
  unfold finish_log.
  destruct (flushWord (openTags true st)) as [flushed st2]. cbv zeta.
  now rewrite <- app_assoc.
Qed.

Lemma finish_sound st :
  finish st = (result st ++ render (finish_log st))%string.
Proof.
  rewrite finish_log_eq, render_app, <- sapp_assoc.
  destruct (finish_extends st) as (<- & _).
  unfold finish, getResultWithSuffixBeforeClosingTags,
    getResultWithSuffixAfterClosingTags.
  destruct (flushWord (openTags true st)) as [flushed st2]. cbv zeta.
  cbn [fst snd closeQueue result set_closeQueue].
  destruct (shouldEncloseSuffixInTags opts), flushed;
    rewrite ?joinAll_cons, ?addSuffix_sound, ?render_app, ?render_closers;
    cbn [render]; rewrite ?sapp_nil_r, ?sapp_assoc; reflexivity.
Qed.

Lemma finish_balanced st stack :
  rev (closeQueue st) = map closingOf stack ->
  balancedFrom stack (finish_log st) = true.
Proof.
  intros Hstack. rewrite finish_log_eq.
  destruct (finish_extends st) as (_ & Hb & _).
  destruct (Hb (eq_trans (noDrops_app _ _)
                 (f_equal2 andb (noDrops_openTags_log _ _)
                                (noDrops_flushWord_log _))) stack Hstack)
    as (stack' & Hstack' & Hbal).
  rewrite Hbal. cbv zeta. rewrite Hstack'.
  destruct (shouldEncloseSuffixInTags opts).
  - destruct (fst (flushWord (openTags true st)));
      cbn [app]; rewrite ?balancedFrom_addSuffix_log;
      rewrite <- (app_nil_r (map Closer _)); now rewrite balancedFrom_closers.
  - rewrite balancedFrom_closers.
    destruct (fst (flushWord (openTags true st))); [reflexivity|].
    rewrite <- (app_nil_r (addSuffix_log _)).
    now rewrite balancedFrom_addSuffix_log.
Qed.

Lemma suffixCount_closers xs : suffixCount (map Closer xs) = 0.
Proof. induction xs as [|x xs IH]; [reflexivity | exact IH]. Qed.

(** The suffix is written by [finish] when the last [flushWord] fails, a
    suffix is configured and the latch is not set. *)
Lemma finish_suffix st :
  suffixCount (finish_log st) + flag (suffixAdded st)
  = if fst (flushWord (openTags true st))
    then flag (suffixAdded st)
    else match suffix opts with Some _ => 1 | None => flag (suffixAdded st) end.
Proof.
  rewrite finish_log_eq, !suffixCount_app, suffixCount_openTags_log,
    suffixCount_flushWord_log.
  destruct (finish_extends st) as (_ & _ & Hs).
  rewrite suffixCount_app, suffixCount_openTags_log, suffixCount_flushWord_log in Hs.
  cbv zeta.
  assert (E : forall a b, suffixCount (if shouldEncloseSuffixInTags opts
                                       then a ++ b else b ++ a)
                          = suffixCount a + suffixCount b).
  { intros a b. destruct (shouldEncloseSuffixInTags opts);
      rewrite suffixCount_app; lia. }
  rewrite E, suffixCount_closers.
  pose proof (suffixCount_addSuffix_log (snd (flushWord (openTags true st)))) as Ha.
  destruct (fst (flushWord (openTags true st))).
  - change (suffixCount []) with 0. lia.
  - destruct (suffix opts); lia.
Qed.

End Extends.

(** ** The call as a whole *)

Section Whole.

Context {call : Call}.

Lemma passes_reachable n :
  forall st st', reachable st -> passes n st = Some st' -> reachable st'.
Proof.
  induction n as [|n IH]; intros st st' Hst; simpl.
  - now intros [= <-].
  - destruct (current st <? length)%Z eqn:Eg; [|discriminate].
    destruct (at_ (i st)) as [c|] eqn:Ec; [|discriminate].
    destruct (step 0 c (set_i st (i st + 1))) as [st1| | |] eqn:Es;
      try discriminate.
    apply IH. exact (reach_pass st c 0 st1 Hst Eg Ec Es).
Qed.

(** From every state the scan passes through, the loop ends as it does
    from the start. *)
Lemma reachable_mainloop st :
  reachable st ->
  mainloop (Datatypes.length chars) st
  = mainloop (Datatypes.length chars) initial.
Proof.
  induction 1 as [|st c fuel st' Hst IH Eg Ec Es]; [reflexivity|].
  rewrite <- IH.
  assert (Hi : i st < Datatypes.length chars)
    by (apply nth_error_Some; unfold at_ in Ec; congruence).
  destruct (Datatypes.length chars) as [|n] eqn:En; [lia|].
  rewrite step_fuel in Es.
  assert (Hi' : i st + 1 <= i st').
  { apply step_i in Es; simpl in *; lia. }
  destruct (mainloop_enough n st') as (Hk & _); [lia|].
  specialize (Hk 1). rewrite Nat.add_1_r in Hk. rewrite Hk.
  simpl. rewrite Eg, Ec, step_fuel, Es. reflexivity.
Qed.

Lemma closeTag_closeQueue st : closeQueue (snd (closeTag st)) = closeQueue st.
Proof. rewrite closeTag_frame. reflexivity. Qed.

Lemma tagCase_throw fuel st tag offset :
  tagCase fuel st = Throw tag offset <->
  charIs (at_ (i st)) "/" = true
  /\ tag = fst (closeTag (set_i (openTags false st) (i st + 1)))
  /\ offset = i st - 1
  /\ haveToHaveClosingTag tag = true
  /\ ~ In (closingOf tag) (closeQueue (openTags false st)).
Proof.
  rewrite tagCase_fuel. unfold tagCase.
  destruct (charIs (at_ (i st)) "!") eqn:E1.
  { assert (E2 : charIs (at_ (i st)) "/" = false).
    { destruct (at_ (i st)) as [x|]; [|reflexivity].
      simpl in E1. apply Ascii.eqb_eq in E1 as ->. reflexivity. }
    rewrite E2. split; [|intros (H & _); discriminate].
    destruct (charIs _ "-" && charIs _ "-") eqn:E; [|discriminate].
    apply andb_prop in E as [_ E].
    now rewrite commentLoop_none by exact E. }
  destruct (charIs (at_ (i st)) "/") eqn:E2; cycle 1.
  { split; [|intros (H & _); discriminate].
    destruct (openTag st) as [[t|] st1]; discriminate. }
  rewrite (openTags_i false st).
  pose proof (closeTag_closeQueue (set_i (openTags false st) (i st + 1))) as Hq.
  destruct (closeTag (set_i (openTags false st) (i st + 1))) as [t st3].
  simpl in Hq. simpl fst. rewrite Hq.
  destruct (haveToHaveClosingTag t) eqn:Eh.
  - pose proof (popSearch_In (rev (closeQueue (openTags false st))) (closingOf t))
      as Hin.
    rewrite <- in_rev in Hin.
    destruct (popSearch _ _) as [success stack]. simpl in Hin.
    destruct success; simpl.
    + split; [discriminate|].
      intros (_ & -> & _ & _ & Hn). exfalso. apply Hn, Hin. reflexivity.
    + split.
      * intros [= <- <-]. repeat split; try assumption.
        intros H. apply Hin in H. discriminate.
      * intros (_ & -> & -> & _). reflexivity.
  - simpl. split; [discriminate|].
    intros (_ & -> & _ & H & _). congruence.
Qed.

Lemma step_throw fuel c st tag offset :
  step fuel c st = Throw tag offset <->
  c = "<"%char
  /\ exists st1, flushWord st = (true, st1) /\ tagCase 0 st1 = Throw tag offset.
Proof.
  rewrite step_fuel. unfold step.
  destruct (Ascii.eqb c "<") eqn:E.
  - apply Ascii.eqb_eq in E as ->.
    destruct (flushWord st) as [[|] st1].
    + split; [intros H; split; [reflexivity | now exists st1]|].
      intros (_ & st2 & [= <-] & H). exact H.
    + split; [discriminate|]. intros (_ & st2 & [=] & _).
  - apply Ascii.eqb_neq in E.
    split; [|intros (-> & _); congruence].
    destruct (Ascii.eqb c "&").
    { simpl. destruct (entityLoop _ _ _) as [i' [|]]; discriminate. }
    match goal with
    | |- context [if ?b then flushWord ?s else _] => destruct b
    end; [destruct (flushWord _) as [[|] st1]|]; discriminate.
Qed.

Lemma unmatchedClosing_throws st tag :
  reachable st -> unmatchedClosingAt st tag ->
  mainloop (Datatypes.length chars) initial = Throw tag (i st).
Proof.
  intros Hst (Eg & Ec & Ec' & st1 & Hf & Htag & Hh & Hn).
  rewrite <- (reachable_mainloop st Hst).
  assert (Hi : i st < Datatypes.length chars)
    by (apply nth_error_Some; unfold at_ in Ec; congruence).
  destruct (Datatypes.length chars) as [|n]; [lia|].
  simpl. rewrite Eg, Ec.
  assert (Hi1 : i st1 = i st + 1).
  { pose proof (flushWord_i (set_i st (i st + 1))) as H.
    rewrite Hf in H. exact H. }
  assert (Es : step n "<" (set_i st (i st + 1)) = Throw tag (i st)).
  { apply step_throw. split; [reflexivity|]. exists st1. split; [exact Hf|].
    apply tagCase_throw. rewrite Hi1, Ec'.
    replace (i st + 1 + 1) with (i st + 2) by lia.
    repeat split; try assumption; lia. }
  now rewrite Es.
Qed.

Lemma throw_unmatchedClosing fuel tag offset :
  forall st, reachable st -> mainloop fuel st = Throw tag offset ->
    exists st', reachable st' /\ unmatchedClosingAt st' tag /\ offset = i st'.
Proof.
  induction fuel as [|fuel IH]; intros st Hst; simpl.
  - destruct (current st <? length)%Z; [destruct (at_ (i st))|]; discriminate.
  - destruct (current st <? length)%Z eqn:Eg; [|discriminate].
    destruct (at_ (i st)) as [c|] eqn:Ec; [|discriminate].
    destruct (step fuel c (set_i st (i st + 1))) as [st1|st1|t o|] eqn:Es;
      try discriminate.
    + apply IH. exact (reach_pass st c fuel st1 Hst Eg Ec Es).
    + intros [= -> ->]. exists st.
      apply step_throw in Es as (-> & st1 & Hf & Ht).
      apply tagCase_throw in Ht as (Hc & Htag & Ho & Hh & Hn).
      assert (Hi1 : i st1 = i st + 1).
      { pose proof (flushWord_i (set_i st (i st + 1))) as H.
        rewrite Hf in H. exact H. }
      rewrite Hi1 in *.
      replace (i st + 1 + 1) with (i st + 2) in Htag by lia.
      split; [exact Hst|]. split; [|lia].
      repeat split; try assumption.
      * destruct (at_ (i st + 1)) as [x|]; [|discriminate].
        simpl in Hc. apply Ascii.eqb_eq in Hc as ->. reflexivity.
      * exists st1. repeat split; assumption.
Qed.

Lemma run_returns fuel out :
  run fuel = Returns out ->
  exists st, mainloop fuel initial = Break st /\ out = finish st.
Proof.
  unfold run.
  destruct (mainloop fuel initial) as [st|st| |]; try discriminate.
  intros [= <-]. now exists st.
Qed.

Lemma run_log_sound fuel out :
  run fuel = Returns out -> out = render (run_log fuel).
Proof.
  intros (st & Hm & ->)%run_returns. unfold run_log. rewrite Hm.
  destruct (mainloop_extends _ _ _ Hm) as (Hr & _).
  rewrite finish_sound, Hr, render_app. reflexivity.
Qed.

Lemma run_balanced fuel out :
  run fuel = Returns out ->
  noDrops (run_log fuel) = true -> balanced (run_log fuel) = true.
Proof.
  intros (st & Hm & ->)%run_returns. unfold run_log, balanced. rewrite Hm.
  rewrite noDrops_app. intros [Hn _]%andb_prop.
  destruct (mainloop_extends _ _ _ Hm) as (_ & Hb & _).
  destruct (Hb Hn [] eq_refl) as (stack & Hstack & Hbal).
  rewrite Hbal. now apply finish_balanced.
Qed.

Lemma run_suffixCount fuel st :
  mainloop fuel initial = Break st ->
  suffixCount (run_log fuel)
  = if fst (flushWord (openTags true st))
    then flag (suffixAdded st)
    else match suffix opts with Some _ => 1 | None => flag (suffixAdded st) end.
Proof.
  intros Hm. unfold run_log. rewrite Hm, suffixCount_app.
  destruct (mainloop_extends _ _ _ Hm) as (_ & _ & Hs). simpl in Hs.
  pose proof (finish_suffix st) as Hf.
  destruct (fst (flushWord (openTags true st))); [lia|].
  destruct (suffix opts); lia.
Qed.

(** *** An entity reference *)

Lemma entityLoop_found name rest k start :
  forallb (fun x => negb (isWhitespace x)) name = true ->
  ~ In ";"%char name ->
  entityLoop (name ++ ";"%char :: rest) k start
  = (k + Datatypes.length name + 1, true).
Proof.
  revert k; induction name as [|x name IH]; intros k Hws Hsemi; simpl.
  - f_equal. lia.
  - simpl in Hws. apply andb_prop in Hws as [Hx Hws].
    apply negb_true_iff in Hx. rewrite Hx.
    destruct (Ascii.eqb x ";") eqn:E.
    + apply Ascii.eqb_eq in E. exfalso. apply Hsemi. now left.
    + rewrite IH; [f_equal; lia | exact Hws |].
      intros H. apply Hsemi. now right.
Qed.

Lemma entity_pass st name rest :
  (current st <? length)%Z = true ->
  skipn (i st) chars = "&"%char :: name ++ ";"%char :: rest ->
  forallb (fun x => negb (isWhitespace x)) name = true ->
  ~ In ";"%char name ->
  passes 1 st
  = Some (emit (set_i (set_current (emit (set_i st (i st + 1)) "&")
                                   (current st + 1))
                      (i st + Datatypes.length name + 2))
               (join (name ++ [";"%char]))).
Proof.
  intros Eg Hskip Hws Hsemi.
  assert (Ec : at_ (i st) = Some "&"%char).
  { unfold at_. now rewrite <- hd_error_skipn, Hskip. }
  assert (Hskip' : skipn (i st + 1) chars = name ++ ";"%char :: rest).
  { rewrite Nat.add_comm, <- skipn_skipn, Hskip. reflexivity. }
  simpl. rewrite Eg, Ec. unfold step. simpl Ascii.eqb. cbv iota zeta.
  cbn [i emit set_current set_result set_i].
  rewrite Hskip', (entityLoop_found name rest _ _ Hws Hsemi).
  unfold slice.
  replace (i st + 1 - 1 + 1) with (i st + 1) by lia.
  rewrite Hskip'.
  replace (i st + 1 + Datatypes.length name + 1 - (i st + 1))
    with (Datatypes.length (name ++ [";"%char]))
    by (rewrite length_app; simpl; lia).
  change (name ++ ";"%char :: rest) with (name ++ [";"%char] ++ rest).
  rewrite app_assoc, firstn_app, firstn_all, Nat.sub_diag. simpl firstn.
  rewrite app_nil_r.
  replace (i st + 1 + Datatypes.length name + 1)
    with (i st + Datatypes.length name + 2) by lia.
  reflexivity.
Qed.

Lemma flushWord_false_inv st st' :
  flushWord st = (false, st') ->
  st' = st /\ cw st <> []
  /\ (if breakWords opts then (length <= current st)%Z
      else (length < current st + Z.of_nat (Datatypes.length (cw st)))%Z).
Proof.
  intros H. pose proof (flushWord_false _ _ H) as ->.
  split; [reflexivity|]. revert H. unfold flushWord.
  destruct (breakWords opts).
  - destruct (Datatypes.length (cw st) =? 0) eqn:E0; [discriminate|].
    apply Nat.eqb_neq in E0.
    destruct (Z.max _ _ =? 0)%Z eqn:Ea; [|discriminate].
    apply Z.eqb_eq in Ea. intros _. split; [|lia].
    intros Hw. rewrite Hw in E0. now apply E0.
  - destruct (Datatypes.length (cw st) =? 0) eqn:E0; [discriminate|].
    apply Nat.eqb_neq in E0.
    destruct (_ <=? length)%Z eqn:El; [discriminate|].
    apply Z.leb_gt in El. intros _. split; [|lia].
    intros Hw. rewrite Hw in E0. now apply E0.
Qed.

(** *** A dropped entry unbalances the markup *)

Lemma dropsFail_none st ps : noDrops ps = true -> dropsFail st ps.
Proof. intros H1 H2. congruence. Qed.

Lemma dropsFail_trans st1 ps st2 qs :
  extends st1 ps st2 -> dropsFail st1 ps -> dropsFail st2 qs ->
  dropsFail st1 (ps ++ qs).
Proof.
  intros (_ & Hb & _) H1 H2 Hn stack Hstack rest.
  rewrite <- app_assoc.
  destruct (noDrops ps) eqn:Ep.
  - destruct (Hb eq_refl stack Hstack) as (stack' & Hstack' & Hbal).
    rewrite Hbal. apply H2; [|exact Hstack'].
    rewrite noDrops_app, Ep in Hn. exact Hn.
  - now apply H1.
Qed.

Lemma noDrops_addSuffix_log st : noDrops (addSuffix_log st) = true.
Proof.
  unfold addSuffix_log.
  destruct (suffix opts); [destruct (negb (suffixAdded st))|]; reflexivity.
Qed.

Lemma popDropped_head stack closing d ds :
  popDropped stack closing = d :: ds ->
  exists below, stack = d :: below /\ d <> closing.
Proof.
  destruct stack as [|top below]; simpl; [discriminate|].
  destruct (String.eqb top closing) eqn:E; [discriminate|].
  apply String.eqb_neq in E. intros [= -> _]. now exists below.
Qed.

Lemma closing_dropsFail st tag cq :
  closeQueue st = cq ->
  dropsFail st [Closing tag (if haveToHaveClosingTag tag
                             then popDropped (rev cq) (closingOf tag)
                             else [])].
Proof.
  intros <- Hn stack Hstack qs. simpl in Hn.
  destruct (haveToHaveClosingTag tag) eqn:Eh; [|discriminate].
  destruct (popDropped _ _) as [|d ds] eqn:Hd; [discriminate|].
  apply popDropped_head in Hd as (below & Hs & Hne).
  rewrite Hstack in Hs.
  destruct stack as [|top rest]; [discriminate|].
  simpl in Hs. injection Hs as Htop _.
  cbn [app balancedFrom]. rewrite Eh.
  destruct (String.eqb top tag) eqn:E; [|reflexivity].
  apply String.eqb_eq in E. subst top. now rewrite Htop in Hne.
Qed.

Lemma tagCase_dropsFail st : dropsFail st (tagCase_log st).
Proof.
  unfold tagCase_log.
  destruct (charIs (at_ (i st)) "!").
  { apply dropsFail_none.
    now destruct (charIs _ "-" && charIs _ "-"). }
  destruct (charIs (at_ (i st)) "/"); [|now apply dropsFail_none].
  pose proof (closeTag_closeQueue
                (set_i (openTags false st) (i (openTags false st) + 1))) as Hq.
  pose proof (closeTag_frame
                (set_i (openTags false st) (i (openTags false st) + 1))) as Hc.
  destruct (closeTag _) as [tag st3]. simpl in Hq, Hc.
  apply (dropsFail_trans st _ (openTags false st)).
  - apply openTags_extends.
  - apply dropsFail_none, noDrops_openTags_log.
  - destruct ((length <=? current st3)%Z && shouldEncloseSuffixInTags opts).
    + apply (dropsFail_trans _ _ (addSuffixToResult (openTags false st))).
      * replace (addSuffix_log st3) with (addSuffix_log (openTags false st))
          by (rewrite Hc; reflexivity).
        apply addSuffix_extends.
      * apply dropsFail_none, noDrops_addSuffix_log.
      * apply closing_dropsFail. now rewrite addSuffix_closeQueue.
    + now apply closing_dropsFail.
Qed.

Lemma step_dropsFail c st : dropsFail st (step_log c st).
Proof.
  unfold step_log.
  destruct (Ascii.eqb c "<").
  { pose proof (flushWord_extends st) as Hf.
    destruct (flushWord st) as [[|] st1]; [|now apply dropsFail_none].
    apply (dropsFail_trans st _ st1 _ Hf).
    - apply dropsFail_none, noDrops_flushWord_log.
    - apply tagCase_dropsFail. }
  destruct (Ascii.eqb c "&").
  { apply dropsFail_none.
    now destruct (entityLoop _ _ _) as [i' [|]]. }
  apply dropsFail_none.
  destruct (negb (isLetter c) && negb (cwEmpty st));
    [apply noDrops_flushWord_log | reflexivity].
Qed.

Lemma mainloop_dropsFail fuel : forall st, dropsFail st (mainloop_log fuel st).
Proof.
  induction fuel as [|fuel IH]; intros st; simpl.
  - apply dropsFail_none.
    now destruct (current st <? length)%Z; [destruct (at_ (i st))|].
  - destruct (current st <? length)%Z; [|now apply dropsFail_none].
    destruct (at_ (i st)) as [c|]; [|now apply dropsFail_none].
    intros Hn stack Hstack qs.
    pose proof (step_dropsFail c (set_i st (i st + 1))) as Hstep.
    pose proof (step_extends fuel c (set_i st (i st + 1))) as Hext.
    destruct (step fuel c (set_i st (i st + 1))) as [st1|st1| |].
    + apply (dropsFail_trans _ _ st1 _ (Hext st1 (or_introl eq_refl)) Hstep
                             (IH st1) Hn stack Hstack).
    + rewrite app_nil_r in Hn |- *. now apply Hstep.
    + rewrite app_nil_r in Hn |- *. now apply Hstep.
    + rewrite app_nil_r in Hn |- *. now apply Hstep.
Qed.

Lemma noDrops_finish_log st : noDrops (finish_log st) = true.
Proof.
  rewrite finish_log_eq, !noDrops_app, noDrops_openTags_log,
    noDrops_flushWord_log.
  cbv zeta.
  assert (Hc : forall xs, noDrops (map Closer xs) = true)
    by (induction xs; [reflexivity | assumption]).
  destruct (shouldEncloseSuffixInTags opts);
    destruct (fst (flushWord (openTags true st)));
    now rewrite noDrops_app, ?Hc, ?noDrops_addSuffix_log.
Qed.

(** When the call returns, the markup written is balanced exactly when no
    closing tag of the source dropped an entry of [closeQueue]. *)
Lemma run_balanced_iff fuel out :
  run fuel = Returns out ->
  balanced (run_log fuel) = noDrops (run_log fuel).
Proof.
  intros Hout. destruct (noDrops (run_log fuel)) eqn:Hn.
  - exact (run_balanced _ _ Hout Hn).
  - destruct (run_returns _ _ Hout) as (st & Hm & _).
    unfold run_log, balanced in *. rewrite Hm in *.
    apply (mainloop_dropsFail fuel initial); [|reflexivity].
    rewrite noDrops_app, noDrops_finish_log, andb_true_r in Hn. exact Hn.
Qed.

End Whole.

(** ** Sources without markup *)

Lemma firstn_snoc {A : Type} (xs : list A) (k : nat) (x : A) :
  nth_error xs k = Some x -> firstn (k + 1) xs = firstn k xs ++ [x].
Proof.
  revert k; induction xs as [|y xs IH]; intros [|k]; simpl; try discriminate.
  - now intros [= ->].
  - intros H. f_equal. now apply IH.
Qed.

Section PlainText.

Context {call : Call}.

Lemma openTags_empty onlyVoid st :
  openedQueue st = [] ->
  result (openTags onlyVoid st) = result st
  /\ openedQueue (openTags onlyVoid st) = []
  /\ closeQueue (openTags onlyVoid st) = closeQueue st.
Proof.
  intros H. unfold openTags. rewrite H. repeat split.
Qed.

(** One pass over a plain character, with [breakWords]: it cannot fail,
    and the invariant goes on. *)
Lemma plain_pass fuel st c :
  breakWords opts = true ->
  plainInv st ->
  (current st <? length)%Z = true ->
  at_ (i st) = Some c ->
  isPlain c = true ->
  exists st', step fuel c (set_i st (i st + 1)) = Continue st' /\ plainInv st'.
Proof.
  intros Hbw (Hres & Hcur & Hle & Hoq & Hcq & Hsa & Hce & Hi) Eg Ec Hc.
  apply Z.ltb_lt in Eg.
  unfold isPlain in Hc. apply andb_prop in Hc as [Hlt Hamp].
  apply negb_true_iff in Hlt, Hamp.
  assert (Hi' : i st < Datatypes.length chars)
    by (apply nth_error_Some; unfold at_ in Ec; congruence).
  assert (Hnext : forall r w,
             (r ++ join w)%string = join (firstn (i st) chars) ->
             (r ++ join (w ++ [c]))%string = join (firstn (i st + 1) chars)).
  { intros r w H. rewrite (firstn_snoc _ _ _ Ec), !join_app, <- sapp_assoc.
    now rewrite H. }
  unfold step. rewrite Hlt, Hamp.
  set (st0 := set_i st (i st + 1)).
  change (cwEmpty st0) with (cwEmpty st).
  destruct (negb (isLetter c) && negb (cwEmpty st)) eqn:Eflush.
  - apply andb_prop in Eflush as [_ Hne]. apply negb_true_iff in Hne.
    destruct (flushWord (set_cwEmpty st0 true)) as [[|] st1] eqn:Ef.
    + destruct (flushWord_true _ _ Ef)
        as [[Hw _] | (n & Hn & Hb & Hm & Hr & Hc' & Hw & He & Hs & Hi1 & Hq1 & Hq2)].
      { exfalso. now apply (Hce Hne). }
      destruct (openTags_empty false (set_cwEmpty st0 true) Hoq) as (Ho1 & Ho2 & Ho3).
      simpl in Hn, Hb, Hr, Hc', Hw, He, Hs, Hi1, Hq1, Hq2, Ho1, Ho2, Ho3.
      rewrite Ho1 in Hr. rewrite Ho2 in Hq1. rewrite Ho3 in Hq2.
      eexists. split; [reflexivity|].
      assert (Hinv : (result st1 ++ join (cw st1 ++ [c]))%string
                     = join (firstn (i st + 1) chars)).
      { apply Hnext. rewrite Hr, Hw, sapp_assoc, <- join_app, firstn_skipn.
        exact Hres. }
      assert (Hcur1 : current st1 = Z.of_nat (String.length (result st1))).
      { rewrite Hc', Hr, slength_app, slength_join, length_firstn, Hcur. lia. }
      destruct (negb (isWhitespace c));
        (repeat split; simpl; rewrite ?Hi1; try assumption; try congruence;
         try lia; try (intros _ H; now destruct (cw st1))).
    + apply flushWord_false_inv in Ef as (_ & _ & Hb).
      rewrite Hbw in Hb. simpl in Hb. lia.
  - eexists. split; [reflexivity|].
    destruct (negb (isWhitespace c));
      (repeat split; simpl; try assumption; try lia;
       try (now apply Hnext);
       try (intros _ H; now destruct (cw st))).
Qed.

Lemma plain_mainloop fuel :
  breakWords opts = true ->
  forallb isPlain chars = true ->
  forall st,
    plainInv st ->
    match mainloop fuel st with
    | Break st' =>
        plainInv st'
        /\ ((length <= current st')%Z \/ i st' = Datatypes.length chars)
    | Diverge => True
    | _ => False
    end.
Proof.
  intros Hbw Hplain.
  assert (Hend : forall st, plainInv st -> at_ (i st) = None ->
                            i st = Datatypes.length chars).
  { intros st (_ & _ & _ & _ & _ & _ & _ & Hi) Ec.
    apply nth_error_None in Ec. lia. }
  induction fuel as [|fuel IH]; intros st Hinv; simpl.
  - destruct (current st <? length)%Z eqn:Eg.
    + destruct (at_ (i st)) as [c|] eqn:Ec; [exact I|].
      split; [exact Hinv|]. right. now apply Hend.
    + split; [exact Hinv|]. left. now apply Z.ltb_ge.
  - destruct (current st <? length)%Z eqn:Eg.
    + destruct (at_ (i st)) as [c|] eqn:Ec.
      * assert (Hc : isPlain c = true).
        { rewrite forallb_forall in Hplain. apply Hplain.
          exact (nth_error_In _ _ Ec). }
        destruct (plain_pass fuel st c Hbw Hinv Eg Ec Hc) as (st1 & -> & Hinv1).
        now apply IH.
      * split; [exact Hinv|]. right. now apply Hend.
    + split; [exact Hinv|]. left. now apply Z.ltb_ge.
Qed.

Lemma join_inj (xs ys : list ascii) : join xs = join ys -> xs = ys.
Proof.
  intros H. apply (f_equal list_ascii_of_string) in H.
  unfold join in H. now rewrite !list_ascii_of_string_of_list_ascii in H.
Qed.

(** The part of the source read so far, cut after [m] characters of the
    pending word. *)
Lemma firstn_read (rl w : list ascii) (k m : nat) :
  rl ++ w = firstn k chars ->
  m <= Datatypes.length w ->
  firstn (Datatypes.length rl + m) chars = rl ++ firstn m w.
Proof.
  intros H Hm.
  rewrite <- (firstn_skipn k chars), <- H, <- app_assoc, firstn_app_2.
  f_equal. rewrite firstn_app.
  replace (m - Datatypes.length w) with 0 by lia.
  simpl. apply app_nil_r.
Qed.

(** The statements after the loop, for a source without markup: the
    returned string is the first [length] characters of the source, or
    the whole source when it is shorter, followed by nothing or by the
    suffix; the suffix is there only when the source is longer than
    [length]. *)
Lemma plain_finish st :
  breakWords opts = true ->
  (0 <= length)%Z ->
  plainInv st ->
  (length <= current st)%Z \/ i st = Datatypes.length chars ->
  exists tail,
    finish st = (join (firstn (Z.to_nat length) chars) ++ tail)%string
    /\ (tail = ""
        \/ ((length < Z.of_nat (Datatypes.length chars))%Z
            /\ exists sfx, suffix opts = Some sfx /\ tail = suffixText sfx)).
Proof.
  intros Hbw Hlen (Hres & Hcur & Hle & Hoq & Hcq & Hsa & Hce & Hi) Hexit.
  set (rl := list_ascii_of_string (result st)).
  assert (Hrl : result st = join rl)
    by (unfold join, rl; now rewrite string_of_list_ascii_of_string).
  assert (Hlrl : Datatypes.length rl = String.length (result st))
    by (now rewrite Hrl, slength_join).
  assert (Hparts : rl ++ cw st = firstn (i st) chars).
  { apply join_inj. now rewrite join_app, <- Hrl. }
  assert (Hsum : Datatypes.length rl + Datatypes.length (cw st) = i st).
  { apply (f_equal (@Datatypes.length ascii)) in Hparts.
    rewrite length_app, length_firstn in Hparts. lia. }
  destruct (openTags_empty true st Hoq) as (Ho1 & Ho2 & Ho3).
  destruct (openTags_frame true st) as (Hf1 & Hf2 & Hf3 & Hf4).
  unfold finish, getResultWithSuffixBeforeClosingTags,
    getResultWithSuffixAfterClosingTags.
  destruct (flushWord (openTags true st)) as [[|] st2] eqn:Ef; cbv zeta;
    cbn [closeQueue result set_closeQueue].
  - exists "". split; [|now left]. rewrite sapp_nil_r.
    assert (Hq : closeQueue st2 = [] /\
                 result st2 = join (firstn (Z.to_nat length) chars)).
    { destruct (flushWord_true _ _ Ef)
        as [[Hw ->] | (n & Hn & Hb & Hm & Hr & Hc' & _ & _ & _ & _ & _ & Hq2)].
      - rewrite Ho3, Ho1, Hrl. split; [exact Hcq|]. f_equal.
        rewrite Hf2 in Hw. rewrite Hw, app_nil_r in Hparts.
        rewrite Hw in Hsum. simpl in Hsum.
        destruct Hexit as [Hx | Hx].
        + replace (Z.to_nat length) with (i st) by lia. exact Hparts.
        + rewrite Hparts, Hx, firstn_all, firstn_all2; [reflexivity | lia].
      - destruct (openTags_empty false (openTags true st) Ho2) as (Hp1 & _ & Hp3).
        rewrite Hf1, Hf2 in *. rewrite Hbw in Hm.
        rewrite Hq2, Hp3, Ho3. split; [exact Hcq|].
        rewrite Hr, Hp1, Ho1, Hrl, <- join_app. f_equal.
        destruct Hexit as [Hx | Hx]; [lia|].
        rewrite <- (firstn_read rl (cw st) (i st) n Hparts) by lia.
        rewrite Hx, firstn_all in Hparts.
        destruct (Z.min_spec (length - current st)
                             (Z.of_nat (Datatypes.length (cw st))))
          as [[_ Hmin] | [_ Hmin]].
        + f_equal. lia.
        + rewrite !firstn_all2; [reflexivity | lia | lia]. }
    destruct Hq as [-> ->].
    destruct (shouldEncloseSuffixInTags opts); reflexivity.
  - apply flushWord_false_inv in Ef as (-> & Hw & Hb).
    rewrite Hbw in Hb. rewrite Hf1 in Hb. rewrite Hf2 in Hw.
    assert (Hr : result (openTags true st)
                 = join (firstn (Z.to_nat length) chars)).
    { rewrite Ho1, Hrl. f_equal.
      pose proof (firstn_read rl (cw st) (i st) 0 Hparts) as Hfr.
      simpl in Hfr. rewrite app_nil_r in Hfr. rewrite <- Hfr by lia.
      f_equal. lia. }
    assert (Hcut : (length < Z.of_nat (Datatypes.length chars))%Z).
    { destruct (cw st); [congruence | simpl in Hsum; lia]. }
    rewrite Ho3, Hcq. simpl rev.
    unfold addSuffix. cbn [suffixAdded set_closeQueue]. rewrite Hf4, Hsa.
    destruct (suffix opts) as [sfx|].
    + exists (suffixText sfx). split.
      * destruct (shouldEncloseSuffixInTags opts); unfold joinAll; simpl;
          now rewrite Hr.
      * right. split; [exact Hcut|]. now exists sfx.
    + exists "". split; [|now left].
      destruct (shouldEncloseSuffixInTags opts); unfold joinAll; simpl;
        now rewrite Hr, sapp_nil_r.
Qed.

(** X15.  For a source without ['<'] and ['&'], a length that is not
    negative and [breakWords], the call returns the first [min length
    chars.length] characters of the source, followed by nothing or by one
    copy of the suffix; the suffix is there only when the source is longer
    than [length]. *)
Theorem plain_text_prefix :
  forallb isPlain chars = true ->
  (0 <= length)%Z ->
  breakWords opts = true ->
  exists tail,
    html_substring_of call
    = Returns (join (firstn (Z.to_nat length) chars) ++ tail)%string
    /\ (tail = ""
        \/ ((length < Z.of_nat (Datatypes.length chars))%Z
            /\ exists sfx, suffix opts = Some sfx /\ tail = suffixText sfx)).
Proof.
  intros Hplain Hlen Hbw.
  assert (Hinit : plainInv initial).
  { repeat split; simpl; try lia; discriminate. }
  pose proof (plain_mainloop (Datatypes.length chars) Hbw Hplain initial Hinit)
    as Hloop.
  destruct (mainloop_enough (Datatypes.length chars) initial) as (_ & Hd & _);
    [simpl; lia|].
  unfold html_substring_of, run.
  destruct (mainloop (Datatypes.length chars) initial) as [st|st|t o|];
    try contradiction.
  destruct Hloop as [Hinv Hexit].
  destruct (plain_finish st Hbw Hlen Hinv Hexit) as (tail & -> & Htail).
  now exists tail.
Qed.

End PlainText.

(** ** Balance and dropped entries *)

(** X16.  When [html_substring] returns, the markup it wrote is balanced
    exactly when no closing tag of the source dropped an entry of [closeQueue]. *)
Theorem balanced_iff_no_drops
        (voidHtmlTags : list string) (source : string) (length : Z)
        (options : Options) (out : string) :
  html_substring voidHtmlTags source length options = Returns out ->
  html_substring_balanced voidHtmlTags source length options
  = noDrops (html_substring_log voidHtmlTags source length options).
Proof.
  unfold html_substring, html_substring_log, html_substring_balanced,
    html_substring_of, html_substring_log_of.
  apply run_balanced_iff.
Qed.

(** ** The comment case *)

(** X17.  On ["<!--"] the case of the comment copies and counts nothing:
    it leaves [result] and [current] as they are and moves [i] from the ['!']
    to the second character after the ["--"]. *)
Lemma comment_case {call : Call} (fuel : nat) (st : State) :
  charIs (at_ (i st)) "!" = true ->
  charIs (at_ (i st + 1)) "-" = true ->
  charIs (at_ (i st + 2)) "-" = true ->
  exists st',
    tagCase fuel st = Continue st'
    /\ result st' = result st
    /\ current st' = current st
    /\ i st' = i st + 4.
Proof.
  intros H1 H2 H3. unfold tagCase. rewrite H1, H2, H3. simpl andb. cbv iota.
  rewrite commentLoop_none by exact H3.
  eexists. split; [reflexivity|]. repeat split. simpl. lia.
Qed.

(** ** The places at which the pending word is flushed *)

Section FlushSites.

Context {call : Call}.

(** Whether [flushWord] succeeds depends on the pending word and on
    [current] only. *)
Lemma flushWord_decision st st' :
  cw st = cw st' -> current st = current st' ->
  fst (flushWord st) = fst (flushWord st').
Proof.
  intros Hw Hc. unfold flushWord. rewrite Hw, Hc.
  repeat match goal with
         | |- context [if ?b then _ else _] => destruct b
         end; reflexivity.
Qed.

Lemma flushWord_log_failed st : fst (flushWord st) = false -> flushWord_log st = [].
Proof.
  unfold flushWord_log. now destruct (flushWord st) as [[|] st'].
Qed.

Lemma tagOrSuffix_openTags_log onlyVoid queue :
  forallb tagOrSuffix (openTags_log onlyVoid queue) = true.
Proof.
  induction queue as [|[tag other] queue IH]; simpl; [reflexivity|].
  now destruct (onlyVoid && negb (isVoidTag tag || charIs (lastChar other) "/")).
Qed.

Lemma tagOrSuffix_addSuffix_log st :
  forallb tagOrSuffix (addSuffix_log st) = true.
Proof.
  unfold addSuffix_log.
  destruct (suffix opts); [destruct (negb (suffixAdded st))|]; reflexivity.
Qed.

Lemma tagOrSuffix_closers xs : forallb tagOrSuffix (map Closer xs) = true.
Proof. induction xs as [|x xs IH]; [reflexivity | exact IH]. Qed.

(** What the statements after the loop write behind the pending word. *)
Lemma tagOrSuffix_after_word (flushed : bool) st2 :
  forallb tagOrSuffix
    (let closers := map Closer (rev (closeQueue st2)) in
     let suffix := if flushed then [] else addSuffix_log st2 in
     if shouldEncloseSuffixInTags opts
     then suffix ++ closers else closers ++ suffix) = true.
Proof.
  cbv zeta.
  destruct (shouldEncloseSuffixInTags opts), flushed;
    rewrite forallb_app, ?tagOrSuffix_closers, ?tagOrSuffix_addSuffix_log;
    reflexivity.
Qed.

(** The pass that begins in a state of the loop, in a call that returns:
    it ends the pass, and [result] is a front part of the returned string,
    or it leaves the loop. *)
Lemma pass_outcome st c out :
  reachable st ->
  (current st <? length)%Z = true ->
  at_ (i st) = Some c ->
  html_substring_of call = Returns out ->
  (exists st', step 0 c (set_i st (i st + 1)) = Continue st'
               /\ exists post, out = (result st' ++ post)%string)
  \/ (exists st', step 0 c (set_i st (i st + 1)) = Break st'
                  /\ out = finish st').
Proof.
  intros Hst Eg Ec (stf & Hm & ->)%run_returns.
  rewrite <- (reachable_mainloop _ Hst) in Hm.
  assert (Hi : i st < Datatypes.length chars)
    by (apply nth_error_Some; unfold at_ in Ec; congruence).
  destruct (Datatypes.length chars) as [|n] eqn:En; [lia|].
  assert (M : mainloop (S n) st
              = match step 0 c (set_i st (i st + 1)) with
                | Continue st' => mainloop n st'
                | other => other
                end).
  { simpl. rewrite Eg, Ec, step_fuel. reflexivity. }
  rewrite M in Hm.
  destruct (step 0 c (set_i st (i st + 1))) as [st'|st'|t o|];
    try discriminate.
  - left. exists st'. split; [reflexivity|].
    destruct (mainloop_extends _ _ _ Hm) as (Hres & _).
    rewrite finish_sound, Hres. eexists. apply sapp_assoc.
  - right. exists st'. split; [reflexivity|]. now injection Hm as <-.
Qed.

(** The statements after the loop, when [flushWord] fails. *)
Lemma finish_failed st :
  fst (flushWord st) = false ->
  exists tail,
    finish st = (result st ++ render tail)%string
    /\ forallb tagOrSuffix tail = true.
Proof.
  intros Hf.
  destruct (openTags_frame true st) as (Hc & Hw & _).
  assert (Hf' : fst (flushWord (openTags true st)) = false).
  { rewrite <- Hf. now apply flushWord_decision. }
  rewrite finish_sound, finish_log_eq, (flushWord_log_failed _ Hf'), app_nil_r.
  eexists. split; [reflexivity|].
  now rewrite forallb_app, tagOrSuffix_openTags_log, tagOrSuffix_after_word.
Qed.

(** A [flushWord] of the call that succeeds: what it leaves in [result]
    is a front part of the returned string. *)
Lemma flushWordAt_success st0 st1 out :
  flushWordAt st0 ->
  html_substring_of call = Returns out ->
  flushWord st0 = (true, st1) ->
  exists post, out = (result st1 ++ post)%string.
Proof.
  intros [st Hst Eg Ec | st c Hst Eg Ec Hc Hl He | st Hm] Hout Hf.
  - destruct (pass_outcome st _ out Hst Eg Ec Hout)
      as [(st' & Hs & post & ->) | (st' & Hs & _)];
      unfold step in Hs; simpl Ascii.eqb in Hs; cbv iota in Hs;
      rewrite Hf in Hs.
    + apply tagCase_extends in Hs as (Hr & _).
      rewrite Hr. eexists. apply sapp_assoc.
    + now apply tagCase_not_break in Hs.
  - unfold isPlain in Hc. apply andb_prop in Hc as [Hlt Hamp].
    apply negb_true_iff in Hlt, Hamp.
    destruct (pass_outcome st _ out Hst Eg Ec Hout)
      as [(st' & Hs & post & ->) | (st' & Hs & _)];
      unfold step in Hs; rewrite Hlt, Hamp in Hs;
      change (cwEmpty (set_i st (i st + 1))) with (cwEmpty st) in Hs;
      rewrite Hl, He in Hs; simpl andb in Hs; cbv iota in Hs;
      rewrite Hf in Hs.
    + injection Hs as <-. exists post.
      now destruct (negb (isWhitespace c)).
    + discriminate.
  - apply run_returns in Hout as (stf & Hm' & ->).
    rewrite Hm in Hm'. injection Hm' as <-.
    pose proof (flushWord_extends (openTags true st)) as (Hr & _).
    rewrite Hf in Hr. simpl snd in Hr.
    rewrite finish_sound, finish_log_eq, !render_app.
    rewrite Hr, openTags_result. eexists. now rewrite !sapp_assoc.
Qed.

(** A [flushWord] of the call that fails: the call writes no text any
    more, only queued void tags, the suffix and the closing tags. *)
Lemma flushWordAt_failure st0 out :
  flushWordAt st0 ->
  html_substring_of call = Returns out ->
  fst (flushWord st0) = false ->
  exists tail,
    out = (result st0 ++ render tail)%string
    /\ forallb tagOrSuffix tail = true.
Proof.
  intros [st Hst Eg Ec | st c Hst Eg Ec Hc Hl He | st Hm] Hout Hf.
  - destruct (flushWord (set_i st (i st + 1))) as [flushed st1] eqn:Ef.
    simpl in Hf. subst flushed. pose proof (flushWord_false _ _ Ef) as ->.
    destruct (pass_outcome st _ out Hst Eg Ec Hout)
      as [(st' & Hs & _) | (st' & Hs & ->)];
      unfold step in Hs; simpl Ascii.eqb in Hs; cbv iota in Hs;
      rewrite Ef in Hs; [discriminate|].
    injection Hs as <-. apply finish_failed. now rewrite Ef.
  - unfold isPlain in Hc. apply andb_prop in Hc as [Hlt Hamp].
    apply negb_true_iff in Hlt, Hamp.
    destruct (flushWord (set_cwEmpty (set_i st (i st + 1)) true))
      as [flushed st1] eqn:Ef.
    simpl in Hf. subst flushed. pose proof (flushWord_false _ _ Ef) as ->.
    destruct (pass_outcome st _ out Hst Eg Ec Hout)
      as [(st' & Hs & _) | (st' & Hs & ->)];
      unfold step in Hs; rewrite Hlt, Hamp in Hs;
      change (cwEmpty (set_i st (i st + 1))) with (cwEmpty st) in Hs;
      rewrite Hl, He in Hs; simpl andb in Hs; cbv iota in Hs;
      rewrite Ef in Hs; [discriminate|].
    injection Hs as <-. apply finish_failed. now rewrite Ef.
  - apply run_returns in Hout as (stf & Hm' & ->).
    rewrite Hm in Hm'. injection Hm' as <-.
    rewrite finish_sound, finish_log_eq, (flushWord_log_failed _ Hf),
      app_nil_r, render_app, <- sapp_assoc, <- openTags_result.
    eexists. split; [reflexivity|]. rewrite Hf.
    apply (tagOrSuffix_after_word false).
Qed.

(** *** All the text of the output *)

Lemma textFromWords_openTags_log onlyVoid queue :
  Forall textFromWords (openTags_log onlyVoid queue).
Proof.
  induction queue as [|[tag other] queue IH]; simpl; [constructor|].
  destruct (onlyVoid && negb (isVoidTag tag || charIs (lastChar other) "/"));
    constructor; [exact I | exact IH].
Qed.

Lemma textFromWords_addSuffix_log st : Forall textFromWords (addSuffix_log st).
Proof.
  unfold addSuffix_log.
  destruct (suffix opts); [destruct (negb (suffixAdded st))|];
    repeat constructor.
Qed.

Lemma textFromWords_closers xs : Forall textFromWords (map Closer xs).
Proof. induction xs as [|x xs IH]; constructor; [exact I | exact IH]. Qed.

Lemma textFromWords_tagCase_log st : Forall textFromWords (tagCase_log st).
Proof.
  unfold tagCase_log.
  destruct (charIs (at_ (i st)) "!").
  { destruct (charIs (at_ (i st + 1)) "-" && charIs (at_ (i st + 2)) "-");
      [constructor|].
    constructor; [|constructor]. simpl. right. now left. }
  destruct (charIs (at_ (i st)) "/"); [|constructor].
  destruct (closeTag _) as [tag st3].
  apply Forall_app. split; [apply textFromWords_openTags_log|].
  apply Forall_app. split.
  - destruct ((length <=? current st3)%Z && shouldEncloseSuffixInTags opts);
      [apply textFromWords_addSuffix_log | constructor].
  - repeat constructor.
Qed.

(** What a [flushWord()] of the call writes. *)
Lemma textFromWords_flushWord_log st0 :
  flushWordAt st0 -> Forall textFromWords (flushWord_log st0).
Proof.
  intros Hat. unfold flushWord_log.
  destruct (flushWord st0) as [[|] st1] eqn:Ef; [|constructor].
  destruct (Datatypes.length (cw st0) =? 0) eqn:E0; [constructor|].
  apply Nat.eqb_neq in E0.
  destruct (flushWord_true _ _ Ef)
    as [[Hw _] | (n & Hn & Hb & Hm & _ & _ & Hcw & _)].
  { rewrite Hw in E0. now elim E0. }
  apply Forall_app. split; [apply textFromWords_openTags_log|].
  constructor; [|constructor].
  rewrite Hcw, length_skipn.
  replace (Datatypes.length (cw st0) - (Datatypes.length (cw st0) - n))
    with n by lia.
  simpl. right. right. exists st0. split; [exact Hat|].
  split; [intros Hw; rewrite Hw in E0; now elim E0|].
  destruct (breakWords opts).
  - exists n. repeat split; [exact Hm | lia].
  - subst n. rewrite firstn_all. split; [reflexivity | lia].
Qed.

Lemma textFromWords_step_log st c :
  reachable st ->
  (current st <? length)%Z = true ->
  at_ (i st) = Some c ->
  Forall textFromWords (step_log c (set_i st (i st + 1))).
Proof.
  intros Hst Eg Ec. unfold step_log.
  destruct (Ascii.eqb c "<") eqn:Elt.
  { apply Ascii.eqb_eq in Elt. subst c.
    pose proof (textFromWords_flushWord_log _ (flush_before_tag st Hst Eg Ec))
      as Hf.
    destruct (flushWord (set_i st (i st + 1))) as [[|] st1]; [|constructor].
    apply Forall_app. split; [exact Hf | apply textFromWords_tagCase_log]. }
  destruct (Ascii.eqb c "&") eqn:Eamp.
  { destruct (entityLoop _ _ _) as [i' [|]].
    - constructor; [simpl; now left|]. constructor; [exact I | constructor].
    - constructor; [simpl; now left | constructor]. }
  change (cwEmpty (set_i st (i st + 1))) with (cwEmpty st).
  destruct (negb (isLetter c) && negb (cwEmpty st)) eqn:Eflush;
    [|constructor].
  apply andb_prop in Eflush as [Hl He]. apply negb_true_iff in Hl, He.
  apply textFromWords_flushWord_log.
  apply (flush_behind_word st c Hst Eg Ec); [|exact Hl | exact He].
  unfold isPlain. now rewrite Elt, Eamp.
Qed.

Lemma textFromWords_mainloop_log fuel :
  forall st, reachable st -> Forall textFromWords (mainloop_log fuel st).
Proof.
  induction fuel as [|fuel IH]; intros st Hst; simpl.
  - destruct (current st <? length)%Z; [destruct (at_ (i st))|]; constructor.
  - destruct (current st <? length)%Z eqn:Eg; [|constructor].
    destruct (at_ (i st)) as [c|] eqn:Ec; [|constructor].
    apply Forall_app. split; [now apply textFromWords_step_log|].
    destruct (step fuel c (set_i st (i st + 1))) as [st'| | |] eqn:Es;
      try constructor.
    apply IH. exact (reach_pass st c fuel st' Hst Eg Ec Es).
Qed.

Lemma textFromWords_finish_log st :
  mainloop (Datatypes.length chars) initial = Break st ->
  Forall textFromWords (finish_log st).
Proof.
  intros Hm. rewrite finish_log_eq.
  apply Forall_app. split.
  - apply Forall_app. split; [apply textFromWords_openTags_log|].
    apply textFromWords_flushWord_log. exact (flush_after_loop st Hm).
  - cbv zeta.
    destruct (shouldEncloseSuffixInTags opts),
      (fst (flushWord (openTags true st)));
      apply Forall_app; split;
      try apply textFromWords_closers;
      try apply textFromWords_addSuffix_log; constructor.
Qed.

Lemma textFromWords_run out :
  html_substring_of call = Returns out ->
  Forall textFromWords (html_substring_log_of call).
Proof.
  intros (st & Hm & _)%run_returns.
  unfold html_substring_log_of, run_log. rewrite Hm.
  apply Forall_app. split.
  - apply textFromWords_mainloop_log, reach_initial.
  - now apply textFromWords_finish_log.
Qed.

End FlushSites.

(** ** Scenarios of the specification that the code agrees with *)

Example scenario_fits_word :
  truncate "<p>Hello world</p>" 5 DEFAULT_OPTIONS = Returns "<p>Hello</p>".
Proof. vm_compute. reflexivity. Qed.

Example scenario_optional_closing :
  truncate "<ul><li>One<li>Two</ul>" 3 DEFAULT_OPTIONS
  = Returns "<ul><li>One</ul>".
Proof. vm_compute. reflexivity. Qed.

Example scenario_mismatch :
  truncate "<b>Hi</span>" 10 DEFAULT_OPTIONS = Throws "span" 5.
Proof. vm_compute. reflexivity. Qed.

Example scenario_whole_word_dropped :
  truncate "<img src=x>Hello" 3 (mkOptions false None false)
  = Returns "<img src=x>".
Proof. vm_compute. reflexivity. Qed.

Example unterminated_comment :
  truncate "<!--x" 100 DEFAULT_OPTIONS = Returns "".
Proof. vm_compute. reflexivity. Qed.

Example lone_ampersand :
  truncate "&" 100 DEFAULT_OPTIONS = Returns "&".
Proof. vm_compute. reflexivity. Qed.

Example error_message :
  HtmlSubstringError_message "span" 5
  = "Unexpected closing tag 'span' on offset 5".
Proof. vm_compute. reflexivity. Qed.

(** * The claims *)

(** C10.  [html_substring] returns or throws on every source, length and
    options: among the outcomes of the model, [Diverges] never happens, and
    more passes than the source has characters change nothing.  The loops
    of [openTag], [closeTag] and of the entity case run over what is left
    of the input, the rewinds put [i] just after the character the pass
    began with ([step_i]), and the loop of the comment case makes no pass
    ([commentLoop_none]). *)
Theorem html_substring_terminates
        (voidHtmlTags : list string) (source : string) (length : Z)
        (options : Options) :
  html_substring voidHtmlTags source length options <> Diverges
  /\ forall extra,
       run (call := mkCall voidHtmlTags (list_ascii_of_string source)
                           length options)
           (Datatypes.length (list_ascii_of_string source) + extra)
       = html_substring voidHtmlTags source length options.
Proof.
  unfold html_substring, html_substring_of, run.
  set (call := mkCall voidHtmlTags (list_ascii_of_string source) length options).
  destruct (mainloop_enough (call := call) (Datatypes.length chars) initial)
    as (Hk & Hd & Hc); [simpl; lia|].
  split.
  - destruct (mainloop (Datatypes.length chars) initial) as [st|st|t o|] eqn:E;
      try discriminate.
    + exfalso. now apply (Hc st).
    + exfalso. now apply Hd.
  - intros extra. change (list_ascii_of_string source) with chars.
    now rewrite Hk.
Qed.

(** C1.  On ["A&amp;B"] with length 2 the code returns ["&amp;A"], not
    ["A&amp;"]: the ['&'] case writes the entity to [result] without
    flushing the pending word, so the ['A'] read before it comes out after
    it. *)
Theorem entity_overtakes_pending_word (voidHtmlTags : list string) :
  html_substring voidHtmlTags "A&amp;B" 2 DEFAULT_OPTIONS = Returns "&amp;A".
Proof. vm_compute. reflexivity. Qed.

(** C3.  On ["<!--body-->"] the code returns ["ody-->"]: the loop of the
    comment case makes no pass, the first character of the body is skipped
    with the ["<!--"], and the rest, terminator included, is scanned as
    text. *)
Theorem comment_not_copied (voidHtmlTags : list string) :
  html_substring voidHtmlTags "<!--body-->" 100 DEFAULT_OPTIONS
  = Returns "ody-->".
Proof. vm_compute. reflexivity. Qed.

(** C4.  On ["hello"] with length 3 and suffix ["..."] the code returns
    ["hel"]: the source was cut and no suffix was appended, because the
    [flushWord] after the loop wrote part of the word and reported
    success. *)
Theorem suffix_missing_after_partial_flush (voidHtmlTags : list string) :
  html_substring voidHtmlTags "hello" 3 (options_of_string "...")
  = Returns "hel".
Proof. vm_compute. reflexivity. Qed.

(** C9.  On ["ab<!x"] with length 2 the code returns ["ab<"], three
    visible characters, and the counter [current] reaches 3: after the
    flush of ["ab"] has used up the budget, the case of a ['<'] followed by
    ['!'] that does not start a comment counts and writes the ['<'] without
    looking at the budget. *)
Theorem budget_exceeded_by_literal_lt (voidHtmlTags : list string) :
  html_substring voidHtmlTags "ab<!x" 2 DEFAULT_OPTIONS = Returns "ab<"
  /\ exists st,
       reachable (call := mkCall voidHtmlTags (list_ascii_of_string "ab<!x")
                                 2 DEFAULT_OPTIONS) st
       /\ current st = 3%Z.
Proof.
  split; [vm_compute; reflexivity|].
  eexists. split.
  - eapply (passes_reachable 3); [apply reach_initial|].
    vm_compute. reflexivity.
  - reflexivity.
Qed.

(** C5.  The call throws [HtmlSubstringError] with [tag] and [offset]
    exactly when the scan, with budget left, comes to a ["</"] at [offset]
    whose name [tag] has to have a closing tag and has no ["</tag>"] in
    [closeQueue]; [offset] is the position of the ['<'].  An outcome
    [Throws] carries no string, and nothing else throws: an open tag that
    does not parse, a comment or an entity that does not end never gives
    [Throws]. *)
Theorem mismatch_error (call : Call) (tag : string) (offset : nat) :
  html_substring_of call = Throws tag offset
  <-> exists st, reachable st /\ unmatchedClosingAt st tag /\ offset = i st.
Proof.
  unfold html_substring_of, run. split.
  - destruct (mainloop (Datatypes.length chars) initial) as [st|st|t o|] eqn:E;
      try discriminate.
    intros [= -> ->].
    exact (throw_unmatchedClosing _ _ _ initial reach_initial E).
  - intros (st & Hst & Hu & ->).
    now rewrite (unmatchedClosing_throws st tag Hst Hu).
Qed.

Lemma mismatch_error_witness :
  html_substring htmlVoidTags "<b>Hi</span>" 10 DEFAULT_OPTIONS
  = Throws "span" 5.
Proof.
  apply (proj2 (mismatch_error
                  (mkCall htmlVoidTags (list_ascii_of_string "<b>Hi</span>")
                          10 DEFAULT_OPTIONS) "span" 5)).
  eexists. split.
  - eapply (passes_reachable 3); [apply reach_initial|].
    vm_compute. reflexivity.
  - split; [|reflexivity].
    split; [vm_compute; reflexivity|].
    split; [vm_compute; reflexivity|].
    split; [vm_compute; reflexivity|].
    eexists. split; [vm_compute; reflexivity|].
    split; [vm_compute; reflexivity|].
    split; [vm_compute; reflexivity|].
    vm_compute. intros [H | []]. discriminate H.
Defined.

(** C6.  When the loop, with budget left, comes to an ['&'] that is
    followed by characters [name] without white space and without [';']
    and then by [';'], that pass appends ["&name;"] to [result] in one
    piece and adds exactly 1 to [current], however long [name] is; and as
    [result] is only appended to, the string the call returns begins with
    the [result] of that moment, entity included. *)
Theorem entity_reference_unsplit (call : Call) (st : State)
        (name rest : list ascii) :
  reachable st ->
  (current st <? length)%Z = true ->
  skipn (i st) chars = "&"%char :: name ++ ";"%char :: rest ->
  forallb (fun x => negb (isWhitespace x)) name = true ->
  ~ In ";"%char name ->
  exists st',
    passes 1 st = Some st'
    /\ result st' = (result st ++ "&" ++ join name ++ ";")%string
    /\ current st' = (current st + 1)%Z
    /\ i st' = i st + Datatypes.length name + 2
    /\ forall out,
         html_substring_of call = Returns out ->
         exists post,
           out = ((result st ++ "&" ++ join name ++ ";") ++ post)%string.
Proof.
  intros Hst Eg Hskip Hws Hsemi.
  pose proof (entity_pass st name rest Eg Hskip Hws Hsemi) as Hp.
  eexists. split; [exact Hp|].
  assert (Hr : forall a, ((a ++ "&") ++ join (name ++ [";"%char])
                          = a ++ "&" ++ join name ++ ";")%string).
  { intros a. now rewrite join_app, sapp_assoc. }
  split; [|split; [reflexivity|split; [reflexivity|]]].
  - cbn [result emit set_i set_current set_result]. apply Hr.
  - intros out (stf & Hm & ->)%run_returns.
    pose proof (passes_reachable 1 _ _ Hst Hp) as Hst'.
    rewrite <- (reachable_mainloop _ Hst') in Hm.
    destruct (mainloop_extends _ _ _ Hm) as (Hres & _).
    rewrite finish_sound, Hres.
    cbn [result emit set_i set_current set_result].
    rewrite Hr. eexists. apply sapp_assoc.
Qed.

Lemma entity_reference_unsplit_witness :
  let call := mkCall htmlVoidTags (list_ascii_of_string "A&amp;B") 2
                     DEFAULT_OPTIONS in
  let st := {| current := 0; i := 1; openedQueue := []; closeQueue := [];
               result := ""; suffixAdded := false; cw := ["A"%char];
               cwEmpty := false |} in
  exists st',
    passes 1 st = Some st'
    /\ result st' = "&amp;"
    /\ current st' = 1%Z
    /\ i st' = 6
    /\ forall out,
         html_substring_of call = Returns out ->
         exists post, out = ("&amp;" ++ post)%string.
Proof.
  intros call st.
  apply (entity_reference_unsplit call st
           (list_ascii_of_string "amp") (list_ascii_of_string "B")).
  - apply (passes_reachable 1 initial st reach_initial). reflexivity.
  - reflexivity.
  - reflexivity.
  - reflexivity.
  - vm_compute. intros [H | [H | [H | []]]]; discriminate H.
Defined.

(** What one [flushWord] does with the pending word [cw].  Without
    [breakWords] it either writes the whole word, which then fits the
    budget, or leaves the state as it was and reports failure: the word is
    never cut.  With [breakWords] it writes the first
    [min (length - current) cw.length] characters of the word and keeps
    the rest pending, and fails only when no budget is left. *)
Lemma flushWord_contract (call : Call) (st : State) (flushed : bool)
        (st' : State) :
  flushWord st = (flushed, st') ->
  (breakWords opts = false ->
     if flushed
     then (cw st = [] /\ st' = st)
          \/ (cw st <> []
              /\ (current st + Z.of_nat (Datatypes.length (cw st)) <= length)%Z
              /\ result st' = (result (openTags false st) ++ join (cw st))%string
              /\ cw st' = []
              /\ current st'
                 = (current st + Z.of_nat (Datatypes.length (cw st)))%Z)
     else st' = st /\ cw st <> []
          /\ (length < current st + Z.of_nat (Datatypes.length (cw st)))%Z)
  /\ (breakWords opts = true ->
      if flushed
      then (cw st = [] /\ st' = st)
           \/ (exists n,
                 Z.of_nat n = Z.min (length - current st)
                                    (Z.of_nat (Datatypes.length (cw st)))
                 /\ 1 <= n
                 /\ result st' = (result (openTags false st)
                                  ++ join (firstn n (cw st)))%string
                 /\ cw st' = skipn n (cw st)
                 /\ current st' = (current st + Z.of_nat n)%Z)
      else st' = st /\ cw st <> [] /\ (length <= current st)%Z).
Proof.
  intros H. destruct flushed.
  - destruct (flushWord_true _ _ H)
      as [[Hw ->] | (n & Hn & Hb & Hm & Hr & Hc & Hcw & _)].
    + split; intros _; now left.
    + split; intros Ebw; rewrite Ebw in Hm; right.
      * subst n. rewrite firstn_all in Hr. rewrite skipn_all in Hcw.
        repeat split; try assumption; [|lia].
        intros Hw. rewrite Hw in Hn. simpl in Hn. lia.
      * exists n. repeat split; try assumption; lia.
  - apply flushWord_false_inv in H as (-> & Hw & Hb).
    split; intros Ebw; rewrite Ebw in Hb; repeat split; assumption.
Qed.

(** C8.  For every source, length and options with which the call
    returns.  All the text of the returned string comes from the pending
    words: the string is the rendering of the log, and each text piece of
    the log is what one [flushWord()] of the call wrote (the ['&'] of an
    entity and the ['<'] of ["<!"] apart): without [breakWords] a whole
    pending word, which fits the budget, so that no part of a word is
    ever written; with [breakWords] the first
    [min (length - current) cw.length] characters of the pending word.
    And at each place where the code calls [flushWord] with a word
    pending: without [breakWords], when the word fits what is left of the
    budget the returned string holds the whole word, behind what was
    written before and the queued open tags; when it does not fit,
    nothing of it is taken ([flushWord] leaves the state as it is) and,
    behind what was written before, the returned string holds only tags
    and the suffix.  With [breakWords] and budget left the returned string
    holds the first [min (length - current) cw.length] characters of the
    word at that place and the rest of the word stays pending; with no
    budget left nothing of the word is written. *)
Theorem flushWord_policy (call : Call) (out : string) :
  html_substring_of call = Returns out ->
  (out = render (html_substring_log_of call)
   /\ Forall textFromWords (html_substring_log_of call))
  /\ forall st0, flushWordAt st0 -> cw st0 <> [] ->
    let word := cw st0 in
    let room := (length - current st0)%Z in
    let opened := render (openTags_log false (openedQueue st0)) in
    (breakWords opts = false ->
       ((Z.of_nat (Datatypes.length word) <= room)%Z ->
          exists st1 post,
            flushWord st0 = (true, st1)
            /\ cw st1 = []
            /\ current st1
               = (current st0 + Z.of_nat (Datatypes.length word))%Z
            /\ out = (result st0 ++ opened ++ join word ++ post)%string)
       /\ ((room < Z.of_nat (Datatypes.length word))%Z ->
          exists tail,
            flushWord st0 = (false, st0)
            /\ out = (result st0 ++ render tail)%string
            /\ forallb tagOrSuffix tail = true))
    /\ (breakWords opts = true ->
        ((0 < room)%Z ->
           exists n st1 post,
             Z.of_nat n = Z.min room (Z.of_nat (Datatypes.length word))
             /\ flushWord st0 = (true, st1)
             /\ cw st1 = skipn n word
             /\ current st1 = (current st0 + Z.of_nat n)%Z
             /\ out = (result st0 ++ opened ++ join (firstn n word)
                                  ++ post)%string)
        /\ ((room <= 0)%Z ->
           exists tail,
             flushWord st0 = (false, st0)
             /\ out = (result st0 ++ render tail)%string
             /\ forallb tagOrSuffix tail = true)).
Proof.
  intros Hout. split.
  { split; [exact (run_log_sound _ _ Hout) | exact (textFromWords_run out Hout)]. }
  intros st0 Hat Hw. cbv zeta.
  destruct (flushWord st0) as [flushed st1] eqn:Ef.
  destruct (flushWord_contract call st0 flushed st1 Ef) as [Hno Hyes].
  assert (Hfail : flushed = false -> st1 = st0 ->
                  exists tail,
                    (flushed, st1) = (false, st0)
                    /\ out = (result st0 ++ render tail)%string
                    /\ forallb tagOrSuffix tail = true).
  { intros -> ->.
    destruct (flushWordAt_failure st0 out Hat Hout) as (tail & Ht & Hall);
      [now rewrite Ef|].
    now exists tail. }
  split; intros Hbw.
  - specialize (Hno Hbw). split; intros Hroom.
    + destruct flushed.
      * destruct Hno as [[Hw' _] | (_ & _ & Hr & Hc & Hk)]; [contradiction|].
        destruct (flushWordAt_success st0 st1 out Hat Hout Ef) as [post ->].
        exists st1, post. repeat split; try assumption.
        now rewrite Hr, openTags_result, !sapp_assoc.
      * destruct Hno as (_ & _ & Hnot). lia.
    + destruct flushed.
      * destruct Hno as [[Hw' _] | (_ & Hfit & _)]; [contradiction | lia].
      * destruct Hno as (-> & _). now apply Hfail.
  - specialize (Hyes Hbw). split; intros Hroom.
    + destruct flushed.
      * destruct Hyes as [[Hw' _] | (n & Hn & _ & Hr & Hc & Hk)];
          [contradiction|].
        destruct (flushWordAt_success st0 st1 out Hat Hout Ef) as [post ->].
        exists n, st1, post. repeat split; try assumption.
        now rewrite Hr, openTags_result, !sapp_assoc.
      * destruct Hyes as (_ & _ & Hnot). lia.
    + destruct flushed.
      * destruct Hyes as [[Hw' _] | (n & Hn & H1 & _)]; [contradiction | lia].
      * destruct Hyes as (-> & _). now apply Hfail.
Qed.

Lemma flushWord_policy_witness :
  let call := mkCall htmlVoidTags (list_ascii_of_string "hello big world") 12
                     (mkOptions false (suffix (options_of_string "..."))
                                false) in
  let st := {| current := 0; i := 5; openedQueue := []; closeQueue := [];
               result := ""; suffixAdded := false;
               cw := list_ascii_of_string "hello"; cwEmpty := false |} in
  let stf := {| current := 9; i := 15; openedQueue := []; closeQueue := [];
                result := "hello big"; suffixAdded := false;
                cw := list_ascii_of_string " world"; cwEmpty := false |} in
  html_substring_of call = Returns "hello big..."
  /\ html_substring_log_of call
     = [Text "hello"; Text " big"; SuffixPiece "..."]
  /\ Forall textFromWords (html_substring_log_of call)
  /\ (exists st1 post,
        flushWord (set_cwEmpty (set_i st 6) true) = (true, st1)
        /\ cw st1 = []
        /\ current st1 = 5%Z
        /\ "hello big..." = ("" ++ "" ++ "hello" ++ post)%string)
  /\ (exists tail,
        flushWord (openTags true stf) = (false, openTags true stf)
        /\ "hello big..." = ("hello big" ++ render tail)%string
        /\ forallb tagOrSuffix tail = true).
Proof.
  intros call st stf.
  assert (Hout : html_substring_of call = Returns "hello big...")
    by (vm_compute; reflexivity).
  assert (Hp : passes 5 initial = Some st) by (vm_compute; reflexivity).
  assert (Hm : mainloop (Datatypes.length chars) initial = Break stf)
    by (vm_compute; reflexivity).
  assert (Hat1 : flushWordAt (set_cwEmpty (set_i st (i st + 1)) true)).
  { apply (flush_behind_word st " "%char); try reflexivity.
    exact (passes_reachable 5 initial st reach_initial Hp). }
  assert (Hat2 : flushWordAt (openTags true stf))
    by exact (flush_after_loop stf Hm).
  destruct (flushWord_policy call "hello big..." Hout) as [[_ Hall] Hsite].
  split; [exact Hout|]. split; [vm_compute; reflexivity|].
  split; [exact Hall|]. split.
  - destruct (Hsite _ Hat1) as [Hno _]; [discriminate|].
    destruct (Hno eq_refl) as [Hfit _]. apply Hfit. simpl. lia.
  - destruct (Hsite _ Hat2) as [Hno _]; [discriminate|].
    destruct (Hno eq_refl) as [_ Hnot]. apply Hnot. simpl. lia.
Defined.

(** C2, as stated, fails: on ["<b><i>x</b>"] the call returns the source
    as it is; the ["</b>"] made the scan drop the entry ["</i>"] from
    [closeQueue], and the [<i>] that was written is never closed. *)
Lemma interleaved_tags_unbalanced :
  html_substring htmlVoidTags "<b><i>x</b>" 10 DEFAULT_OPTIONS
  = Returns "<b><i>x</b>"
  /\ html_substring_log htmlVoidTags "<b><i>x</b>" 10 DEFAULT_OPTIONS
     = [Opening "b" ""; Opening "i" ""; Text "x"; Closing "b" ["</i>"]]
  /\ html_substring_balanced htmlVoidTags "<b><i>x</b>" 10 DEFAULT_OPTIONS
     = false.
Proof. repeat split; vm_compute; reflexivity. Qed.

(** C2, amended.  When the call returns and no closing tag of the source
    made the scan drop an entry of [closeQueue] (each closing tag of an
    element that has to have one names the innermost open element), the
    returned string is the rendering of a log whose markup is balanced:
    each closable open tag written is closed, innermost first, by a
    closing tag of the source or by one of the closing tags appended at the
    end, also when the source was cut.  The markup of the log is what the
    call wrote as tags; what it wrote as text (a ['<'] that opens no tag,
    the span of an entity) is text. *)
Theorem balanced_unless_dropped
        (voidHtmlTags : list string) (source : string) (length : Z)
        (options : Options) (out : string) :
  html_substring voidHtmlTags source length options = Returns out ->
  noDrops (html_substring_log voidHtmlTags source length options) = true ->
  out = render (html_substring_log voidHtmlTags source length options)
  /\ html_substring_balanced voidHtmlTags source length options = true.
Proof.
  unfold html_substring, html_substring_log, html_substring_balanced,
    html_substring_of, html_substring_log_of.
  intros Hout Hdrops. split.
  - exact (run_log_sound _ _ Hout).
  - exact (run_balanced _ _ Hout Hdrops).
Qed.

Lemma balanced_unless_dropped_witness :
  html_substring htmlVoidTags "<p>Hello <b>world</b></p>" 8 DEFAULT_OPTIONS
  = Returns "<p>Hello <b>wo</b></p>"
  /\ noDrops (html_substring_log htmlVoidTags "<p>Hello <b>world</b></p>" 8
                                 DEFAULT_OPTIONS) = true
  /\ "<p>Hello <b>wo</b></p>"
     = render (html_substring_log htmlVoidTags "<p>Hello <b>world</b></p>" 8
                                  DEFAULT_OPTIONS)
  /\ html_substring_balanced htmlVoidTags "<p>Hello <b>world</b></p>" 8
                             DEFAULT_OPTIONS = true.
Proof.
  split; [vm_compute; reflexivity|].
  split; [vm_compute; reflexivity|].
  apply (balanced_unless_dropped htmlVoidTags "<p>Hello <b>world</b></p>" 8
                                 DEFAULT_OPTIONS);
    vm_compute; reflexivity.
Defined.

(** C7, as stated, fails: with the suffix ["..."] configured and a source
    that fits the budget, the returned string is the source, without any
    copy of the suffix. *)
Lemma suffix_absent_when_nothing_is_cut :
  html_substring htmlVoidTags "abc" 10 (options_of_string "...")
  = Returns "abc"
  /\ occurrences "..." "abc" <> 1
  /\ suffixCount (html_substring_log htmlVoidTags "abc" 10
                                     (options_of_string "...")) = 0.
Proof.
  split; [vm_compute; reflexivity|].
  split; [vm_compute; discriminate | vm_compute; reflexivity].
Qed.

(** C7, amended.  Whatever the source, the length and the options, the
    suffix is appended at most once to the string a call returns: the log
    the string is the rendering of holds at most one suffix.  It holds
    exactly one when a suffix is configured and the [flushWord] after the
    loop reports failure. *)
Theorem suffix_at_most_once
        (voidHtmlTags : list string) (source : string) (length : Z)
        (options : Options) (out : string) :
  html_substring voidHtmlTags source length options = Returns out ->
  let call := mkCall voidHtmlTags (list_ascii_of_string source) length options in
  let log := html_substring_log voidHtmlTags source length options in
  out = render log
  /\ suffixCount log <= 1
  /\ (suffix options <> None -> lastFlushFails call = true ->
      suffixCount log = 1).
Proof.
  intros Hout. cbv zeta.
  unfold html_substring, html_substring_log, html_substring_of,
    html_substring_log_of, lastFlushFails in *.
  set (call := mkCall voidHtmlTags (list_ascii_of_string source) length options)
    in *.
  split; [exact (run_log_sound _ _ Hout)|].
  destruct (run_returns _ _ Hout) as (st & Hm & _).
  rewrite (run_suffixCount _ _ Hm), Hm.
  assert (Hflag : flag (suffixAdded st) <= 1)
    by (destruct (suffixAdded st); simpl; lia).
  change (@opts call) with options.
  destruct (fst (flushWord (openTags true st))); simpl negb.
  - split; [exact Hflag | discriminate].
  - destruct (suffix options) as [sfx|]; split; try lia; congruence.
Qed.

Lemma suffix_at_most_once_witness :
  html_substring htmlVoidTags "<p>Hello world</p>" 7 (options_of_string "...")
  = Returns "<p>Hello w</p>..."
  /\ "<p>Hello w</p>..."
     = render (html_substring_log htmlVoidTags "<p>Hello world</p>" 7
                                  (options_of_string "..."))
  /\ suffixCount (html_substring_log htmlVoidTags "<p>Hello world</p>" 7
                                     (options_of_string "...")) <= 1
  /\ (suffix (options_of_string "...") <> None ->
      lastFlushFails (mkCall htmlVoidTags
                             (list_ascii_of_string "<p>Hello world</p>") 7
                             (options_of_string "...")) = true ->
      suffixCount (html_substring_log htmlVoidTags "<p>Hello world</p>" 7
                                      (options_of_string "...")) = 1).
Proof.
  split; [vm_compute; reflexivity|].
  apply (suffix_at_most_once htmlVoidTags "<p>Hello world</p>" 7
                             (options_of_string "...")).
  vm_compute. reflexivity.
Defined.

(** * Further properties of the code *)

(** ** Nothing to scan *)

Lemma finish_initial {call : Call} : finish initial = "".
Proof.
  unfold finish, flushWord, getResultWithSuffixBeforeClosingTags,
    getResultWithSuffixAfterClosingTags.
  destruct (breakWords opts), (shouldEncloseSuffixInTags opts); reflexivity.
Qed.

(** X1.  With a length that is zero or negative the loop makes no pass:
    whatever the source and the options, the call returns the empty
    string, without the suffix, and does not throw, even on a source
    whose first closing tag matches nothing. *)
Theorem nonpositive_length_returns_empty
        (voidHtmlTags : list string) (source : string) (length : Z)
        (options : Options) :
  (length <= 0)%Z ->
  html_substring voidHtmlTags source length options = Returns "".
Proof.
  intros Hlen. unfold html_substring, html_substring_of, run.
  set (call := mkCall voidHtmlTags (list_ascii_of_string source) length options).
  assert (Hm : forall fuel, mainloop fuel initial = Break initial).
  { intros fuel.
    assert (Hg : (0 <? length)%Z = false) by (apply Z.ltb_ge; exact Hlen).
    destruct fuel; simpl; rewrite Hg; reflexivity. }
  rewrite Hm. now rewrite finish_initial.
Qed.

Lemma nonpositive_length_returns_empty_witness :
  (0 <= 0)%Z
  /\ html_substring htmlVoidTags "<b>Hi</span>" 0 (options_of_string "...")
     = Returns "".
Proof.
  split; [lia|].
  apply (nonpositive_length_returns_empty htmlVoidTags "<b>Hi</span>" 0
                                          (options_of_string "...")).
  lia.
Defined.

(** X2.  The empty source gives the empty string for every length and
    all options: no suffix is appended to it. *)
Theorem empty_source_returns_empty
        (voidHtmlTags : list string) (length : Z) (options : Options) :
  html_substring voidHtmlTags "" length options = Returns "".
Proof.
  unfold html_substring, html_substring_of, run.
  set (call := mkCall voidHtmlTags (list_ascii_of_string "") length options).
  assert (Hm : mainloop 0 initial = Break initial).
  { simpl. now destruct (0 <? length)%Z. }
  change (Datatypes.length chars) with 0.
  rewrite Hm. now rewrite finish_initial.
Qed.

(** ** The options *)

(** X3.  When no suffix is configured, [shouldEncloseSuffixInTags] changes
    nothing: the two calls that differ only in it have the same outcome,
    the same string or the same error. *)
Theorem enclose_irrelevant_without_suffix
        (voidHtmlTags : list string) (source : string) (limit : Z)
        (bw e1 e2 : bool) :
  html_substring voidHtmlTags source limit (mkOptions bw None e1)
  = html_substring voidHtmlTags source limit (mkOptions bw None e2).
Proof.
  unfold html_substring, html_substring_of, run.
  set (cs := list_ascii_of_string source).
  set (call1 := mkCall voidHtmlTags cs limit (mkOptions bw None e1)).
  set (call2 := mkCall voidHtmlTags cs limit (mkOptions bw None e2)).
  change (@chars call1) with cs. change (@chars call2) with cs.
  assert (Htag : forall fuel st, @tagCase call1 fuel st = @tagCase call2 fuel st).
  { intros fuel st. unfold tagCase.
    change (@at_ call1) with (@at_ call2).
    change (@commentLoop call1) with (@commentLoop call2).
    change (@openTag call1) with (@openTag call2).
    change (@openTags call1) with (@openTags call2).
    change (@closeTag call1) with (@closeTag call2).
    change (@haveToHaveClosingTag call1) with (@haveToHaveClosingTag call2).
    destruct (charIs (at_ (i st)) "!"); [reflexivity|].
    destruct (charIs (at_ (i st)) "/"); [|reflexivity].
    destruct (closeTag _) as [tag st3].
    match goal with
    | |- context [let '(a, b) := ?e in _] => destruct e as [success stack]
    end.
    destruct (negb success); [reflexivity|].
    change (@opts call1) with (mkOptions bw None e1).
    change (@opts call2) with (mkOptions bw None e2).
    change (@length call1) with limit. change (@length call2) with limit.
    cbn [shouldEncloseSuffixInTags].
    destruct (limit <=? current (set_closeQueue st3 (rev stack)))%Z, e1, e2;
      reflexivity. }
  assert (Hstep : forall fuel c st, @step call1 fuel c st = @step call2 fuel c st).
  { intros fuel c st. unfold step.
    change (@flushWord call1) with (@flushWord call2).
    change (@chars call1) with (@chars call2).
    destruct (Ascii.eqb c "<"); [|reflexivity].
    destruct (flushWord st) as [[|] st1]; [apply Htag | reflexivity]. }
  assert (Hloop : forall fuel st, @mainloop call1 fuel st = @mainloop call2 fuel st).
  { induction fuel as [|fuel IH]; intros st; simpl.
    - reflexivity.
    - change (@at_ call1) with (@at_ call2).
      destruct (current st <? limit)%Z; [|reflexivity].
      destruct (@at_ call2 (i st)) as [c|]; [|reflexivity].
      rewrite Hstep.
      destruct (@step call2 fuel c (set_i st (i st + 1))); try reflexivity.
      apply IH. }
  rewrite Hloop.
  destruct (mainloop (Datatypes.length cs) initial) as [st|st|t o|];
    try reflexivity.
  f_equal. unfold finish.
  change (@flushWord call1) with (@flushWord call2).
  change (@openTags call1) with (@openTags call2).
  destruct (flushWord (openTags true st)) as [flushed st2].
  unfold getResultWithSuffixBeforeClosingTags,
    getResultWithSuffixAfterClosingTags, addSuffix.
  change (@opts call1) with (mkOptions bw None e1).
  change (@opts call2) with (mkOptions bw None e2).
  cbn [shouldEncloseSuffixInTags suffix].
  destruct e1, e2, flushed; reflexivity.
Qed.

(** ** Sources without closing tags *)

Lemma noClosingTag_at (cs : list ascii) :
  noClosingTag cs = true ->
  forall k, nth_error cs k = Some "<"%char ->
            nth_error cs (k + 1) = Some "/"%char -> False.
Proof.
  induction cs as [|c rest IH]; intros H k Hk Hk1.
  - now destruct k.
  - simpl in H. apply andb_prop in H as [Hc Hrest].
    destruct k as [|k].
    + simpl in Hk, Hk1. injection Hk as ->.
      destruct rest as [|x rest']; [discriminate|].
      simpl in Hk1. injection Hk1 as ->. discriminate.
    + exact (IH Hrest k Hk Hk1).
Qed.

(** X4.  Only a closing tag can make a call throw: on a source in which
    no ['<'] is followed by ['/'] the call returns a string, whatever the
    length and the options. *)
Theorem no_closing_tag_never_throws (call : Call) :
  noClosingTag chars = true ->
  exists out, html_substring_of call = Returns out.
Proof.
  intros Hno. unfold html_substring_of, run.
  destruct (mainloop_enough (Datatypes.length chars) initial)
    as (_ & Hd & Hc); [simpl; lia|].
  destruct (mainloop (Datatypes.length chars) initial) as [st|st|t o|] eqn:E.
  - exfalso. now apply (Hc st).
  - now exists (finish st).
  - exfalso.
    destruct (throw_unmatchedClosing _ _ _ initial reach_initial E)
      as (st & _ & (_ & H1 & H2 & _) & _).
    exact (noClosingTag_at chars Hno (i st) H1 H2).
  - exfalso. now apply Hd.
Qed.

Lemma no_closing_tag_never_throws_witness :
  let call := mkCall htmlVoidTags (list_ascii_of_string "<b>a < b<i>") 20
                     (options_of_string "...") in
  noClosingTag chars = true
  /\ exists out, html_substring_of call = Returns out.
Proof.
  intros call. split; [reflexivity|].
  apply (no_closing_tag_never_throws call). reflexivity.
Defined.

(** ** What is written stays *)

(** X5.  [result] is only appended to: the string a call returns begins
    with the [result] of every state the scan passed through. *)
Theorem result_only_grows (call : Call) (st : State) (out : string) :
  reachable st ->
  html_substring_of call = Returns out ->
  exists post, out = (result st ++ post)%string.
Proof.
  intros Hst (stf & Hm & ->)%run_returns.
  rewrite <- (reachable_mainloop _ Hst) in Hm.
  destruct (mainloop_extends _ _ _ Hm) as (Hres & _).
  rewrite finish_sound, Hres. eexists. apply sapp_assoc.
Qed.

Lemma result_only_grows_witness :
  let call := mkCall htmlVoidTags (list_ascii_of_string "<p>Hello world</p>")
                     7 DEFAULT_OPTIONS in
  let st := {| current := 5; i := 9; openedQueue := [];
               closeQueue := ["</p>"]; result := "<p>Hello";
               suffixAdded := false; cw := [" "%char]; cwEmpty := true |} in
  passes 7 initial = Some st
  /\ html_substring_of call = Returns "<p>Hello w</p>"
  /\ exists post, "<p>Hello w</p>" = ("<p>Hello" ++ post)%string.
Proof.
  intros call st.
  assert (Hp : passes 7 initial = Some st) by (vm_compute; reflexivity).
  split; [exact Hp|]. split; [vm_compute; reflexivity|].
  apply (result_only_grows call st "<p>Hello w</p>").
  - exact (passes_reachable 7 initial _ reach_initial Hp).
  - vm_compute. reflexivity.
Defined.

(** ** The scanner of tags *)

Lemma alnum_break (x : ascii) :
  negb (isLetter x) && negb (isNumber x) = negb (isAlnum x).
Proof. unfold isAlnum. now rewrite negb_orb. Qed.

Lemma openTag_name_stop (name : list ascii) :
  forall x r k tag c,
    forallb isAlnum name = true -> isAlnum x = false ->
    openTag_name (name ++ x :: r) k tag c
    = (k + Datatypes.length name + 1, (tag ++ join name)%string, Some x).
Proof.
  induction name as [|y name IH]; intros x r k tag c Hname Hx; simpl.
  - rewrite alnum_break, Hx. simpl. rewrite sapp_nil_r. f_equal. f_equal. lia.
  - simpl in Hname. apply andb_prop in Hname as [Hy Hname].
    rewrite alnum_break, Hy. simpl.
    rewrite (IH x r (S k) _ (Some y) Hname Hx), sapp_assoc.
    f_equal. f_equal. lia.
Qed.

Lemma upToGt_stop (attrs : list ascii) :
  forall r k acc c,
    forallb notGt attrs = true ->
    upToGt (attrs ++ ">"%char :: r) k acc c
    = (k + Datatypes.length attrs + 1, (acc ++ join attrs)%string,
       Some ">"%char).
Proof.
  induction attrs as [|y attrs IH]; intros r k acc c Hattrs; simpl.
  - rewrite sapp_nil_r. f_equal. f_equal. lia.
  - simpl in Hattrs. apply andb_prop in Hattrs as [Hy Hattrs].
    unfold notGt in Hy. apply negb_true_iff in Hy. rewrite Hy.
    rewrite (IH r (S k) _ (Some y) Hattrs), sapp_assoc.
    f_equal. f_equal. lia.
Qed.

(** Where the first loop of [openTag] stops: at the end of the input, or
    on the first character that is neither a letter nor a digit. *)
Lemma openTag_name_inv (l : list ascii) :
  forall k tag c k' tag' c',
    openTag_name l k tag c = (k', tag', c') ->
    exists name r,
      l = name ++ r
      /\ forallb isAlnum name = true
      /\ tag' = (tag ++ join name)%string
      /\ ((r = [] /\ k' = k + Datatypes.length name
           /\ (charIs c ">" = false -> charIs c' ">" = false))
          \/ (exists x r', r = x :: r' /\ isAlnum x = false
                           /\ k' = k + Datatypes.length name + 1
                           /\ c' = Some x)).
Proof.
  induction l as [|y l IH]; intros k tag c k' tag' c'; simpl.
  - intros [= <- <- <-]. exists [], []. repeat split.
    + simpl. now rewrite sapp_nil_r.
    + left. repeat split; [simpl; lia | trivial].
  - rewrite alnum_break. destruct (isAlnum y) eqn:Hy; simpl.
    + intros H. apply IH in H as (name & r & -> & Hname & -> & Hr).
      exists (y :: name), r. repeat split.
      * simpl. now rewrite Hy, Hname.
      * simpl. now rewrite sapp_assoc.
      * destruct Hr as [(-> & -> & Hc) | (x & r' & -> & Hx & -> & ->)].
        -- left. repeat split; [simpl; lia|]. intros _. apply Hc.
           simpl. destruct (Ascii.eqb y ">") eqn:E; [|reflexivity].
           apply Ascii.eqb_eq in E. subst y. discriminate.
        -- right. exists x, r'. repeat split; [assumption | simpl; lia].
    + intros [= <- <- <-]. exists [], (y :: l). repeat split.
      * simpl. now rewrite sapp_nil_r.
      * right. exists y, l. repeat split; [assumption | simpl; lia].
Qed.

Lemma upToGt_inv (l : list ascii) :
  forall k acc c k' acc' c',
    upToGt l k acc c = (k', acc', c') ->
    exists a r,
      l = a ++ r
      /\ forallb notGt a = true
      /\ acc' = (acc ++ join a)%string
      /\ ((r = [] /\ k' = k + Datatypes.length a
           /\ (charIs c ">" = false -> charIs c' ">" = false))
          \/ (exists r', r = ">"%char :: r'
                         /\ k' = k + Datatypes.length a + 1
                         /\ c' = Some ">"%char)).
Proof.
  induction l as [|y l IH]; intros k acc c k' acc' c'; simpl.
  - intros [= <- <- <-]. exists [], []. repeat split.
    + simpl. now rewrite sapp_nil_r.
    + left. repeat split; [simpl; lia | trivial].
  - destruct (Ascii.eqb y ">") eqn:Hy.
    + apply Ascii.eqb_eq in Hy. subst y.
      intros [= <- <- <-]. exists [], (">"%char :: l). repeat split.
      * simpl. now rewrite sapp_nil_r.
      * right. exists l. repeat split. simpl. lia.
    + intros H. apply IH in H as (a & r & -> & Ha & -> & Hr).
      exists (y :: a), r. repeat split.
      * simpl. unfold notGt at 1. now rewrite Hy, Ha.
      * simpl. now rewrite sapp_assoc.
      * destruct Hr as [(-> & -> & Hc) | (r' & -> & -> & ->)].
        -- left. repeat split; [simpl; lia|]. intros _. apply Hc.
           simpl. exact Hy.
        -- right. exists r'. repeat split. simpl. lia.
Qed.

Section Scanner.

Context {call : Call}.

Lemma length_from st (l : list ascii) :
  skipn (i st) chars = l ->
  Datatypes.length chars - i st = Datatypes.length l.
Proof. intros <-. now rewrite length_skipn. Qed.

Lemma skipn_more (k m : nat) (front back : list ascii) :
  skipn k chars = front ++ back ->
  m = Datatypes.length front ->
  skipn (k + m) chars = back.
Proof.
  intros H ->. rewrite Nat.add_comm, <- skipn_skipn, H.
  rewrite skipn_app, skipn_all, Nat.sub_diag. reflexivity.
Qed.

Lemma slength_join_zero (name : list ascii) :
  name <> [] -> (String.length (join name) =? 0) = false.
Proof.
  intros H. apply Nat.eqb_neq. rewrite slength_join.
  destruct name; [congruence | simpl; lia].
Qed.

Lemma openTag_complete st tag other st' :
  openTagAhead st tag other st' -> openTag st = (Some (tag, other), st').
Proof.
  intros (name & attrs & rest & Hskip & Hne & Hname & Hattrs & Hhd
          & -> & -> & ->).
  pose proof (length_from st _ Hskip) as Hlen.
  rewrite !length_app in Hlen. simpl in Hlen.
  pose proof (slength_join_zero name Hne) as Hz.
  assert (Hpos : (0 <? String.length (join name)) = true).
  { apply Nat.ltb_lt. apply Nat.eqb_neq in Hz. lia. }
  unfold openTag. rewrite Hskip.
  destruct attrs as [|a attrs].
  - simpl app.
    rewrite (openTag_name_stop name ">" rest _ _ _ Hname eq_refl).
    simpl append. rewrite Hpos. simpl charIs. rewrite andb_false_r.
    rewrite Hz. simpl. do 2 f_equal. lia.
  - simpl in Hattrs. apply andb_prop in Hattrs as [Ha Hattrs].
    simpl app.
    rewrite (openTag_name_stop name a (attrs ++ ">"%char :: rest) _ _ _
                               Hname Hhd).
    simpl append. rewrite Hpos.
    assert (Hlt : (i st + Datatypes.length name + 1 <? Datatypes.length chars)
                  = true) by (apply Nat.ltb_lt; simpl in Hlen; lia).
    rewrite Hlt. simpl charIs. unfold notGt in Ha. rewrite Ha. simpl andb.
    cbv iota.
    assert (Hrest : skipn (i st + Datatypes.length name + 1) chars
                    = attrs ++ ">"%char :: rest).
    { rewrite <- Nat.add_assoc.
      apply (skipn_more (i st) _ (name ++ [a]) _).
      - now rewrite <- app_assoc.
      - rewrite length_app. simpl. lia. }
    rewrite Hrest, (upToGt_stop attrs rest _ _ _ Hattrs).
    rewrite Hz. simpl. do 2 f_equal. lia.
Qed.

Lemma openTag_sound st tag other st' :
  openTag st = (Some (tag, other), st') -> openTagAhead st tag other st'.
Proof.
  unfold openTag.
  destruct (openTag_name (skipn (i st) chars) (i st) "" None)
    as [[i1 tag1] c1] eqn:E1.
  apply openTag_name_inv in E1 as (name & r & Hskip & Hname & -> & Hr).
  simpl append.
  pose proof (length_from st _ Hskip) as Hlen. rewrite length_app in Hlen.
  destruct Hr as [(-> & -> & Hc) | (x & r' & -> & Hx & -> & ->)].
  - (* the input ends in the name *)
    simpl in Hlen.
    replace (i st + Datatypes.length name <? Datatypes.length chars)
      with false by (symmetry; apply Nat.ltb_ge; lia).
    rewrite andb_false_r. simpl andb. cbv iota.
    rewrite (Hc eq_refl). rewrite orb_true_r. discriminate.
  - destruct name as [|y name].
    { simpl. discriminate. }
    assert (Hne : y :: name <> []) by discriminate.
    rewrite (slength_join_zero _ Hne).
    assert (Hpos : (0 <? String.length (join (y :: name))) = true).
    { apply Nat.ltb_lt. rewrite slength_join. simpl. lia. }
    rewrite Hpos. simpl charIs.
    destruct (Ascii.eqb x ">") eqn:Egt.
    + (* the name is followed by '>' *)
      apply Ascii.eqb_eq in Egt. subst x.
      rewrite andb_false_r. simpl. intros [= <- <- <-].
      exists (y :: name), [], r'. repeat split; try assumption.
      f_equal. simpl. lia.
    + simpl negb. rewrite andb_true_r. simpl andb.
      cbn [Datatypes.length] in *.
      destruct (i st + S (Datatypes.length name) + 1
                <? Datatypes.length chars) eqn:Elt.
      * assert (Hrest : skipn (i st + S (Datatypes.length name) + 1) chars
                        = r').
        { rewrite <- Nat.add_assoc.
          apply (skipn_more (i st) _ ((y :: name) ++ [x]) _).
          - now rewrite <- app_assoc.
          - rewrite length_app. simpl. lia. }
        rewrite Hrest.
        destruct (upToGt r' _ _ _) as [[i2 other2] c2] eqn:E2.
        apply upToGt_inv in E2 as (a & r2 & -> & Ha & -> & Hr2).
        destruct Hr2 as [(-> & -> & Hc2) | (rest & -> & -> & ->)].
        -- simpl in Hc2. rewrite (Hc2 Egt). simpl. discriminate.
        -- simpl. intros [= <- <- <-].
           exists (y :: name), (x :: a), rest. repeat split; try assumption.
           ++ simpl. unfold notGt at 1. now rewrite Egt.
           ++ f_equal. simpl. lia.
      * simpl. rewrite Egt. simpl. discriminate.
Qed.

End Scanner.

(** X6.  [openTag] takes what is ahead for an open tag exactly when it is
    a name of letters and digits that is not empty, followed at once by
    ['>'] or by a character that is neither a letter nor a digit and then
    anything up to the next ['>']; it returns the name and what is between
    the name and the ['>'] as they stand in the source, and leaves [i]
    just after the ['>']. *)
Theorem openTag_reads_tag (call : Call) (st : State) (tag other : string)
        (st' : State) :
  openTag st = (Some (tag, other), st') <-> openTagAhead st tag other st'.
Proof.
  split; [apply openTag_sound | apply openTag_complete].
Qed.

Lemma openTag_none {call : Call} st st' :
  openTag st = (None, st') ->
  st' = set_i (set_cw st (cw st ++ ["<"%char])) (i st).
Proof.
  unfold openTag.
  destruct (openTag_name _ _ _ _) as [[i1 tag] c1].
  match goal with
  | |- context [if ?b then upToGt ?r ?k ?a ?c else _] => destruct b
  end.
  - destruct (upToGt _ _ _ _) as [[i2 other] c2].
    destruct ((String.length tag =? 0) || negb (charIs c2 ">"));
      now intros [= <-].
  - destruct ((String.length tag =? 0) || negb (charIs c1 ">"));
      now intros [= <-].
Qed.

(** X7.  When what is ahead is no open tag (no name, or no ['>'] after
    it), [openTag] takes the ['<'] for text: it puts ['<'] at the end of
    the pending word, leaves [i] just after the ['<'], and changes
    nothing else; so a text like ["a < b"] keeps its ['<']. *)
Theorem openTag_falls_back_to_text (call : Call) (st : State) :
  (forall tag other st', ~ openTagAhead st tag other st') ->
  openTag st = (None, set_i (set_cw st (cw st ++ ["<"%char])) (i st)).
Proof.
  intros Hno.
  destruct (openTag st) as [[[tag other]|] st'] eqn:E.
  - exfalso. exact (Hno tag other st' (openTag_sound _ _ _ _ E)).
  - now rewrite (openTag_none _ _ E).
Qed.

Lemma openTag_falls_back_to_text_witness :
  let call := mkCall htmlVoidTags (list_ascii_of_string "a < b") 10
                     DEFAULT_OPTIONS in
  let st := {| current := 0; i := 3; openedQueue := []; closeQueue := [];
               result := "a "; suffixAdded := false; cw := [];
               cwEmpty := true |} in
  openTag st = (None, set_i (set_cw st ["<"%char]) 3).
Proof.
  intros call st.
  apply (openTag_falls_back_to_text call st).
  intros tag other st' (name & attrs & rest & Hskip & Hne & Hname & _).
  destruct name as [|y name]; [now apply Hne|].
  vm_compute in Hskip. injection Hskip as <- _. discriminate Hname.
Defined.

(** X8.  [closeTag] returns the characters up to the next ['>'], which
    it passes over; when the source ends before any ['>'] it returns the
    characters that are left and stops at the end of the source. *)
Theorem closeTag_reads_name (call : Call) (st : State) (name : list ascii) :
  forallb notGt name = true ->
  (forall rest,
      skipn (i st) chars = name ++ ">"%char :: rest ->
      closeTag st
      = (join name, set_i st (i st + Datatypes.length name + 1)))
  /\ (skipn (i st) chars = name ->
      closeTag st = (join name, set_i st (i st + Datatypes.length name))).
Proof.
  intros Hname. split.
  - intros rest Hskip. unfold closeTag.
    now rewrite Hskip, (upToGt_stop name rest _ _ _ Hname).
  - intros Hskip. unfold closeTag. rewrite Hskip.
    destruct (upToGt name (i st) "" None) as [[i1 tag] c1] eqn:E.
    apply upToGt_inv in E as (a & r & Heq & Ha & -> & Hr).
    destruct Hr as [(-> & -> & _) | (r' & -> & _)].
    + rewrite app_nil_r in Heq. now subst a.
    + exfalso. rewrite Heq, forallb_app in Hname.
      apply andb_prop in Hname as [_ Hname]. discriminate Hname.
Qed.

Lemma closeTag_reads_name_witness :
  let call := mkCall htmlVoidTags (list_ascii_of_string "<b>x</b") 10
                     DEFAULT_OPTIONS in
  let st := set_i initial 6 in
  forallb notGt ["b"%char] = true
  /\ closeTag st = ("b", set_i st 7)
  /\ html_substring_of call = Returns "<b>x</b>".
Proof.
  intros call st. split; [reflexivity|]. split; [|vm_compute; reflexivity].
  exact (proj2 (closeTag_reads_name call st ["b"%char] eq_refl) eq_refl).
Defined.

(** ** The entries of the two queues *)

Section Entries.

Context {call : Call}.

Variable Qe : string -> string -> Prop.
Variable Ce : string -> Prop.

Hypothesis Hopen :
  forall st tag other st',
    1 <= i st -> at_ (i st - 1) = Some "<"%char ->
    openTag st = (Some (tag, other), st') -> Qe tag other.

Hypothesis Hpush :
  forall tag other,
    Qe tag other -> closable tag other = true -> Ce (closingOf tag).

Lemma entriesOk_same st st' :
  openedQueue st' = openedQueue st -> closeQueue st' = closeQueue st ->
  entriesOk Qe Ce st -> entriesOk Qe Ce st'.
Proof. unfold entriesOk. now intros -> ->. Qed.

Lemma openTags_loop_entries onlyVoid queue :
  forall r cq,
    Forall (fun entry => Qe (fst entry) (snd entry)) queue ->
    Forall Ce cq ->
    Forall (fun entry => Qe (fst entry) (snd entry))
           (fst (fst (openTags_loop onlyVoid queue r cq)))
    /\ Forall Ce (snd (openTags_loop onlyVoid queue r cq))
    /\ Forall (pieceOk Qe Ce) (openTags_log onlyVoid queue).
Proof.
  induction queue as [|[tag other] queue IH]; intros r cq Hq Hc; simpl.
  - repeat split; [constructor | assumption | constructor].
  - destruct (onlyVoid && negb (isVoidTag tag || charIs (lastChar other) "/")).
    + repeat split; [assumption | assumption | constructor].
    + inversion Hq as [|e q' He Hq']; subst. simpl in He.
      change (negb (isVoidTag tag || isOptionalVoidTag tag
                    || charIs (lastChar other) "/"))
        with (closable tag other).
      assert (Hc' : Forall Ce (if closable tag other
                               then cq ++ [closingOf tag] else cq)).
      { destruct (closable tag other) eqn:E; [|assumption].
        apply Forall_app. split; [assumption|].
        constructor; [now apply (Hpush tag other) | constructor]. }
      destruct (IH (r ++ ("<" ++ tag ++ other ++ ">"))%string _ Hq' Hc')
        as (H1 & H2 & H3).
      repeat split; [exact H1 | exact H2 |].
      constructor; [exact He | exact H3].
Qed.

Lemma openTags_entries onlyVoid st :
  entriesOk Qe Ce st ->
  entriesOk Qe Ce (openTags onlyVoid st)
  /\ Forall (pieceOk Qe Ce) (openTags_log onlyVoid (openedQueue st)).
Proof.
  intros [Hq Hc].
  destruct (openTags_loop_entries onlyVoid (openedQueue st) (result st)
                                  (closeQueue st) Hq Hc) as (H1 & H2 & H3).
  unfold openTags, entriesOk.
  destruct (openTags_loop _ _ _ _) as [[q r] cq]. simpl in *.
  repeat split; assumption.
Qed.

Lemma flushWord_entries st :
  entriesOk Qe Ce st ->
  entriesOk Qe Ce (snd (flushWord st))
  /\ Forall (pieceOk Qe Ce) (flushWord_log st).
Proof.
  intros Hst. unfold flushWord_log.
  destruct (flushWord st) as [[|] st'] eqn:E; simpl.
  - destruct (flushWord_true _ _ E)
      as [[Hw ->] | (n & Hn & _ & _ & _ & _ & _ & _ & _ & _ & Hq1 & Hq2)].
    + rewrite Hw. simpl. split; [exact Hst | constructor].
    + destruct (openTags_entries false st Hst) as [Ho Hl].
      split.
      * exact (entriesOk_same _ _ Hq1 Hq2 Ho).
      * destruct (Datatypes.length (cw st) =? 0); [constructor|].
        apply Forall_app. split; [exact Hl|].
        constructor; [exact I | constructor].
  - apply flushWord_false in E as ->. split; [exact Hst | constructor].
Qed.

Lemma popSearch_Forall (P : string -> Prop) stack closing :
  Forall P stack -> Forall P (snd (popSearch stack closing)).
Proof.
  induction 1 as [|top below Htop Hbelow IH]; simpl; [constructor|].
  now destruct (String.eqb top closing).
Qed.

Lemma addSuffix_queues st :
  openedQueue (addSuffixToResult st) = openedQueue st
  /\ closeQueue (addSuffixToResult st) = closeQueue st.
Proof.
  unfold addSuffixToResult, addSuffix.
  destruct (suffix opts); [destruct (negb (suffixAdded st))|]; now split.
Qed.

Lemma pieceOk_addSuffix_log st : Forall (pieceOk Qe Ce) (addSuffix_log st).
Proof.
  unfold addSuffix_log.
  destruct (suffix opts); [destruct (negb (suffixAdded st))|];
    repeat constructor.
Qed.

Lemma tagCase_entries fuel st st' :
  entriesOk Qe Ce st ->
  1 <= i st -> at_ (i st - 1) = Some "<"%char ->
  tagCase fuel st = Continue st' ->
  entriesOk Qe Ce st' /\ Forall (pieceOk Qe Ce) (tagCase_log st).
Proof.
  intros Hst Hi Hlt. rewrite tagCase_fuel. unfold tagCase, tagCase_log.
  destruct (charIs (at_ (i st)) "!").
  { destruct (charIs (at_ (i st + 1)) "-" && charIs (at_ (i st + 2)) "-") eqn:E.
    - apply andb_prop in E as [_ E].
      rewrite commentLoop_none by exact E.
      intros [= <-]. split; [exact Hst | constructor].
    - intros [= <-]. split; [exact Hst | repeat constructor]. }
  destruct (charIs (at_ (i st)) "/"); cycle 1.
  { destruct (openTag_frame st) as (_ & Hq & _ & _ & Ho).
    destruct (openTag st) as [[[tag other]|] st1] eqn:E; simpl in *;
      intros [= <-]; (split; [|constructor]).
    - destruct Hst as [Hst1 Hst2]. split; simpl.
      + rewrite Ho. apply Forall_app. split; [exact Hst1|].
        constructor; [|constructor]. simpl.
        exact (Hopen st tag other st1 Hi Hlt E).
      + now rewrite Hq.
    - exact (entriesOk_same _ _ Ho Hq Hst). }
  destruct (openTags_entries false st Hst) as [Ho Hl].
  set (st1 := openTags false st) in *.
  pose proof (closeTag_frame (set_i st1 (i st1 + 1))) as Hc.
  destruct (closeTag (set_i st1 (i st1 + 1))) as [tag st3]. simpl in Hc.
  assert (H3 : entriesOk Qe Ce st3) by (rewrite Hc; exact Ho).
  destruct (if haveToHaveClosingTag tag
            then popSearch (rev (closeQueue st3)) (closingOf tag)
            else (true, rev (closeQueue st3))) as [success stack] eqn:Ef.
  destruct success; [|discriminate]. simpl negb. cbv iota.
  assert (Hstack : Forall Ce (rev stack)).
  { apply Forall_rev. destruct H3 as [_ H3].
    apply Forall_rev in H3.
    destruct (haveToHaveClosingTag tag).
    - pose proof (popSearch_Forall Ce _ (closingOf tag) H3) as H.
      now rewrite Ef in H.
    - now injection Ef as <-. }
  intros [= <-]. split.
  - destruct H3 as [H3 _].
    change (current (set_closeQueue st3 (rev stack))) with (current st3).
    destruct ((length <=? current st3)%Z && shouldEncloseSuffixInTags opts).
    + destruct (addSuffix_queues (set_closeQueue st3 (rev stack))) as [Ha Hb].
      split; simpl; [rewrite Ha | rewrite Hb]; assumption.
    + split; assumption.
  - apply Forall_app. split; [exact Hl|].
    apply Forall_app. split.
    + destruct ((length <=? current st3)%Z && shouldEncloseSuffixInTags opts);
        [apply pieceOk_addSuffix_log | constructor].
    + repeat constructor.
Qed.

Lemma step_entries fuel c st st' :
  entriesOk Qe Ce st ->
  1 <= i st -> at_ (i st - 1) = Some c ->
  step fuel c st = Continue st' \/ step fuel c st = Break st' ->
  entriesOk Qe Ce st' /\ Forall (pieceOk Qe Ce) (step_log c st).
Proof.
  intros Hst Hi Hc. unfold step, step_log.
  destruct (Ascii.eqb c "<") eqn:Elt.
  { apply Ascii.eqb_eq in Elt. subst c.
    destruct (flushWord_entries st Hst) as [Hf Hl].
    pose proof (flushWord_i st) as Hfi.
    destruct (flushWord st) as [[|] st1] eqn:E; simpl in Hf, Hfi.
    - intros [H | H]; [|now apply tagCase_not_break in H].
      rewrite <- Hfi in Hi, Hc.
      destruct (tagCase_entries fuel st1 st' Hf Hi Hc H) as [H1 H2].
      split; [exact H1|]. apply Forall_app. now split.
    - intros [[=] | [= <-]]. split; [exact Hf | constructor]. }
  destruct (Ascii.eqb c "&").
  { simpl.
    destruct (entityLoop _ _ _) as [i' [|]]; (intros [[= <-] | [=]]);
      (split; [exact Hst | repeat constructor]). }
  destruct (negb (isLetter c) && negb (cwEmpty st)).
  - destruct (flushWord_entries (set_cwEmpty st true) Hst) as [Hf Hl].
    destruct (flushWord (set_cwEmpty st true)) as [[|] st1]; simpl in Hf.
    + intros [[= <-] | [=]]. split; [|exact Hl].
      destruct (negb (isWhitespace c)); exact Hf.
    + intros [[=] | [= <-]]. split; [exact Hf | exact Hl].
  - intros [[= <-] | [=]]. split; [|constructor].
    destruct (negb (isWhitespace c)); exact Hst.
Qed.

Lemma mainloop_entries fuel :
  forall st st',
    entriesOk Qe Ce st -> mainloop fuel st = Break st' ->
    entriesOk Qe Ce st' /\ Forall (pieceOk Qe Ce) (mainloop_log fuel st).
Proof.
  induction fuel as [|fuel IH]; intros st st' Hst; simpl.
  - destruct (current st <? length)%Z; [destruct (at_ (i st))|];
      try discriminate; intros [= <-]; (split; [exact Hst | constructor]).
  - destruct (current st <? length)%Z;
      [|intros [= <-]; split; [exact Hst | constructor]].
    destruct (at_ (i st)) as [c|] eqn:Ec;
      [|intros [= <-]; split; [exact Hst | constructor]].
    assert (Hc : at_ (i (set_i st (i st + 1)) - 1) = Some c).
    { simpl. now replace (i st + 1 - 1) with (i st) by lia. }
    assert (Hi : 1 <= i (set_i st (i st + 1))) by (simpl; lia).
    pose proof (step_entries fuel c (set_i st (i st + 1))) as Hs.
    destruct (step fuel c (set_i st (i st + 1))) as [st1|st1| |];
      try discriminate.
    + intros H.
      destruct (Hs st1 Hst Hi Hc (or_introl eq_refl)) as [H1 H2].
      destruct (IH st1 st' H1 H) as [H3 H4].
      split; [exact H3|]. apply Forall_app. now split.
    + intros [= <-].
      destruct (Hs st1 Hst Hi Hc (or_intror eq_refl)) as [H1 H2].
      split; [exact H1|]. now rewrite app_nil_r.
Qed.

Lemma finish_entries st :
  entriesOk Qe Ce st -> Forall (pieceOk Qe Ce) (finish_log st).
Proof.
  intros Hst. rewrite finish_log_eq.
  destruct (openTags_entries true st Hst) as [Ho Hl].
  destruct (flushWord_entries (openTags true st) Ho) as [[_ Hf] Hl2].
  apply Forall_app. split; [apply Forall_app; now split|].
  cbv zeta.
  assert (Hclosers : Forall (pieceOk Qe Ce)
                            (map Closer (rev (closeQueue
                               (snd (flushWord (openTags true st))))))).
  { apply Forall_map. apply Forall_rev. exact Hf. }
  assert (Hsuffix : Forall (pieceOk Qe Ce)
                           (if fst (flushWord (openTags true st)) then []
                            else addSuffix_log
                                   (snd (flushWord (openTags true st))))).
  { destruct (fst (flushWord (openTags true st)));
      [constructor | apply pieceOk_addSuffix_log]. }
  destruct (shouldEncloseSuffixInTags opts); apply Forall_app; now split.
Qed.

Lemma run_entries fuel out :
  run fuel = Returns out -> Forall (pieceOk Qe Ce) (run_log fuel).
Proof.
  intros (st & Hm & _)%run_returns. unfold run_log. rewrite Hm.
  assert (Hinit : entriesOk Qe Ce initial) by (split; constructor).
  destruct (mainloop_entries _ _ _ Hinit Hm) as [Hst Hl].
  apply Forall_app. split; [exact Hl | now apply finish_entries].
Qed.

End Entries.

(** X9.  A void element and an element with an optional closing tag never
    get a closing tag of the code's own: every closing tag that a call
    appends at the end is ["</tag>"] for a [tag] that is neither in the
    table of void elements nor in [optionalVoidHtmlTags]. *)
Theorem closers_only_for_closable (call : Call) (out closing : string) :
  html_substring_of call = Returns out ->
  In (Closer closing) (html_substring_log_of call) ->
  exists tag,
    closing = closingOf tag
    /\ isVoidTag tag = false /\ isOptionalVoidTag tag = false.
Proof.
  intros Hout Hin. unfold html_substring_of, html_substring_log_of in *.
  assert (H : Forall
                (pieceOk (fun _ _ => True)
                         (fun c => exists tag,
                              c = closingOf tag
                              /\ isVoidTag tag = false
                              /\ isOptionalVoidTag tag = false))
                (run_log (Datatypes.length chars))).
  { apply (run_entries _ _) with (out := out); [trivial | | exact Hout].
    intros tag other _ Hc. exists tag. split; [reflexivity|].
    unfold closable in Hc. apply negb_true_iff in Hc.
    apply orb_false_iff in Hc as [Hc _].
    now apply orb_false_iff in Hc. }
  rewrite Forall_forall in H. exact (H _ Hin).
Qed.

Lemma closers_only_for_closable_witness :
  let call := mkCall htmlVoidTags
                     (list_ascii_of_string "<ul><li>One<br><li>Two</ul>") 3
                     DEFAULT_OPTIONS in
  html_substring_of call = Returns "<ul><li>One<br></ul>"
  /\ In (Closer "</ul>") (html_substring_log_of call)
  /\ exists tag,
       "</ul>" = closingOf tag
       /\ isVoidTag tag = false /\ isOptionalVoidTag tag = false.
Proof.
  intros call.
  assert (Hout : html_substring_of call = Returns "<ul><li>One<br></ul>")
    by (vm_compute; reflexivity).
  assert (Hin : In (Closer "</ul>") (html_substring_log_of call))
    by (vm_compute; tauto).
  split; [exact Hout|]. split; [exact Hin|].
  exact (closers_only_for_closable call _ _ Hout Hin).
Defined.

Lemma skipn_pred {A : Type} (xs : list A) (k : nat) (x : A) :
  1 <= k -> nth_error xs (k - 1) = Some x ->
  skipn (k - 1) xs = x :: skipn k xs.
Proof.
  intros Hk Hx. destruct k as [|k]; [lia|].
  replace (S k - 1) with k in * by lia.
  revert k Hk Hx. induction xs as [|y xs IH]; intros [|k] _ Hx;
    try discriminate.
  - simpl in Hx. now injection Hx as ->.
  - simpl in Hx. simpl. apply IH; [lia | exact Hx].
Qed.

(** X10.  The open tags of the output are open tags of the source: every
    open tag that a call writes stands in the source as it is written,
    from its ['<'] to its ['>'], name and attributes character by
    character. *)
Theorem open_tags_come_from_source (call : Call) (out tag other : string) :
  html_substring_of call = Returns out ->
  In (Opening tag other) (html_substring_log_of call) ->
  occursInSource ("<" ++ tag ++ other ++ ">")%string.
Proof.
  intros Hout Hin. unfold html_substring_of, html_substring_log_of in *.
  assert (H : Forall
                (pieceOk (fun t o => occursInSource ("<" ++ t ++ o ++ ">")%string)
                         (fun _ => True))
                (run_log (Datatypes.length chars))).
  { apply (run_entries _ _) with (out := out); [| trivial | exact Hout].
    clear. intros st tag other st' Hi Hlt Hopen.
    apply openTag_sound in Hopen
      as (name & attrs & rest & Hskip & _ & _ & _ & _ & -> & -> & _).
    exists (i st - 1). unfold slice.
    rewrite (skipn_pred chars (i st) _ Hi Hlt), Hskip.
    replace (i st - 1 + String.length ("<" ++ join name ++ join attrs ++ ">")
             - (i st - 1))
      with (Datatypes.length ("<"%char :: name ++ attrs ++ [">"%char])).
    - replace ("<"%char :: name ++ attrs ++ ">"%char :: rest)
        with (("<"%char :: name ++ attrs ++ [">"%char]) ++ rest)
        by (simpl; now rewrite <- !app_assoc).
      rewrite firstn_app, firstn_all, Nat.sub_diag. simpl firstn.
      rewrite app_nil_r. simpl. now rewrite !join_app.
    - simpl. rewrite !length_app, !slength_app, !slength_join. simpl. lia. }
  rewrite Forall_forall in H. exact (H _ Hin).
Qed.

Lemma open_tags_come_from_source_witness :
  let call := mkCall htmlVoidTags
                     (list_ascii_of_string "<a href=x>Hello</a>") 2
                     DEFAULT_OPTIONS in
  html_substring_of call = Returns "<a href=x>He</a>"
  /\ In (Opening "a" " href=x") (html_substring_log_of call)
  /\ occursInSource "<a href=x>".
Proof.
  intros call.
  assert (Hout : html_substring_of call = Returns "<a href=x>He</a>")
    by (vm_compute; reflexivity).
  assert (Hin : In (Opening "a" " href=x") (html_substring_log_of call))
    by (vm_compute; tauto).
  split; [exact Hout|]. split; [exact Hin|].
  exact (open_tags_come_from_source call _ "a" " href=x" Hout Hin).
Defined.

(** ** The budget *)

Lemma textUnits_app ps qs : textUnits (ps ++ qs) = textUnits ps + textUnits qs.
Proof.
  induction ps as [|p ps IH]; [reflexivity|].
  destruct p; simpl; rewrite IH; lia.
Qed.

Section Counting.

Context {call : Call}.

Lemma textUnits_openTags_log onlyVoid queue :
  textUnits (openTags_log onlyVoid queue) = 0.
Proof.
  induction queue as [|[tag other] queue IH]; simpl; [reflexivity|].
  now destruct (onlyVoid && negb (isVoidTag tag || charIs (lastChar other) "/")).
Qed.

Lemma textUnits_addSuffix_log st : textUnits (addSuffix_log st) = 0.
Proof.
  unfold addSuffix_log.
  destruct (suffix opts); [destruct (negb (suffixAdded st))|]; reflexivity.
Qed.

(** [flushWord] counts what it writes, and stays within the budget when
    it was within it. *)
Lemma flushWord_counts st :
  current (snd (flushWord st))
  = (current st + Z.of_nat (textUnits (flushWord_log st)))%Z
  /\ (current (snd (flushWord st)) <= Z.max (current st) length)%Z.
Proof.
  unfold flushWord_log.
  destruct (flushWord st) as [[|] st'] eqn:E; simpl.
  - destruct (flushWord_true _ _ E)
      as [[Hw ->] | (n & Hn & Hb & _ & _ & Hc & Hcw & _)].
    + rewrite Hw. simpl. lia.
    + destruct (Datatypes.length (cw st) =? 0) eqn:E0.
      { apply Nat.eqb_eq in E0. lia. }
      rewrite textUnits_app, textUnits_openTags_log, Hcw, length_skipn.
      simpl. rewrite slength_join, length_firstn. lia.
  - apply flushWord_false in E as ->. simpl. lia.
Qed.

Lemma addSuffix_current st : current (addSuffixToResult st) = current st.
Proof.
  unfold addSuffixToResult, addSuffix.
  destruct (suffix opts); [destruct (negb (suffixAdded st))|]; reflexivity.
Qed.

(** The case of a tag counts one character, the ['<'] that is followed
    by a ['!'] without ["--"], and nothing else. *)
Lemma tagCase_counts fuel st st' :
  tagCase fuel st = Continue st' ->
  current st' = (current st + Z.of_nat (textUnits (tagCase_log st)))%Z
  /\ (current st' <= current st + 1)%Z.
Proof.
  rewrite tagCase_fuel. unfold tagCase, tagCase_log.
  destruct (charIs (at_ (i st)) "!").
  { destruct (charIs (at_ (i st + 1)) "-" && charIs (at_ (i st + 2)) "-") eqn:E.
    - apply andb_prop in E as [_ E].
      rewrite commentLoop_none by exact E.
      intros [= <-]. simpl. lia.
    - intros [= <-]. simpl. lia. }
  destruct (charIs (at_ (i st)) "/"); cycle 1.
  { destruct (openTag_frame st) as (_ & _ & _ & Hc & _).
    destruct (openTag st) as [[tag|] st1]; simpl in Hc;
      intros [= <-]; simpl; lia. }
  destruct (openTags_frame false st) as (Hc1 & _).
  set (st1 := openTags false st) in *.
  pose proof (closeTag_frame (set_i st1 (i st1 + 1))) as Hc.
  destruct (closeTag (set_i st1 (i st1 + 1))) as [tag st3]. simpl in Hc.
  assert (Hc3 : current st3 = current st) by (rewrite Hc; exact Hc1).
  match goal with
  | |- context [let '(a, b) := ?e in _] => destruct e as [success stack]
  end.
  destruct (negb success); [discriminate|].
  intros [= <-].
  rewrite !textUnits_app, textUnits_openTags_log.
  change (current (set_closeQueue st3 (rev stack))) with (current st3).
  destruct ((length <=? current st3)%Z && shouldEncloseSuffixInTags opts).
  - rewrite textUnits_addSuffix_log. simpl.
    change (current (addSuffixToResult (set_closeQueue st3 (rev stack)))
            = (current st + 0)%Z
            /\ (current (addSuffixToResult (set_closeQueue st3 (rev stack)))
                <= current st + 1)%Z).
    rewrite addSuffix_current. simpl. lia.
  - simpl. lia.
Qed.

(** One pass of the loop, begun with budget left, counts what it writes
    as text and ends at most one character over the budget. *)
Lemma step_counts fuel c st st' :
  (current st < length)%Z ->
  step fuel c st = Continue st' \/ step fuel c st = Break st' ->
  current st' = (current st + Z.of_nat (textUnits (step_log c st)))%Z
  /\ (current st' <= length + 1)%Z.
Proof.
  intros Hg. unfold step, step_log.
  destruct (Ascii.eqb c "<").
  { destruct (flushWord_counts st) as [Hf Hb].
    destruct (flushWord st) as [[|] st1] eqn:E; simpl in Hf, Hb.
    - intros [H | H]; [|now apply tagCase_not_break in H].
      destruct (tagCase_counts _ _ _ H) as [Ht Hb'].
      rewrite textUnits_app. lia.
    - apply flushWord_false in E as ->.
      intros [[=] | [= <-]]. simpl. lia. }
  destruct (Ascii.eqb c "&").
  { simpl.
    destruct (entityLoop _ _ _) as [i' [|]]; (intros [[= <-] | [=]]);
      simpl; lia. }
  destruct (negb (isLetter c) && negb (cwEmpty st)).
  - destruct (flushWord_counts (set_cwEmpty st true)) as [Hf Hb].
    destruct (flushWord (set_cwEmpty st true)) as [[|] st1];
      simpl in Hf, Hb.
    + intros [[= <-] | [=]].
      destruct (negb (isWhitespace c)); simpl; lia.
    + intros [[=] | [= <-]]. simpl in *. lia.
  - intros [[= <-] | [=]].
    destruct (negb (isWhitespace c)); simpl; lia.
Qed.

Lemma mainloop_counts fuel :
  forall st st',
    mainloop fuel st = Break st' ->
    current st' = (current st + Z.of_nat (textUnits (mainloop_log fuel st)))%Z
    /\ (current st' <= Z.max (current st) (length + 1))%Z.
Proof.
  induction fuel as [|fuel IH]; intros st st'; simpl.
  - destruct (current st <? length)%Z; [destruct (at_ (i st))|];
      try discriminate; intros [= <-]; simpl; lia.
  - destruct (current st <? length)%Z eqn:Eg;
      [|intros [= <-]; simpl; lia].
    destruct (at_ (i st)) as [c|]; [|intros [= <-]; simpl; lia].
    apply Z.ltb_lt in Eg.
    pose proof (step_counts fuel c (set_i st (i st + 1)) ) as Hs.
    destruct (step fuel c (set_i st (i st + 1))) as [st1|st1| |];
      try discriminate.
    + intros H. destruct (Hs st1 Eg (or_introl eq_refl)) as [H1 H2].
      destruct (IH _ _ H) as [H3 H4].
      rewrite textUnits_app. simpl in H1. lia.
    + intros [= <-]. destruct (Hs st1 Eg (or_intror eq_refl)) as [H1 H2].
      rewrite app_nil_r. simpl in H1. lia.
Qed.

Lemma textUnits_closers xs : textUnits (map Closer xs) = 0.
Proof. induction xs as [|x xs IH]; [reflexivity | exact IH]. Qed.

Lemma finish_counts st :
  (Z.of_nat (textUnits (finish_log st)) + current st
   <= Z.max (current st) length)%Z.
Proof.
  rewrite finish_log_eq, !textUnits_app, textUnits_openTags_log.
  destruct (flushWord_counts (openTags true st)) as [Hf Hb].
  destruct (openTags_frame true st) as (Hc & _). rewrite Hc in Hf, Hb.
  cbv zeta.
  assert (E : forall a b, textUnits (if shouldEncloseSuffixInTags opts
                                     then a ++ b else b ++ a)
                          = textUnits a + textUnits b).
  { intros a b. destruct (shouldEncloseSuffixInTags opts);
      rewrite textUnits_app; lia. }
  rewrite E, textUnits_closers.
  destruct (fst (flushWord (openTags true st)));
    rewrite ?textUnits_addSuffix_log; simpl; lia.
Qed.

End Counting.

(** X11.  The text that a call writes and counts (the characters of the
    source it keeps, an entity for one character, the suffix apart) is at
    most [length + 1] characters, for a length that is not negative. *)
Theorem counted_text_within_budget (call : Call) (out : string) :
  (0 <= length)%Z ->
  html_substring_of call = Returns out ->
  (Z.of_nat (textUnits (html_substring_log_of call)) <= length + 1)%Z.
Proof.
  intros Hlen (st & Hm & _)%run_returns.
  unfold html_substring_log_of, run_log. rewrite Hm, textUnits_app.
  destruct (mainloop_counts _ _ _ Hm) as [Hc Hb]. simpl in Hc, Hb.
  pose proof (finish_counts st). lia.
Qed.

Lemma counted_text_within_budget_witness :
  let call := mkCall htmlVoidTags (list_ascii_of_string "ab<!x &amp; c") 2
                     (options_of_string "...") in
  (0 <= 2)%Z
  /\ html_substring_of call = Returns "ab<"
  /\ (Z.of_nat (textUnits (html_substring_log_of call)) <= 2 + 1)%Z.
Proof.
  intros call. split; [lia|].
  assert (Hout : html_substring_of call = Returns "ab<")
    by (vm_compute; reflexivity).
  split; [exact Hout|].
  apply (counted_text_within_budget call "ab<"); [simpl; lia | exact Hout].
Defined.

(** ** The queue of open tags *)

Lemma openTags_loop_closed {call : Call} (onlyVoid : bool)
      (queue : list (string * string)) :
  forall r cq,
    openTags_loop onlyVoid queue r cq
    = (behind (writtenWhen onlyVoid) queue,
       (r ++ joinAll (map openText (leading (writtenWhen onlyVoid) queue)))%string,
       cq ++ map (fun entry => closingOf (fst entry))
                 (filter needsCloser (leading (writtenWhen onlyVoid) queue))).
Proof.
  induction queue as [|[tag other] queue IH]; intros r cq.
  - simpl. unfold joinAll. simpl. now rewrite sapp_nil_r, app_nil_r.
  - assert (Hp : writtenWhen onlyVoid (tag, other)
                 = negb (onlyVoid
                         && negb (isVoidTag tag || charIs (lastChar other) "/"))).
    { unfold writtenWhen, writtenAtEnd. cbn [fst snd].
      destruct onlyVoid; cbn [negb andb orb]; [|reflexivity].
      now rewrite negb_involutive. }
    assert (Hn : needsCloser (tag, other)
                 = negb (isVoidTag tag || isOptionalVoidTag tag
                         || charIs (lastChar other) "/")) by reflexivity.
    cbn [openTags_loop leading behind]. rewrite Hp.
    destruct (onlyVoid && negb (isVoidTag tag || charIs (lastChar other) "/"));
      cbn [negb].
    + unfold joinAll. simpl. now rewrite sapp_nil_r, app_nil_r.
    + rewrite IH. cbn [map filter]. rewrite Hn, joinAll_cons, sapp_assoc.
      unfold openText at 2. cbn [fst snd].
      destruct (negb (isVoidTag tag || isOptionalVoidTag tag
                      || charIs (lastChar other) "/"));
        cbn [map fst]; now rewrite <- ?app_assoc.
Qed.

Lemma leading_all {A : Type} (p : A -> bool) (xs : list A) :
  (forall x, p x = true) -> leading p xs = xs /\ behind p xs = [].
Proof.
  intros H. induction xs as [|x xs [IH1 IH2]]; simpl; [now split|].
  rewrite H, IH1. now split.
Qed.

(** X12.  [openTags] writes the queued open tags from the front of the
    queue, in the order of the queue, each as ["<" tag other ">"], and
    pushes a closing tag for each of them that is neither void, nor
    optional, nor closed by a ['/'].  Without [onlyVoid] it writes all of
    them and leaves the queue empty; with [onlyVoid] it stops at the first
    entry that is neither void nor closed by a ['/'] and keeps that entry
    and all behind it, void ones included. *)
Theorem openTags_writes_in_order (call : Call) (onlyVoid : bool) (st : State) :
  let written := leading (writtenWhen onlyVoid) (openedQueue st) in
  openedQueue (openTags onlyVoid st)
  = behind (writtenWhen onlyVoid) (openedQueue st)
  /\ result (openTags onlyVoid st)
     = (result st ++ joinAll (map openText written))%string
  /\ closeQueue (openTags onlyVoid st)
     = closeQueue st
       ++ map (fun entry => closingOf (fst entry)) (filter needsCloser written)
  /\ (onlyVoid = false ->
      written = openedQueue st /\ openedQueue (openTags onlyVoid st) = []).
Proof.
  intros written. unfold openTags.
  rewrite (openTags_loop_closed onlyVoid (openedQueue st)).
  cbn [openedQueue result closeQueue set_closeQueue set_result
       set_openedQueue].
  repeat split; try reflexivity.
  - subst written. rewrite H.
    now apply (leading_all (writtenWhen false) (openedQueue st)).
  - rewrite H. now apply (leading_all (writtenWhen false) (openedQueue st)).
Qed.

(** ** The entity case, when no [';'] closes the reference *)

Lemma entityLoop_whitespace (name : list ascii) (w : ascii) (rest : list ascii) :
  forall k start,
    forallb entityChar name = true ->
    isWhitespace w = true ->
    entityLoop (name ++ w :: rest) k start = (start, false).
Proof.
  induction name as [|x name IH]; intros k start Hn Hw; simpl.
  - now rewrite Hw.
  - simpl in Hn. apply andb_prop in Hn as [Hx Hn].
    unfold entityChar in Hx. apply andb_prop in Hx as [H1 H2].
    apply negb_true_iff in H1, H2. rewrite H1, H2. now apply IH.
Qed.

Lemma entityLoop_end (name : list ascii) :
  forall k start,
    forallb entityChar name = true ->
    entityLoop name k start = (k + Datatypes.length name, false).
Proof.
  induction name as [|x name IH]; intros k start Hn; simpl.
  - now rewrite Nat.add_0_r.
  - simpl in Hn. apply andb_prop in Hn as [Hx Hn].
    unfold entityChar in Hx. apply andb_prop in Hx as [H1 H2].
    apply negb_true_iff in H1, H2. rewrite H1, H2, IH by exact Hn.
    f_equal. lia.
Qed.

(** X13.  In a state of the loop with budget left, on an ['&'] followed
    by characters other than white space and [';'] and then by a white
    space, one pass writes the ['&'] alone, counts one character and goes
    on just after the ['&']: what follows it is read again as text. *)
Theorem entity_rewinds_on_whitespace (call : Call) (st : State)
        (name : list ascii) (w : ascii) (rest : list ascii) :
  (current st <? length)%Z = true ->
  skipn (i st) chars = "&"%char :: name ++ w :: rest ->
  forallb entityChar name = true ->
  isWhitespace w = true ->
  passes 1 st
  = Some (set_i (set_current (emit st "&") (current st + 1)) (i st + 1)).
Proof.
  intros Eg Hskip Hn Hw.
  assert (Ec : at_ (i st) = Some "&"%char).
  { unfold at_. now rewrite <- hd_error_skipn, Hskip. }
  assert (Hskip' : skipn (i st + 1) chars = name ++ w :: rest).
  { rewrite Nat.add_comm, <- skipn_skipn, Hskip. reflexivity. }
  simpl. rewrite Eg, Ec. unfold step. simpl Ascii.eqb. cbv iota zeta.
  cbn [i emit set_current set_result set_i].
  rewrite Hskip', (entityLoop_whitespace name w rest _ _ Hn Hw).
  replace (i st + 1 - 1 + 1) with (i st + 1) by lia.
  reflexivity.
Qed.

Lemma entity_rewinds_on_whitespace_witness :
  let call := mkCall htmlVoidTags (list_ascii_of_string "a &b c") 10
                     DEFAULT_OPTIONS in
  let st := {| current := 1; i := 2; openedQueue := []; closeQueue := [];
               result := "a"; suffixAdded := false;
               cw := [" "]%char; cwEmpty := true |} in
  passes 2 initial = Some st
  /\ passes 1 st
     = Some (set_i (set_current (emit st "&") (current st + 1)) (i st + 1)).
Proof.
  intros call st. split; [vm_compute; reflexivity|].
  apply (entity_rewinds_on_whitespace call st ["b"%char] " "%char ["c"%char]);
    reflexivity.
Defined.

(** X14.  When the scan comes, with budget left, to an ['&'] that is
    followed up to the end of the source by characters other than white
    space and [';'], the call writes and counts the ['&'] and reads
    nothing more: it returns what the statements after the loop make of
    that state, and the characters behind the ['&'] are lost. *)
Theorem unterminated_entity_drops_rest (call : Call) (st : State)
        (name : list ascii) :
  reachable st ->
  (current st <? length)%Z = true ->
  skipn (i st) chars = "&"%char :: name ->
  forallb entityChar name = true ->
  html_substring_of call
  = Returns (finish (set_i (set_current (emit st "&") (current st + 1))
                           (Datatypes.length chars))).
Proof.
  intros Hst Eg Hskip Hn.
  assert (Ec : at_ (i st) = Some "&"%char).
  { unfold at_. now rewrite <- hd_error_skipn, Hskip. }
  assert (Hskip' : skipn (i st + 1) chars = name).
  { rewrite Nat.add_comm, <- skipn_skipn, Hskip. reflexivity. }
  assert (Hlen : Datatypes.length chars = i st + 1 + Datatypes.length name).
  { pose proof (f_equal (@Datatypes.length ascii) Hskip) as H.
    rewrite length_skipn in H. simpl in H. lia. }
  unfold html_substring_of, run.
  rewrite <- (reachable_mainloop st Hst).
  destruct (Datatypes.length chars) as [|n] eqn:En; [lia|].
  simpl mainloop. rewrite Eg, Ec. unfold step. simpl Ascii.eqb.
  cbv iota zeta. cbn [i emit set_current set_result set_i].
  rewrite Hskip', (entityLoop_end name _ _ Hn), <- Hlen.
  set (st' := set_i _ (S n)).
  assert (Hend : at_ (i st') = None).
  { unfold at_. apply nth_error_None. subst st'. simpl. lia. }
  assert (Hm : mainloop n st' = Break st').
  { clearbody st'.
    destruct n; simpl; rewrite Hend;
      now destruct (current st' <? length)%Z. }
  rewrite Hm. reflexivity.
Qed.

Lemma unterminated_entity_drops_rest_witness :
  let call := mkCall htmlVoidTags (list_ascii_of_string "<b>x &amp") 10
                     DEFAULT_OPTIONS in
  let st := {| current := 1; i := 5; openedQueue := [];
               closeQueue := ["</b>"]; result := "<b>x"; suffixAdded := false;
               cw := [" "]%char; cwEmpty := true |} in
  passes 3 initial = Some st
  /\ html_substring_of call = Returns "<b>x& </b>".
Proof.
  intros call st.
  assert (Hp : passes 3 initial = Some st) by (vm_compute; reflexivity).
  split; [exact Hp|].
  rewrite (unterminated_entity_drops_rest call st (list_ascii_of_string "amp")).
  - vm_compute. reflexivity.
  - exact (passes_reachable 3 initial st reach_initial Hp).
  - reflexivity.
  - reflexivity.
  - reflexivity.
Defined.

(** ** Instances of the general statements above *)

Lemma plain_text_prefix_witness :
  let call := mkCall htmlVoidTags (list_ascii_of_string "hello world") 3
                     (options_of_string "...") in
  forallb isPlain chars = true
  /\ (0 <= length)%Z
  /\ breakWords opts = true
  /\ exists tail,
       html_substring_of call
       = Returns (join (firstn (Z.to_nat length) chars) ++ tail)%string
       /\ (tail = ""
           \/ ((length < Z.of_nat (Datatypes.length chars))%Z
               /\ exists sfx, suffix opts = Some sfx /\ tail = suffixText sfx)).
Proof.
  intros call.
  assert (H1 : forallb isPlain chars = true) by reflexivity.
  assert (H2 : (0 <= length)%Z) by (simpl; lia).
  assert (H3 : breakWords opts = true) by reflexivity.
  repeat split; try assumption.
  exact (plain_text_prefix H1 H2 H3).
Defined.

Lemma balanced_iff_no_drops_witness :
  html_substring htmlVoidTags "<b><i>x</b>" 10 DEFAULT_OPTIONS
  = Returns "<b><i>x</b>"
  /\ html_substring_balanced htmlVoidTags "<b><i>x</b>" 10 DEFAULT_OPTIONS
     = noDrops (html_substring_log htmlVoidTags "<b><i>x</b>" 10
                                   DEFAULT_OPTIONS).
Proof.
  assert (H : html_substring htmlVoidTags "<b><i>x</b>" 10 DEFAULT_OPTIONS
              = Returns "<b><i>x</b>") by (vm_compute; reflexivity).
  split; [exact H|].
  exact (balanced_iff_no_drops htmlVoidTags "<b><i>x</b>" 10 DEFAULT_OPTIONS
                               "<b><i>x</b>" H).
Defined.

Lemma comment_case_witness :
  let call := mkCall htmlVoidTags (list_ascii_of_string "<!--body-->") 100
                     DEFAULT_OPTIONS in
  let st := set_i initial 1 in
  exists st',
    tagCase 0 st = Continue st'
    /\ result st' = result st
    /\ current st' = current st
    /\ i st' = i st + 4.
Proof.
  intros call st. apply (@comment_case call 0 st); reflexivity.
Defined.

(** ** Text without markup, words kept whole *)

Section WholeWords.

Context {call : Call}.

Hypothesis Hbw : breakWords opts = false.

(** The part of [result] in a state of the scan of a plain source. *)
Lemma plainInv_prefix st :
  plainInv st ->
  result st = join (firstn (String.length (result st)) chars)
  /\ String.length (result st) + Datatypes.length (cw st) = i st.
Proof.
  intros (Hres & _ & _ & _ & _ & _ & _ & Hi).
  set (rl := list_ascii_of_string (result st)).
  assert (Hrl : result st = join rl)
    by (unfold join, rl; now rewrite string_of_list_ascii_of_string).
  assert (Hlrl : Datatypes.length rl = String.length (result st))
    by (now rewrite Hrl, slength_join).
  assert (Hparts : rl ++ cw st = firstn (i st) chars).
  { apply join_inj. now rewrite join_app, <- Hrl. }
  split.
  - pose proof (firstn_read rl (cw st) (i st) 0 Hparts) as Hfr.
    simpl in Hfr. rewrite app_nil_r, Nat.add_0_r, Hlrl in Hfr.
    rewrite Hfr by lia. exact Hrl.
  - apply (f_equal (@Datatypes.length ascii)) in Hparts.
    rewrite length_app, length_firstn in Hparts. lia.
Qed.

(** One pass over a plain character without [breakWords]: either the
    pending word is written whole, up to a character that is not a
    letter, or it does not fit and the loop is left. *)
Lemma whole_pass fuel st c :
  plainInv st ->
  wordBoundary (String.length (result st)) = true ->
  (current st <? length)%Z = true ->
  at_ (i st) = Some c ->
  isPlain c = true ->
  (exists st',
      step fuel c (set_i st (i st + 1)) = Continue st'
      /\ plainInv st'
      /\ wordBoundary (String.length (result st')) = true)
  \/ (step fuel c (set_i st (i st + 1))
      = Break (set_cwEmpty (set_i st (i st + 1)) true)
      /\ cw st <> []
      /\ (length < current st + Z.of_nat (Datatypes.length (cw st)))%Z).
Proof.
  intros Hinv Hwb Eg Ec Hc.
  destruct (plainInv_prefix st Hinv) as [_ Hsum].
  destruct Hinv as (Hres & Hcur & Hle & Hoq & Hcq & Hsa & Hce & Hi).
  apply Z.ltb_lt in Eg.
  unfold isPlain in Hc. apply andb_prop in Hc as [Hlt Hamp].
  apply negb_true_iff in Hlt, Hamp.
  assert (Hi' : i st < Datatypes.length chars)
    by (apply nth_error_Some; unfold at_ in Ec; congruence).
  assert (Hnext : forall r w,
             (r ++ join w)%string = join (firstn (i st) chars) ->
             (r ++ join (w ++ [c]))%string = join (firstn (i st + 1) chars)).
  { intros r w H. rewrite (firstn_snoc _ _ _ Ec), !join_app, <- sapp_assoc.
    now rewrite H. }
  unfold step. rewrite Hlt, Hamp.
  set (st0 := set_i st (i st + 1)).
  change (cwEmpty st0) with (cwEmpty st).
  destruct (negb (isLetter c) && negb (cwEmpty st)) eqn:Eflush.
  - apply andb_prop in Eflush as [Hnl Hne]. apply negb_true_iff in Hne.
    destruct (flushWord (set_cwEmpty st0 true)) as [[|] st1] eqn:Ef.
    + left.
      destruct (flushWord_true _ _ Ef)
        as [[Hw _] | (n & Hn & Hb & Hm & Hr & Hc' & Hw & He & Hs & Hi1 & Hq1 & Hq2)].
      { exfalso. now apply (Hce Hne). }
      destruct (openTags_empty false (set_cwEmpty st0 true) Hoq) as (Ho1 & Ho2 & Ho3).
      rewrite Hbw in Hm.
      simpl in Hn, Hb, Hm, Hr, Hc', Hw, He, Hs, Hi1, Hq1, Hq2, Ho1, Ho2, Ho3.
      rewrite Ho1 in Hr. rewrite Ho2 in Hq1. rewrite Ho3 in Hq2.
      eexists. split; [reflexivity|].
      assert (Hinv : (result st1 ++ join (cw st1 ++ [c]))%string
                     = join (firstn (i st + 1) chars)).
      { apply Hnext. rewrite Hr, Hw, sapp_assoc, <- join_app, firstn_skipn.
        exact Hres. }
      assert (Hcur1 : current st1 = Z.of_nat (String.length (result st1))).
      { rewrite Hc', Hr, slength_app, slength_join, length_firstn, Hcur. lia. }
      assert (Hwb1 : wordBoundary (String.length (result st1)) = true).
      { rewrite Hr, slength_app, slength_join, Hm, firstn_all.
        rewrite Hsum. unfold wordBoundary. rewrite Ec, Hnl.
        apply orb_true_r. }
      destruct (negb (isWhitespace c));
        (split; [|exact Hwb1]);
        (repeat split; simpl; rewrite ?Hi1; try assumption; try congruence;
         try lia; try (intros _ H; now destruct (cw st1))).
    + right. apply flushWord_false_inv in Ef as (-> & Hw & Hb).
      rewrite Hbw in Hb. simpl in Hb, Hw.
      split; [reflexivity|]. split; assumption.
  - left. eexists. split; [reflexivity|].
    destruct (negb (isWhitespace c));
      (split; [|exact Hwb]);
      (repeat split; simpl; try assumption; try lia;
       try (now apply Hnext);
       try (intros _ H; now destruct (cw st))).
Qed.

Lemma whole_mainloop fuel :
  forallb isPlain chars = true ->
  forall st,
    plainInv st ->
    wordBoundary (String.length (result st)) = true ->
    match mainloop fuel st with
    | Break st' =>
        (plainInv st'
         /\ wordBoundary (String.length (result st')) = true
         /\ ((length <= current st')%Z \/ i st' = Datatypes.length chars))
        \/ (exists st0,
               plainInv st0
               /\ wordBoundary (String.length (result st0)) = true
               /\ st' = set_cwEmpty (set_i st0 (i st0 + 1)) true
               /\ cw st0 <> []
               /\ (length < current st0
                             + Z.of_nat (Datatypes.length (cw st0)))%Z)
    | Diverge => True
    | _ => False
    end.
Proof.
  intros Hplain.
  assert (Hend : forall st, plainInv st -> at_ (i st) = None ->
                            i st = Datatypes.length chars).
  { intros st (_ & _ & _ & _ & _ & _ & _ & Hi) Ec.
    apply nth_error_None in Ec. lia. }
  induction fuel as [|fuel IH]; intros st Hinv Hwb; simpl.
  - destruct (current st <? length)%Z eqn:Eg.
    + destruct (at_ (i st)) as [c|] eqn:Ec; [exact I|].
      left. split; [exact Hinv|]. split; [exact Hwb|]. right. now apply Hend.
    + left. split; [exact Hinv|]. split; [exact Hwb|]. left. now apply Z.ltb_ge.
  - destruct (current st <? length)%Z eqn:Eg.
    + destruct (at_ (i st)) as [c|] eqn:Ec.
      * assert (Hc : isPlain c = true).
        { rewrite forallb_forall in Hplain. apply Hplain.
          exact (nth_error_In _ _ Ec). }
        destruct (whole_pass fuel st c Hinv Hwb Eg Ec Hc)
          as [(st1 & -> & Hinv1 & Hwb1) | (-> & Hw & Hb)].
        -- now apply IH.
        -- right. exists st. split; [exact Hinv|]. split; [exact Hwb|].
           split; [reflexivity|]. split; assumption.
      * left. split; [exact Hinv|]. split; [exact Hwb|]. right. now apply Hend.
    + left. split; [exact Hinv|]. split; [exact Hwb|]. left. now apply Z.ltb_ge.
Qed.

(** The statements after the loop, when the pending word does not fit. *)
Lemma finish_word_left st :
  openedQueue st = [] ->
  closeQueue st = [] ->
  suffixAdded st = false ->
  cw st <> [] ->
  (length < current st + Z.of_nat (Datatypes.length (cw st)))%Z ->
  finish st
  = (result st ++ match suffix opts with
                  | Some sfx => suffixText sfx
                  | None => ""
                  end)%string.
Proof.
  intros Hoq Hcq Hsa Hw Hb.
  destruct (openTags_empty true st Hoq) as (Ho1 & Ho2 & Ho3).
  destruct (openTags_frame true st) as (Hf1 & Hf2 & Hf3 & Hf4).
  unfold finish, getResultWithSuffixBeforeClosingTags,
    getResultWithSuffixAfterClosingTags.
  destruct (flushWord (openTags true st)) as [[|] st2] eqn:Ef; cbv zeta;
    cbn [closeQueue result set_closeQueue].
  - exfalso.
    destruct (flushWord_true _ _ Ef)
      as [[Hw' _] | (n & Hn & Hb' & Hm & _)].
    + rewrite Hf2 in Hw'. contradiction.
    + rewrite Hbw in Hm. rewrite Hf1, Hf2 in *. lia.
  - apply flushWord_false in Ef as ->.
    rewrite Ho3, Hcq, Ho1. simpl rev.
    unfold addSuffix. cbn [suffixAdded set_closeQueue]. rewrite Hf4, Hsa.
    destruct (suffix opts) as [sfx|];
      destruct (shouldEncloseSuffixInTags opts); unfold joinAll; simpl;
        now rewrite ?sapp_nil_r.
Qed.

(** The statements after the loop, when the pending word fits. *)
Lemma finish_word_fits st :
  openedQueue st = [] ->
  closeQueue st = [] ->
  (current st + Z.of_nat (Datatypes.length (cw st)) <= length)%Z ->
  finish st = (result st ++ join (cw st))%string.
Proof.
  intros Hoq Hcq Hb.
  destruct (openTags_empty true st Hoq) as (Ho1 & Ho2 & Ho3).
  destruct (openTags_frame true st) as (Hf1 & Hf2 & Hf3 & Hf4).
  unfold finish, getResultWithSuffixBeforeClosingTags,
    getResultWithSuffixAfterClosingTags.
  destruct (flushWord (openTags true st)) as [[|] st2] eqn:Ef; cbv zeta;
    cbn [closeQueue result set_closeQueue].
  - assert (Hq : closeQueue st2 = []
                 /\ result st2 = (result st ++ join (cw st))%string).
    { destruct (flushWord_true _ _ Ef)
        as [[Hw' ->] | (n & Hn & _ & Hm & Hr & _ & _ & _ & _ & _ & _ & Hq2)].
      - rewrite Hf2 in Hw'. rewrite Ho3, Ho1, Hw'. simpl.
        now rewrite sapp_nil_r.
      - destruct (openTags_empty false (openTags true st) Ho2) as (Hp1 & _ & Hp3).
        rewrite Hbw in Hm. rewrite Hf2 in *.
        rewrite Hq2, Hp3, Ho3, Hr, Hp1, Ho1, Hm, firstn_all.
        now split. }
    destruct Hq as [-> ->].
    destruct (shouldEncloseSuffixInTags opts); reflexivity.
  - exfalso. apply flushWord_false_inv in Ef as (_ & _ & Hb').
    rewrite Hbw in Hb'. rewrite Hf1, Hf2 in Hb'. lia.
Qed.

End WholeWords.

(** X18.  For a source without ['<'] and ['&'], a length that is not
    negative and no [breakWords], the call returns the first [k]
    characters of the source for some [k] within [length], followed by
    nothing or by the suffix, and [k] cuts no word: it is 0, the length of
    the source, or the place of a character that is not a letter.  The
    suffix is there only when characters are left out. *)
Theorem plain_text_whole_words (call : Call) :
  forallb isPlain chars = true ->
  (0 <= length)%Z ->
  breakWords opts = false ->
  exists k tail,
    html_substring_of call = Returns (join (firstn k chars) ++ tail)%string
    /\ (Z.of_nat k <= length)%Z
    /\ wordBoundary k = true
    /\ (tail = ""
        \/ (k < Datatypes.length chars
            /\ exists sfx, suffix opts = Some sfx /\ tail = suffixText sfx)).
Proof.
  intros Hplain Hlen Hbw.
  assert (Hinit : plainInv initial).
  { repeat split; simpl; try lia; discriminate. }
  pose proof (whole_mainloop Hbw (Datatypes.length chars) Hplain initial Hinit
                             eq_refl) as Hloop.
  destruct (mainloop_enough (Datatypes.length chars) initial) as (_ & Hd & _);
    [simpl; lia|].
  unfold html_substring_of, run.
  destruct (mainloop (Datatypes.length chars) initial) as [st|st|t o|];
    try contradiction.
  assert (Hleft : forall st0,
             plainInv st0 ->
             wordBoundary (String.length (result st0)) = true ->
             cw st0 <> [] ->
             (length < current st0 + Z.of_nat (Datatypes.length (cw st0)))%Z ->
             finish st = finish st0 ->
             exists k tail,
               Returns (finish st)
               = Returns (join (firstn k chars) ++ tail)%string
               /\ (Z.of_nat k <= length)%Z
               /\ wordBoundary k = true
               /\ (tail = ""
                   \/ (k < Datatypes.length chars
                       /\ exists sfx,
                           suffix opts = Some sfx /\ tail = suffixText sfx))).
  { intros st0 Hinv Hwb Hw Hb ->.
    destruct (plainInv_prefix st0 Hinv) as [Hpre Hsum].
    destruct Hinv as (_ & Hcur & Hle & Hoq & Hcq & Hsa & _ & Hi).
    rewrite (finish_word_left Hbw st0 Hoq Hcq Hsa Hw Hb).
    exists (String.length (result st0)).
    destruct (suffix opts) as [sfx|].
    - exists (suffixText sfx). rewrite <- Hpre.
      split; [reflexivity|]. split; [lia|]. split; [exact Hwb|].
      right. split; [|now exists sfx].
      destruct (cw st0); [congruence | simpl in Hsum; lia].
    - exists "". rewrite <- Hpre.
      split; [reflexivity|]. split; [lia|]. split; [exact Hwb|]. now left. }
  destruct Hloop as [(Hinv & Hwb & Hexit) | (st0 & Hinv & Hwb & -> & Hw & Hb)].
  - destruct (Z.leb_spec (current st + Z.of_nat (Datatypes.length (cw st)))
                         length) as [Hfit | Hnot].
    + destruct (plainInv_prefix st Hinv) as [Hpre Hsum].
      pose proof Hinv as (Hres & Hcur & Hle & Hoq & Hcq & Hsa & _ & Hi).
      rewrite (finish_word_fits Hbw st Hoq Hcq Hfit), Hres.
      exists (i st), "". rewrite sapp_nil_r.
      split; [reflexivity|]. split; [lia|]. split; [|now left].
      destruct Hexit as [Hx | Hx].
      * assert (Hz : Datatypes.length (cw st) = 0) by lia.
        rewrite Hz, Nat.add_0_r in Hsum. now rewrite <- Hsum.
      * unfold wordBoundary, at_.
        replace (nth_error chars (i st)) with (@None ascii)
          by (symmetry; apply nth_error_None; lia).
        apply orb_true_r.
    + apply (Hleft st Hinv Hwb); [|exact Hnot | reflexivity].
      intros Hw. rewrite Hw in Hnot. simpl in Hnot.
      destruct Hinv as (_ & _ & Hle & _). lia.
  - apply (Hleft st0 Hinv Hwb Hw Hb).
    destruct Hinv as (_ & _ & _ & Hoq & Hcq & Hsa & _).
    rewrite (finish_word_left Hbw st0 Hoq Hcq Hsa Hw Hb).
    now rewrite (finish_word_left Hbw (set_cwEmpty (set_i st0 (i st0 + 1)) true)
                                  Hoq Hcq Hsa Hw Hb).
Qed.

Lemma plain_text_whole_words_witness :
  let call := mkCall htmlVoidTags (list_ascii_of_string "hello big world") 12
                     (mkOptions false (suffix (options_of_string "..."))
                                false) in
  html_substring_of call = Returns "hello big..."
  /\ exists k tail,
       html_substring_of call = Returns (join (firstn k chars) ++ tail)%string
       /\ (Z.of_nat k <= length)%Z
       /\ wordBoundary k = true
       /\ (tail = ""
           \/ (k < Datatypes.length chars
               /\ exists sfx, suffix opts = Some sfx /\ tail = suffixText sfx)).
Proof.
  intros call. split; [vm_compute; reflexivity|].
  apply (plain_text_whole_words call); [reflexivity | simpl; lia | reflexivity].
Defined.
